(** * Transducist: the stage catalog of [src/transducers.ts]

    A shallow embedding of the transformer classes of [transducers.ts] and a
    verification of their step / finish behaviour.

    Conventions of the embedding.

    - A JavaScript object with mutable private fields (a transformer
      instance) is a record of field values that every method takes and
      returns: [this] goes in, the updated [this] comes out.  The field [xf]
      of a stage refers to the downstream transformer object, so the record of
      a stage contains the record of its downstream.
    - An accumulator record that a step mutates in place and then returns
      ([DedupeState], [TakeNthState], ...) is a value that is updated
      functionally: in every such method the mutated object is the returned
      one.
    - [number] parameters and counters are integers ([Z]); arrays are lists,
      [push] appends at the end.
    - [MaybeReduced<T> = T | Reduced<T>] is a two-constructor type.
    - [util.ts], [types.ts] and [core.ts] are imported by [transducers.ts]
      but are not part of the sources at hand: what is used of them is
      modelled from the specification, and marked so.

    The definitions come first: the wrapper, the protocol, the driving
    loop, the stage classes in the order of the source, the test harness and
    the list functions the stages are compared with.  The theorems follow,
    stage by stage. *)

From Stdlib Require Import String.
From Stdlib Require Import List ZArith Lia Bool.
Import ListNotations.
Local Open Scope Z_scope.

Set Implicit Arguments.

(* ===================================================================== *)
(** ** [util.ts]: the reduced wrapper *)
(* ===================================================================== *)

(** Modelled from the spec: [MaybeReduced<T>] of [types.ts] (section 3, the
    reduction signal: one accumulator value plus a "done" flag).  A plain
    value, or a value wrapped as
    [{ "@@transducer/reduced": true, "@@transducer/value": v }]. *)
Inductive MaybeReduced (T : Type) : Type :=
| Plain (v : T)
| Reduced (v : T).

Arguments Plain {T} v.
Arguments Reduced {T} v.

(** Modelled from the spec: [reduced] of [util.ts] (section 4.1,
    [signal(value)] wraps a value as terminal). *)
Definition reduced {T} (x : T) : MaybeReduced T := Reduced x.

(** Modelled from the spec: [isReduced] of [util.ts] (section 4.1,
    [isSignaled(x)] tests the flag). *)
Definition isReduced {T} (x : MaybeReduced T) : bool :=
  match x with
  | Reduced _ => true
  | Plain _ => false
  end.

(** Modelled from the spec: [unreduced] of [util.ts] (section 4.1,
    [unwrap(x)] returns the underlying value whether or not signaled). *)
Definition unreduced {T} (x : MaybeReduced T) : T :=
  match x with
  | Reduced v => v
  | Plain v => v
  end.

(** Modelled from the spec: [ensureReduced] of [util.ts] (section 4.1,
    [ensureSignaled(x)] returns [x] unchanged if already signaled, else
    wraps it). *)
Definition ensureReduced {T} (x : MaybeReduced T) : MaybeReduced T :=
  if isReduced x then x else reduced (unreduced x).

(* ===================================================================== *)
(** ** [types.ts]: the transformer protocol *)
(* ===================================================================== *)

(** Modelled from the spec: the [CompletingTransformer] interface of
    [types.ts] (section 3, the capability triple initialize / step / finish).
    [St] is the type of the object's fields; [xf_new] holds their values
    right after the constructor has run. *)
Record CompletingTransformer (St TResult TCompleteResult TInput : Type) := {
  xf_new : St;
  xf_init : St -> TResult * St;
  xf_result : St -> TResult -> TCompleteResult * St;
  xf_step : St -> TResult -> TInput -> MaybeReduced TResult * St
}.

(** JavaScript's [===] on the values handed to a stage.  It is symmetric and
    transitive; it is not assumed reflexive ([NaN !== NaN]) nor to separate
    distinct values ([0 === -0]). *)
Class StrictEq (T : Type) := {
  strict_eq : T -> T -> bool;
  strict_eq_sym : forall a b, strict_eq a b = strict_eq b a;
  strict_eq_trans : forall a b c,
    strict_eq a b = true -> strict_eq b c = true -> strict_eq a c = true
}.

#[export] Instance StrictEq_Z : StrictEq Z.
Proof.
  refine {| strict_eq := Z.eqb |}.
  - intros a b. apply Z.eqb_sym.
  - intros a b c H1 H2. apply Z.eqb_eq in H1, H2. apply Z.eqb_eq. congruence.
Defined.

#[export] Instance StrictEq_string : StrictEq string.
Proof.
  refine {| strict_eq := String.eqb |}.
  - intros a b. apply String.eqb_sym.
  - intros a b c H1 H2. apply String.eqb_eq in H1, H2. apply String.eqb_eq.
    congruence.
Defined.

#[export] Instance StrictEq_nat : StrictEq nat.
Proof.
  refine {| strict_eq := Nat.eqb |}.
  - intros a b. apply Nat.eqb_sym.
  - intros a b c H1 H2. apply Nat.eqb_eq in H1, H2. apply Nat.eqb_eq.
    congruence.
Defined.

(* ===================================================================== *)
(** ** [core.ts]: the driving loop *)
(* ===================================================================== *)

(** Modelled from the spec: [reduceWithFunction] of [core.ts] (section 4.3:
    repeatedly pull the next input; if none remains, stop; otherwise call
    step; if the result is signaled, stop with it; otherwise continue with it
    as the new accumulator).  The source is a list whose head is the next
    element to pull; the third component of the answer is what was left
    un-pulled.  [this] is the object the reducer [f] is bound to. *)
Fixpoint reduceWithFunction {St TResult TInput : Type}
    (collection : list TInput)
    (f : St -> TResult -> TInput -> MaybeReduced TResult * St)
    (initialValue : TResult) (this : St)
  : MaybeReduced TResult * St * list TInput :=
  match collection with
  | [] => (Plain initialValue, this, [])
  | input :: rest =>
      let (next, this') := f this initialValue input in
      if isReduced next then (next, this', rest)
      else reduceWithFunction rest f (unreduced next) this'
  end.

(** Modelled from the spec: the driving reducer of [core.ts] (section 4.3)
    with no caller-supplied initial accumulator: call the chain's
    [initialize], run the loop, then call [finish] exactly once on the
    unwrapped accumulator. *)
Definition transduce {St TResult TCompleteResult TInput : Type}
    (xf : CompletingTransformer St TResult TCompleteResult TInput)
    (collection : list TInput) (this : St)
  : TCompleteResult * St * list TInput :=
  let (acc, this0) := xf_init xf this in
  let '(r, this1, rest) := reduceWithFunction collection (xf_step xf) acc this0 in
  let (out, this2) := xf_result xf this1 (unreduced r) in
  (out, this2, rest).

(** Number of elements pulled from a source, given what was left of it. *)
Definition pulled {T} (source rest : list T) : nat :=
  (length source - length rest)%nat.

(* ===================================================================== *)
(** ** [transducers.ts] *)
(* ===================================================================== *)

(** [interface ValueWrapper<T> { value: T }]. *)
Class ValueWrapper (TWrapper T : Type) := {
  value : TWrapper -> T;
  set_value : TWrapper -> T -> TWrapper
}.

(** [updateValue] (lines 19-30). *)
Definition updateValue {T TWrapper} `{ValueWrapper TWrapper T}
    (result : TWrapper) (newValue : MaybeReduced T) : MaybeReduced TWrapper :=
  if isReduced newValue then
    reduced (set_value result (unreduced newValue))
  else
    Plain (set_value result (unreduced newValue)).

(** The update [unreduced(x).field = ...]: the object inside [x] is changed
    in place, wrapped or not. *)
Definition on_unreduced {T} (g : T -> T) (x : MaybeReduced T) : MaybeReduced T :=
  match x with
  | Reduced v => Reduced (g v)
  | Plain v => Plain (g v)
  end.

(** The type [T | {}] of a slot that starts out holding a marker object:
    [last: {}] of [Dedupe] (a literal evaluated by init) and
    [INITIAL_LAST_KEY] of [PartitionBy] (a constant the module does not
    export).  [===] on an object is identity, and the marker is reachable
    from the slot only, so it is [===] to no value a caller hands in: the
    union is embedded as a sum. *)
Inductive OrMarker (T : Type) : Type :=
| INITIAL
| Known (v : T).

Arguments INITIAL {T}.
Arguments Known {T} v.

(** *** [Dedupe] (lines 32-75) *)

Record DedupeState (T TResult : Type) := {
  Dedupe_last : OrMarker T;
  Dedupe_value : TResult
}.

#[export] Instance ValueWrapper_DedupeState {T TResult}
  : ValueWrapper (DedupeState T TResult) TResult :=
  {| value := @Dedupe_value T TResult;
     set_value := fun r v => {| Dedupe_last := Dedupe_last r; Dedupe_value := v |} |}.

Section Dedupe.
Context {St TResult TCompleteResult TInput : Type} `{StrictEq TInput}.
Variable xf : CompletingTransformer St TResult TCompleteResult TInput.

Definition Dedupe_init (this : St) : DedupeState TInput TResult * St :=
  let (v, this') := xf_init xf this in
  ({| Dedupe_last := INITIAL; Dedupe_value := v |}, this').

Definition Dedupe_result (this : St) (result : DedupeState TInput TResult)
  : TCompleteResult * St :=
  xf_result xf this (value result).

(** [input !== result.last]. *)
Definition Dedupe_differs (input : TInput) (last : OrMarker TInput) : bool :=
  match last with
  | INITIAL => true
  | Known v => negb (strict_eq input v)
  end.

Definition Dedupe_step (this : St) (result : DedupeState TInput TResult)
    (input : TInput) : MaybeReduced (DedupeState TInput TResult) * St :=
  if Dedupe_differs input (Dedupe_last result) then
    let result1 := {| Dedupe_last := Known input;
                      Dedupe_value := Dedupe_value result |} in
    let (next, this') := xf_step xf this (value result1) input in
    (updateValue result1 next, this')
  else (Plain result, this).

Definition Dedupe
  : CompletingTransformer St (DedupeState TInput TResult) TCompleteResult TInput :=
  {| xf_new := xf_new xf;
     xf_init := Dedupe_init;
     xf_result := Dedupe_result;
     xf_step := Dedupe_step |}.
End Dedupe.

(** [dedupe] (line 73). *)
Definition dedupe {St TResult TCompleteResult T} `{StrictEq T}
    (xf : CompletingTransformer St TResult TCompleteResult T) :=
  Dedupe xf.

(** *** [Drop] (lines 77-110) *)

Record DropObj (St : Type) := { Drop_i : Z; Drop_xf : St }.

Section Drop.
Context {St TResult TCompleteResult TInput : Type}.
Variable xf : CompletingTransformer St TResult TCompleteResult TInput.
Variable n : Z.

Definition Drop_new : DropObj St := {| Drop_i := 0; Drop_xf := xf_new xf |}.

Definition Drop_init (this : DropObj St) : TResult * DropObj St :=
  let (r, x) := xf_init xf (Drop_xf this) in
  (r, {| Drop_i := Drop_i this; Drop_xf := x |}).

Definition Drop_result (this : DropObj St) (result : TResult)
  : TCompleteResult * DropObj St :=
  let (r, x) := xf_result xf (Drop_xf this) result in
  (r, {| Drop_i := Drop_i this; Drop_xf := x |}).

Definition Drop_step (this : DropObj St) (result : TResult) (input : TInput)
  : MaybeReduced TResult * DropObj St :=
  let i := Drop_i this in
  if i <? n then (Plain result, {| Drop_i := i + 1; Drop_xf := Drop_xf this |})
  else
    let (r, x) := xf_step xf (Drop_xf this) result input in
    (r, {| Drop_i := i + 1; Drop_xf := x |}).

Definition Drop : CompletingTransformer (DropObj St) TResult TCompleteResult TInput :=
  {| xf_new := Drop_new;
     xf_init := Drop_init;
     xf_result := Drop_result;
     xf_step := Drop_step |}.
End Drop.

(** [drop] (line 108). *)
Definition drop {St TResult TCompleteResult T} (n : Z)
    (xf : CompletingTransformer St TResult TCompleteResult T) :=
  Drop xf n.

(** *** [DropWhile] (lines 112-167) *)

Record DropWhileState (TResult : Type) := {
  DropWhile_value : TResult;
  DropWhile_isDoneDropping : bool
}.

#[export] Instance ValueWrapper_DropWhileState {TResult}
  : ValueWrapper (DropWhileState TResult) TResult :=
  {| value := @DropWhile_value TResult;
     set_value := fun r v =>
       {| DropWhile_value := v;
          DropWhile_isDoneDropping := DropWhile_isDoneDropping r |} |}.

Section DropWhile.
Context {St TResult TCompleteResult TInput : Type}.
Variable xf : CompletingTransformer St TResult TCompleteResult TInput.
Variable pred : TInput -> bool.

Definition DropWhile_init (this : St) : DropWhileState TResult * St :=
  let (v, this') := xf_init xf this in
  ({| DropWhile_value := v; DropWhile_isDoneDropping := false |}, this').

Definition DropWhile_result (this : St) (result : DropWhileState TResult)
  : TCompleteResult * St :=
  xf_result xf this (value result).

Definition DropWhile_step (this : St) (result : DropWhileState TResult)
    (input : TInput) : MaybeReduced (DropWhileState TResult) * St :=
  if DropWhile_isDoneDropping result then
    let (next, this') := xf_step xf this (value result) input in
    (updateValue result next, this')
  else if pred input then (Plain result, this)
  else
    let result1 := {| DropWhile_value := DropWhile_value result;
                      DropWhile_isDoneDropping := true |} in
    let (next, this') := xf_step xf this (value result1) input in
    (updateValue result1 next, this').

Definition DropWhile
  : CompletingTransformer St (DropWhileState TResult) TCompleteResult TInput :=
  {| xf_new := xf_new xf;
     xf_init := DropWhile_init;
     xf_result := DropWhile_result;
     xf_step := DropWhile_step |}.
End DropWhile.

(** [dropWhile] (line 165). *)
Definition dropWhile {St TResult TCompleteResult T} (pred : T -> bool)
    (xf : CompletingTransformer St TResult TCompleteResult T) :=
  DropWhile xf pred.

(** *** [Filter] (lines 169-200) and [remove] (line 469) *)

Section Filter.
Context {St TResult TCompleteResult TInput : Type}.
Variable xf : CompletingTransformer St TResult TCompleteResult TInput.
Variable pred : TInput -> bool.

Definition Filter_step (this : St) (result : TResult) (input : TInput)
  : MaybeReduced TResult * St :=
  if pred input then xf_step xf this result input else (Plain result, this).

Definition Filter : CompletingTransformer St TResult TCompleteResult TInput :=
  {| xf_new := xf_new xf;
     xf_init := xf_init xf;
     xf_result := xf_result xf;
     xf_step := Filter_step |}.
End Filter.

Definition filter {St TResult TCompleteResult T} (pred : T -> bool)
    (xf : CompletingTransformer St TResult TCompleteResult T) :=
  Filter xf pred.

Definition remove {St TResult TCompleteResult T} (pred : T -> bool)
    (xf : CompletingTransformer St TResult TCompleteResult T) :=
  filter (fun item => negb (pred item)) xf.

(** *** [FlatMap] (lines 202-235) *)

Section FlatMap.
Context {St TResult TCompleteResult TInput TOutput : Type}.
Variable xf : CompletingTransformer St TResult TCompleteResult TOutput.
Variable f : TInput -> list TOutput.

Definition FlatMap_step (this : St) (result : TResult) (input : TInput)
  : MaybeReduced TResult * St :=
  fst (reduceWithFunction (f input) (xf_step xf) result this).

Definition FlatMap : CompletingTransformer St TResult TCompleteResult TInput :=
  {| xf_new := xf_new xf;
     xf_init := xf_init xf;
     xf_result := xf_result xf;
     xf_step := FlatMap_step |}.
End FlatMap.

Definition flatMap {St TResult TCompleteResult T U} (f : T -> list U)
    (xf : CompletingTransformer St TResult TCompleteResult U) :=
  FlatMap xf f.

(** *** [Interpose] (lines 237-281) *)

Record InterposeObj (St : Type) := {
  Interpose_isStarted : bool;
  Interpose_xf : St
}.

Section Interpose.
Context {St TResult TCompleteResult TInput : Type}.
Variable xf : CompletingTransformer St TResult TCompleteResult TInput.
Variable separator : TInput.

Definition Interpose_new : InterposeObj St :=
  {| Interpose_isStarted := false; Interpose_xf := xf_new xf |}.

Definition Interpose_init (this : InterposeObj St) : TResult * InterposeObj St :=
  let (r, x) := xf_init xf (Interpose_xf this) in
  (r, {| Interpose_isStarted := Interpose_isStarted this; Interpose_xf := x |}).

Definition Interpose_result (this : InterposeObj St) (result : TResult)
  : TCompleteResult * InterposeObj St :=
  let (r, x) := xf_result xf (Interpose_xf this) result in
  (r, {| Interpose_isStarted := Interpose_isStarted this; Interpose_xf := x |}).

Definition Interpose_step (this : InterposeObj St) (result : TResult)
    (input : TInput) : MaybeReduced TResult * InterposeObj St :=
  if Interpose_isStarted this then
    let (withSeparator, x) := xf_step xf (Interpose_xf this) result separator in
    if isReduced withSeparator then
      (withSeparator,
       {| Interpose_isStarted := Interpose_isStarted this; Interpose_xf := x |})
    else
      let (r, x') := xf_step xf x (unreduced withSeparator) input in
      (r, {| Interpose_isStarted := Interpose_isStarted this; Interpose_xf := x' |})
  else
    let (r, x) := xf_step xf (Interpose_xf this) result input in
    (r, {| Interpose_isStarted := true; Interpose_xf := x |}).

Definition Interpose
  : CompletingTransformer (InterposeObj St) TResult TCompleteResult TInput :=
  {| xf_new := Interpose_new;
     xf_init := Interpose_init;
     xf_result := Interpose_result;
     xf_step := Interpose_step |}.
End Interpose.

(** [interpose] (line 279). *)
Definition interpose {St TResult TCompleteResult T} (separator : T)
    (xf : CompletingTransformer St TResult TCompleteResult T) :=
  Interpose xf separator.

(** *** [MapTransformer] (lines 283-313) *)

Section MapTransformer.
Context {St TResult TCompleteResult TInput TOutput : Type}.
Variable xf : CompletingTransformer St TResult TCompleteResult TOutput.
Variable f : TInput -> TOutput.

Definition MapTransformer_step (this : St) (result : TResult) (input : TInput)
  : MaybeReduced TResult * St :=
  xf_step xf this result (f input).

Definition MapTransformer : CompletingTransformer St TResult TCompleteResult TInput :=
  {| xf_new := xf_new xf;
     xf_init := xf_init xf;
     xf_result := xf_result xf;
     xf_step := MapTransformer_step |}.
End MapTransformer.

Definition map {St TResult TCompleteResult T U} (f : T -> U)
    (xf : CompletingTransformer St TResult TCompleteResult U) :=
  MapTransformer xf f.

(** A call that either returns or throws [new Error(message)]. *)
Inductive Throws (T : Type) : Type :=
| Returns (v : T)
| Throw (message : string).

Arguments Returns {T} v.
Arguments Throw {T} message.

(** *** [PartitionAll] (lines 315-364) *)

Record PartitionAllObj (TInput St : Type) := {
  PartitionAll_buffer : list TInput;
  PartitionAll_xf : St
}.

Section PartitionAll.
Context {St TResult TCompleteResult TInput : Type}.
Variable xf : CompletingTransformer St TResult TCompleteResult (list TInput).
Variable n : Z.

Definition PartitionAll_new : PartitionAllObj TInput St :=
  {| PartitionAll_buffer := []; PartitionAll_xf := xf_new xf |}.

Definition PartitionAll_init (this : PartitionAllObj TInput St)
  : TResult * PartitionAllObj TInput St :=
  let (r, x) := xf_init xf (PartitionAll_xf this) in
  (r, {| PartitionAll_buffer := PartitionAll_buffer this; PartitionAll_xf := x |}).

Definition PartitionAll_result (this : PartitionAllObj TInput St) (result : TResult)
  : TCompleteResult * PartitionAllObj TInput St :=
  let (result', this') :=
    if 0 <? Z.of_nat (length (PartitionAll_buffer this)) then
      let (r, x) := xf_step xf (PartitionAll_xf this) result
                      (PartitionAll_buffer this) in
      (unreduced r, {| PartitionAll_buffer := []; PartitionAll_xf := x |})
    else (result, this) in
  let (out, x) := xf_result xf (PartitionAll_xf this') result' in
  (out, {| PartitionAll_buffer := PartitionAll_buffer this'; PartitionAll_xf := x |}).

Definition PartitionAll_step (this : PartitionAllObj TInput St) (result : TResult)
    (input : TInput) : MaybeReduced TResult * PartitionAllObj TInput St :=
  let buffer := PartitionAll_buffer this ++ [input] in
  if Z.of_nat (length buffer) =? n then
    let (newResult, x) := xf_step xf (PartitionAll_xf this) result buffer in
    (newResult, {| PartitionAll_buffer := []; PartitionAll_xf := x |})
  else
    (Plain result,
     {| PartitionAll_buffer := buffer; PartitionAll_xf := PartitionAll_xf this |}).

Definition PartitionAll
  : CompletingTransformer (PartitionAllObj TInput St) TResult TCompleteResult TInput :=
  {| xf_new := PartitionAll_new;
     xf_init := PartitionAll_init;
     xf_result := PartitionAll_result;
     xf_step := PartitionAll_step |}.
End PartitionAll.

(** [partitionAll] (lines 357-364). *)
Definition partitionAll {St TResult TCompleteResult T} (n : Z)
  : Throws (CompletingTransformer St TResult TCompleteResult (list T) ->
            CompletingTransformer (PartitionAllObj T St) TResult TCompleteResult T) :=
  if n =? 0 then Throw "Size in partitionAll() cannot be 0"
  else if n <? 0 then Throw "Size in partitionAll() cannot be negative"
  else Returns (fun xf => PartitionAll xf n).

(** *** [PartitionBy] (lines 366-433) *)

Record PartitionByState (TResult TInput K : Type) := {
  PartitionBy_value : TResult;
  PartitionBy_buffer : list TInput;
  PartitionBy_lastKey : OrMarker K
}.

#[export] Instance ValueWrapper_PartitionByState {TResult TInput K}
  : ValueWrapper (PartitionByState TResult TInput K) TResult :=
  {| value := @PartitionBy_value TResult TInput K;
     set_value := fun r v =>
       {| PartitionBy_value := v;
          PartitionBy_buffer := PartitionBy_buffer r;
          PartitionBy_lastKey := PartitionBy_lastKey r |} |}.

(** [r.buffer = buffer]. *)
Definition PartitionBy_set_buffer {TResult TInput K} (buffer : list TInput)
    (r : PartitionByState TResult TInput K) : PartitionByState TResult TInput K :=
  {| PartitionBy_value := PartitionBy_value r;
     PartitionBy_buffer := buffer;
     PartitionBy_lastKey := PartitionBy_lastKey r |}.

(** [r.buffer.push(input)]. *)
Definition PartitionBy_push {TResult TInput K} (input : TInput)
    (r : PartitionByState TResult TInput K) : PartitionByState TResult TInput K :=
  PartitionBy_set_buffer (PartitionBy_buffer r ++ [input]) r.

Section PartitionBy.
Context {St TResult TCompleteResult TInput K : Type} `{StrictEq K}.
Variable xf : CompletingTransformer St TResult TCompleteResult (list TInput).
Variable f : TInput -> K.

Definition PartitionBy_init (this : St) : PartitionByState TResult TInput K * St :=
  let (v, this') := xf_init xf this in
  ({| PartitionBy_value := v;
      PartitionBy_buffer := [];
      PartitionBy_lastKey := INITIAL |}, this').

Definition PartitionBy_result (this : St)
    (result : PartitionByState TResult TInput K) : TCompleteResult * St :=
  let (result', this') :=
    if 0 <? Z.of_nat (length (PartitionBy_buffer result)) then
      let (r, x) := xf_step xf this (PartitionBy_value result)
                      (PartitionBy_buffer result) in
      (PartitionBy_set_buffer [] (set_value result (unreduced r)), x)
    else (result, this) in
  xf_result xf this' (value result').

(** [lastKey === INITIAL_LAST_KEY || lastKey === key]. *)
Definition PartitionBy_sameGroup (lastKey : OrMarker K) (key : K) : bool :=
  match lastKey with
  | INITIAL => true
  | Known k => strict_eq k key
  end.

Definition PartitionBy_step (this : St)
    (result : PartitionByState TResult TInput K) (input : TInput)
  : MaybeReduced (PartitionByState TResult TInput K) * St :=
  let key := f input in
  let value := PartitionBy_value result in
  let buffer := PartitionBy_buffer result in
  let lastKey := PartitionBy_lastKey result in
  let result1 := {| PartitionBy_value := value;
                    PartitionBy_buffer := buffer;
                    PartitionBy_lastKey := Known key |} in
  let (newResult, this') :=
    if PartitionBy_sameGroup lastKey key then (Plain result1, this)
    else
      let (r, x) := xf_step xf this value buffer in
      (on_unreduced (PartitionBy_set_buffer []) (updateValue result1 r), x) in
  (on_unreduced (PartitionBy_push input) newResult, this').

Definition PartitionBy
  : CompletingTransformer St (PartitionByState TResult TInput K)
      TCompleteResult TInput :=
  {| xf_new := xf_new xf;
     xf_init := PartitionBy_init;
     xf_result := PartitionBy_result;
     xf_step := PartitionBy_step |}.
End PartitionBy.

(** [partitionBy] (line 431). *)
Definition partitionBy {St TResult TCompleteResult T K} `{StrictEq K} (f : T -> K)
    (xf : CompletingTransformer St TResult TCompleteResult (list T)) :=
  PartitionBy xf f.

(** *** [Take] (lines 435-467) *)

Record TakeObj (St : Type) := { Take_i : Z; Take_xf : St }.

Section Take.
Context {St TResult TCompleteResult TInput : Type}.
Variable xf : CompletingTransformer St TResult TCompleteResult TInput.
Variable n : Z.

Definition Take_new : TakeObj St := {| Take_i := 0; Take_xf := xf_new xf |}.

Definition Take_init (this : TakeObj St) : TResult * TakeObj St :=
  let (r, x) := xf_init xf (Take_xf this) in
  (r, {| Take_i := Take_i this; Take_xf := x |}).

Definition Take_result (this : TakeObj St) (result : TResult)
  : TCompleteResult * TakeObj St :=
  let (r, x) := xf_result xf (Take_xf this) result in
  (r, {| Take_i := Take_i this; Take_xf := x |}).

Definition Take_step (this : TakeObj St) (result : TResult) (input : TInput)
  : MaybeReduced TResult * TakeObj St :=
  if n <=? 0 then (reduced result, this)
  else
    let (next, x) := xf_step xf (Take_xf this) result input in
    let i := Take_i this in
    let this' := {| Take_i := i + 1; Take_xf := x |} in
    (if i <? n - 1 then next else ensureReduced next, this').

Definition Take : CompletingTransformer (TakeObj St) TResult TCompleteResult TInput :=
  {| xf_new := Take_new;
     xf_init := Take_init;
     xf_result := Take_result;
     xf_step := Take_step |}.
End Take.

(** [take] (line 473). *)
Definition take {St TResult TCompleteResult T} (n : Z)
    (xf : CompletingTransformer St TResult TCompleteResult T) :=
  Take xf n.

(** *** [TakeNth] (lines 477-524) *)

Record TakeNthState (TResult : Type) := {
  TakeNth_value : TResult;
  TakeNth_i : Z
}.

#[export] Instance ValueWrapper_TakeNthState {TResult}
  : ValueWrapper (TakeNthState TResult) TResult :=
  {| value := @TakeNth_value TResult;
     set_value := fun r v => {| TakeNth_value := v; TakeNth_i := TakeNth_i r |} |}.

Section TakeNth.
Context {St TResult TCompleteResult TInput : Type}.
Variable xf : CompletingTransformer St TResult TCompleteResult TInput.
Variable n : Z.

Definition TakeNth_init (this : St) : TakeNthState TResult * St :=
  let (v, this') := xf_init xf this in
  ({| TakeNth_value := v; TakeNth_i := 0 |}, this').

Definition TakeNth_result (this : St) (result : TakeNthState TResult)
  : TCompleteResult * St :=
  xf_result xf this (value result).

Definition TakeNth_step (this : St) (result : TakeNthState TResult)
    (input : TInput) : MaybeReduced (TakeNthState TResult) * St :=
  let i := TakeNth_i result in
  let result1 := {| TakeNth_value := TakeNth_value result; TakeNth_i := i + 1 |} in
  if Z.rem i n =? 0 then
    let (next, this') := xf_step xf this (value result1) input in
    (updateValue result1 next, this')
  else (Plain result1, this).

Definition TakeNth
  : CompletingTransformer St (TakeNthState TResult) TCompleteResult TInput :=
  {| xf_new := xf_new xf;
     xf_init := TakeNth_init;
     xf_result := TakeNth_result;
     xf_step := TakeNth_step |}.
End TakeNth.

(** [takeNth] (lines 517-524). *)
Definition takeNth {St TResult TCompleteResult T} (n : Z)
  : Throws (CompletingTransformer St TResult TCompleteResult T ->
            CompletingTransformer St (TakeNthState TResult) TCompleteResult T) :=
  if n =? 0 then Throw "Step in takeNth() cannot be 0"
  else if n <? 0 then Throw "Step in takeNth() cannot be negative"
  else Returns (fun xf => TakeNth xf n).

(** *** [TakeWhile] (lines 526-557) *)

Section TakeWhile.
Context {St TResult TCompleteResult TInput : Type}.
Variable xf : CompletingTransformer St TResult TCompleteResult TInput.
Variable pred : TInput -> bool.

Definition TakeWhile_step (this : St) (result : TResult) (input : TInput)
  : MaybeReduced TResult * St :=
  if pred input then xf_step xf this result input else (reduced result, this).

Definition TakeWhile : CompletingTransformer St TResult TCompleteResult TInput :=
  {| xf_new := xf_new xf;
     xf_init := xf_init xf;
     xf_result := xf_result xf;
     xf_step := TakeWhile_step |}.
End TakeWhile.

(** [takeWhile] (line 555). *)
Definition takeWhile {St TResult TCompleteResult T} (pred : T -> bool)
    (xf : CompletingTransformer St TResult TCompleteResult T) :=
  TakeWhile xf pred.

(* ===================================================================== *)
(** ** Terminal transformer and call recorder *)
(* ===================================================================== *)

(** The array-building transformer of the test file's [reduce()] block:
    [init: () => []], [result: x => x], [step: aPush].  It has no fields. *)
Definition aPush {T} (array : list T) (x : T) : list T := array ++ [x].

Definition pushTransformer (T : Type) : CompletingTransformer unit (list T) (list T) T :=
  {| xf_new := tt;
     xf_init := fun this => ([], this);
     xf_result := fun this x => (x, this);
     xf_step := fun this array x => (Plain (aPush array x), this) |}.

(** [toArray] over a chain [stage]: drive a newly built chain that ends in
    the array builder over [source]; the answer is the array. *)
Definition toArray {St TResult T U}
    (stage : CompletingTransformer unit (list U) (list U) U ->
             CompletingTransformer St TResult (list U) T)
    (source : list T) : list U :=
  let xf := stage (pushTransformer U) in
  fst (fst (transduce xf source (xf_new xf))).

(** [toArray] over a factory that may throw. *)
Definition toArrayOf {St TResult T U}
    (factory : Throws (CompletingTransformer unit (list U) (list U) U ->
                       CompletingTransformer St TResult (list U) T))
    (source : list T) : Throws (list U) :=
  match factory with
  | Returns stage => Returns (toArray stage source)
  | Throw message => Throw message
  end.

(** Two traversals through one and the same chain object: the second starts
    from the fields the first left behind. *)
Definition toArrayTwice {St TResult T U}
    (stage : CompletingTransformer unit (list U) (list U) U ->
             CompletingTransformer St TResult (list U) T)
    (first second : list T) : list U * list U :=
  let xf := stage (pushTransformer U) in
  let run1 := transduce xf first (xf_new xf) in
  let run2 := transduce xf second (snd (fst run1)) in
  (fst (fst run1), fst (fst run2)).

(** A call into a transformer: the protocol method, and for a step its input
    and whether the answer was signaled. *)
Inductive Call (T : Type) : Type :=
| InitCall
| StepCall (input : T) (done : bool)
| ResultCall.

Arguments InitCall {T}.
Arguments StepCall {T} input done.
Arguments ResultCall {T}.

(** The fields of a recording wrapper: the calls seen so far, and the fields
    of the transformer it wraps. *)
Record Recorder (T St : Type) := {
  calls : list (Call T);
  recorded : St
}.

Section Recording.
Context {St TResult TCompleteResult TInput : Type}.
Variable xf : CompletingTransformer St TResult TCompleteResult TInput.

(** A wrapper around [xf] that writes down every call made into it and
    answers what [xf] answers.  Put under a stage, it shows what the stage
    does to its downstream. *)
Definition Recording
  : CompletingTransformer (Recorder TInput St) TResult TCompleteResult TInput :=
  {| xf_new := {| calls := []; recorded := xf_new xf |};
     xf_init := fun this =>
       let (r, x) := xf_init xf (recorded this) in
       (r, {| calls := calls this ++ [InitCall]; recorded := x |});
     xf_result := fun this result =>
       let (r, x) := xf_result xf (recorded this) result in
       (r, {| calls := calls this ++ [ResultCall]; recorded := x |});
     xf_step := fun this result input =>
       let (r, x) := xf_step xf (recorded this) result input in
       (r, {| calls := calls this ++ [StepCall input (isReduced r)];
              recorded := x |}) |}.
End Recording.

(** The steps among recorded calls. *)
Definition is_step {T} (c : Call T) : bool :=
  match c with
  | StepCall _ _ => true
  | _ => false
  end.

(** A step call whose answer was signaled. *)
Definition is_done {T} (c : Call T) : bool :=
  match c with
  | StepCall _ done => done
  | _ => false
  end.

(** No step call comes after a step call that was answered with a signaled
    result. *)
Fixpoint quiet_after_done {T} (l : list (Call T)) : bool :=
  match l with
  | [] => true
  | c :: rest =>
      (if is_done c then negb (existsb is_step rest) else true)
      && quiet_after_done rest
  end.

(** How a stage treats the signal of its downstream.  [log] reads the
    recorded calls off the fields of the stage; [settled] holds of the fields
    when a finish would not step downstream.

    One step: the calls it adds are steps, a signaled answer among them is
    the last of them, and then the stage's own answer is signaled. *)
Definition step_propagates {St R C A B} (stage : CompletingTransformer St R C A)
    (log : St -> list (Call B)) (settled : St -> Prop) : Prop :=
  forall this acc x,
    exists new,
      log (snd (xf_step stage this acc x)) = log this ++ new /\
      forallb is_step new = true /\
      quiet_after_done new = true /\
      (existsb is_done new = true ->
         isReduced (fst (xf_step stage this acc x)) = true /\
         settled (snd (xf_step stage this acc x))).

(** The stages that buffer nothing are settled whatever their fields. *)
Definition always {St : Type} (this : St) : Prop := True.

(** Finish: once settled it adds no step. *)
Definition finish_delegates {St R C A B} (stage : CompletingTransformer St R C A)
    (log : St -> list (Call B)) (settled : St -> Prop) : Prop :=
  forall this acc,
    exists new,
      log (snd (xf_result stage this acc)) = log this ++ new /\
      quiet_after_done new = true /\
      (settled this -> existsb is_step new = false).

(** Init adds no step. *)
Definition init_delegates {St R C A B} (stage : CompletingTransformer St R C A)
    (log : St -> list (Call B)) : Prop :=
  forall this,
    exists new,
      log (snd (xf_init stage this)) = log this ++ new /\
      existsb is_step new = false.

(** A whole traversal never steps the downstream after a signaled answer. *)
Definition traversal_quiet {St R C A B} (stage : CompletingTransformer St R C A)
    (log : St -> list (Call B)) : Prop :=
  forall (source : list A) this,
    existsb is_done (log this) = false ->
    quiet_after_done (log (snd (fst (transduce stage source this)))) = true.

(** Init calls the downstream's init, once, and nothing else. *)
Definition init_once {St R C A B} (stage : CompletingTransformer St R C A)
    (log : St -> list (Call B)) : Prop :=
  forall this, log (snd (xf_init stage this)) = log this ++ [InitCall].

(** Finish may step the downstream, then calls its finish, once and last. *)
Definition finish_once {St R C A B} (stage : CompletingTransformer St R C A)
    (log : St -> list (Call B)) : Prop :=
  forall this acc,
    exists steps,
      log (snd (xf_result stage this acc)) = log this ++ steps ++ [ResultCall] /\
      forallb is_step steps = true.

(** Over a whole traversal the downstream sees its init first, then steps
    only, then its finish, each of the two exactly once. *)
Definition traversal_bracketed {St R C A B} (stage : CompletingTransformer St R C A)
    (log : St -> list (Call B)) : Prop :=
  forall (source : list A) this,
    log this = [] ->
    exists steps,
      log (snd (fst (transduce stage source this)))
      = InitCall :: steps ++ [ResultCall] /\
      forallb is_step steps = true.

(* ===================================================================== *)
(** ** What the specification says, as functions on lists *)
(* ===================================================================== *)

(** [ceil(m/n)] for [n >= 1]. *)
Definition ceil_div (m n : Z) : Z := (m + n - 1) / n.

(** Specification of [partitionBy(f)]: consecutive elements whose keys are
    [===] are merged into one group, a key change starts a new group. *)
Fixpoint groupBy_spec {T K} `{StrictEq K} (f : T -> K) (l : list T)
  : list (list T) :=
  match l with
  | [] => []
  | x :: rest =>
      match groupBy_spec f rest with
      | (y :: g) :: groups =>
          if strict_eq (f x) (f y) then (x :: y :: g) :: groups
          else [x] :: (y :: g) :: groups
      | _ => [[x]]
      end
  end.

(** Every two neighbours of a list are related by [R]. *)
Fixpoint neighbours {A} (R : A -> A -> Prop) (l : list A) : Prop :=
  match l with
  | a :: (b :: _) as tail => R a b /\ neighbours R tail
  | _ => True
  end.

(** The last element of the group [g1] and the first of [g2] have keys
    that are not [===]. *)
Definition key_changes {T K} `{StrictEq K} (f : T -> K) (g1 g2 : list T) : Prop :=
  match g2 with
  | [] => False
  | b :: _ => strict_eq (f (last g1 b)) (f b) = false
  end.

(** The groups of [pending ++ rest], given the groups of [rest] and that
    [pending] is one run of equal keys. *)
Definition join_group {T K} `{StrictEq K} (f : T -> K) (pending : list T)
    (groups : list (list T)) : list (list T) :=
  match groups with
  | (y :: g) :: others =>
      if strict_eq (f (last pending y)) (f y) then (pending ++ y :: g) :: others
      else pending :: (y :: g) :: others
  | _ => [pending]
  end.

(** Specification of [interpose(sep)]: the separator before every element
    except the first. *)
Definition interpose_spec {T} (sep : T) (l : list T) : list T :=
  match l with
  | [] => []
  | x :: rest => x :: flat_map (fun y => [sep; y]) rest
  end.

(** Specification of [dedupe()]: an element passes if and only if it is not
    [===] to the input immediately before it; [prev] is that input. *)
Fixpoint dedupe_after {T} `{StrictEq T} (prev : T) (l : list T) : list T :=
  match l with
  | [] => []
  | x :: rest =>
      if strict_eq x prev then dedupe_after x rest
      else x :: dedupe_after x rest
  end.

Definition dedupe_spec {T} `{StrictEq T} (l : list T) : list T :=
  match l with
  | [] => []
  | x :: rest => x :: dedupe_after x rest
  end.

(** The first index at which [pred] fails, the length of the list when it
    never does. *)
Fixpoint first_failing {T} (pred : T -> bool) (l : list T) : nat :=
  match l with
  | [] => 0%nat
  | x :: rest => if pred x then S (first_failing pred rest) else 0%nat
  end.

(** Specification of [takeNth(n)]: the elements whose 0-based position,
    counted from [start], is a multiple of [n]. *)
Definition every_nth {T} (n : Z) (start : nat) (l : list T) : list T :=
  List.map snd
    (List.filter (fun p => Z.rem (Z.of_nat (fst p)) n =? 0)
       (combine (seq start (length l)) l)).

(** What a traversal leaves behind: the result of finish and the fields of
    the chain object.  What is left of the source is set aside. *)
Definition outcome {St TResult TCompleteResult TInput : Type}
    (xf : CompletingTransformer St TResult TCompleteResult TInput)
    (collection : list TInput) (this : St) : TCompleteResult * St :=
  fst (transduce xf collection this).

(** A transformer whose step never answers with a signaled result. *)
Definition never_done {St TResult TCompleteResult TInput : Type}
    (xf : CompletingTransformer St TResult TCompleteResult TInput) : Prop :=
  forall this result input, isReduced (fst (xf_step xf this result input)) = false.

(* ===================================================================== *)
(** ** The tests of the repository, evaluated on the model *)
(* ===================================================================== *)

Example dedupe_test :
  toArray dedupe [1; 2; 2; 3; 3; 3] = [1; 2; 3].
Proof. reflexivity. Qed.

Example drop_test :
  toArray (drop 2) [1; 2; 3; 4; 5] = [3; 4; 5].
Proof. reflexivity. Qed.

Example dropWhile_test :
  toArray (dropWhile (fun n => n <? 3)) [1; 2; 3; 4; 5] = [3; 4; 5].
Proof. reflexivity. Qed.

Example filter_test :
  toArray (filter (fun n => Z.rem n 2 =? 0)) [1; 2; 3; 4; 5] = [2; 4].
Proof. reflexivity. Qed.

Example interpose_test :
  toArray (interpose 0) [1; 2; 3] = [1; 0; 2; 0; 3].
Proof. reflexivity. Qed.

Example partitionAll_test :
  toArrayOf (partitionAll 2) [1; 2; 3; 4; 5] = Returns [[1; 2]; [3; 4]; [5]].
Proof. reflexivity. Qed.

Example partitionBy_test :
  toArray (partitionBy String.length) ["a"; "b"; "cc"; "dd"; "e"]%string
  = [["a"; "b"]; ["cc"; "dd"]; ["e"]]%string.
Proof. reflexivity. Qed.

Example remove_test :
  toArray (remove (fun n => Z.rem n 2 =? 0)) [1; 2; 3; 4; 5] = [1; 3; 5].
Proof. reflexivity. Qed.

Example take_test :
  toArray (take 3) [1; 2; 3; 4; 5] = [1; 2; 3].
Proof. reflexivity. Qed.

(** "should terminate after pulling n elements": the source is left at 3. *)
Example take_pull_test :
  let xf := take 2 (pushTransformer Z) in
  transduce xf [1; 2; 3; 4] (xf_new xf)
  = ([1; 2], {| Take_i := 2; Take_xf := tt |}, [3; 4]).
Proof. reflexivity. Qed.

Example takeNth_test :
  toArrayOf (takeNth 2) [1; 2; 3; 4; 5] = Returns [1; 3; 5].
Proof. reflexivity. Qed.

Example takeWhile_test :
  toArray (takeWhile (fun n => n <? 3)) [1; 2; 3; 4; 5] = [1; 2].
Proof. reflexivity. Qed.

Example flatMap_test :
  toArray (flatMap (fun k : nat => repeat k k)) [1; 2; 3]%nat
  = [1; 2; 2; 3; 3; 3]%nat.
Proof. reflexivity. Qed.

Example map_filter_test :
  toArray (fun xf => map (fun n => n + 1) (filter (fun n => Z.rem n 2 =? 0) xf))
    [1; 2; 3; 4; 5] = [2; 4; 6].
Proof. reflexivity. Qed.

(* ===================================================================== *)
(** ** The wrapper and the loop *)
(* ===================================================================== *)

Lemma isReduced_ensureReduced {T} (x : MaybeReduced T) :
  isReduced (ensureReduced x) = true.
Proof. destruct x; reflexivity. Qed.

Lemma unreduced_ensureReduced {T} (x : MaybeReduced T) :
  unreduced (ensureReduced x) = unreduced x.
Proof. destruct x; reflexivity. Qed.

Lemma isReduced_updateValue {T W} `{ValueWrapper W T} (w : W) (x : MaybeReduced T) :
  isReduced (updateValue w x) = isReduced x.
Proof. destruct x; reflexivity. Qed.

Lemma unreduced_updateValue {T W} `{ValueWrapper W T} (w : W) (x : MaybeReduced T) :
  unreduced (updateValue w x) = set_value w (unreduced x).
Proof. destruct x; reflexivity. Qed.

Lemma isReduced_on_unreduced {T} (g : T -> T) (x : MaybeReduced T) :
  isReduced (on_unreduced g x) = isReduced x.
Proof. destruct x; reflexivity. Qed.

Lemma unreduced_on_unreduced {T} (g : T -> T) (x : MaybeReduced T) :
  unreduced (on_unreduced g x) = g (unreduced x).
Proof. destruct x; reflexivity. Qed.

(** The loop never gives back more than it was given: what is left is a
    suffix of the source. *)
Lemma reduceWithFunction_rest {St R T} (f : St -> R -> T -> MaybeReduced R * St) :
  forall source acc this r this' rest,
    reduceWithFunction source f acc this = (r, this', rest) ->
    exists k, (k <= length source)%nat /\ rest = skipn k source.
Proof.
  induction source as [|x source IH]; intros acc this r this' rest E; simpl in E.
  - inversion E; subst. exists 0%nat. split; [simpl; lia | reflexivity].
  - destruct (f this acc x) as [next this1].
    destruct (isReduced next).
    + inversion E; subst. exists 1%nat. split; [simpl; lia | reflexivity].
    + apply IH in E. destruct E as [k [Hk ->]].
      exists (S k). split; [simpl; lia | reflexivity].
Qed.

Lemma reduceWithFunction_rest_length {St R T}
    (f : St -> R -> T -> MaybeReduced R * St) source acc this r this' rest :
  reduceWithFunction source f acc this = (r, this', rest) ->
  (length rest <= length source)%nat.
Proof.
  intros E. apply reduceWithFunction_rest in E. destruct E as [k [Hk ->]].
  rewrite length_skipn. lia.
Qed.

(* ===================================================================== *)
(** ** [Take]: how much of the source is pulled *)
(* ===================================================================== *)

Section TakeFacts.
Context {St TResult TCompleteResult TInput : Type}.
Variable xf : CompletingTransformer St TResult TCompleteResult TInput.
Variable n : Z.

(** With [n <= 0] the first step answers [reduced(result)] at once: the one
    element that was pulled to make the call is not handed on, and the
    object is untouched. *)
Lemma Take_loop_nonpositive source acc (this : TakeObj St) :
  n <= 0 ->
  reduceWithFunction source (Take_step xf n) acc this
  = match source with
    | [] => (Plain acc, this, [])
    | _ :: rest => (Reduced acc, this, rest)
    end.
Proof.
  intros Hn. destruct source as [|x rest]; simpl; [reflexivity|].
  unfold Take_step. destruct (Z.leb_spec n 0); [reflexivity | lia].
Qed.

(** The step taken when [n - 1] elements have gone through is signaled,
    whatever the downstream answers. *)
Lemma Take_step_last (this : TakeObj St) result input :
  1 <= n -> n - 1 <= Take_i this ->
  isReduced (fst (Take_step xf n this result input)) = true.
Proof.
  intros Hn Hi. unfold Take_step.
  destruct (Z.leb_spec n 0); [lia|].
  destruct (xf_step xf (Take_xf this) result input) as [next x]. simpl.
  destruct (Z.ltb_spec (Take_i this) (n - 1)); [lia|].
  apply isReduced_ensureReduced.
Qed.

(** With [n >= 1] and [i] elements already through, the loop pulls at most
    [n - i] further elements, and it ends signaled when the source has that
    many. *)
Lemma Take_loop_bound :
  1 <= n ->
  forall source acc (this : TakeObj St) r this' rest,
    0 <= Take_i this < n ->
    reduceWithFunction source (Take_step xf n) acc this = (r, this', rest) ->
    Z.of_nat (pulled source rest) <= n - Take_i this /\
    (n - Take_i this <= Z.of_nat (length source) -> isReduced r = true).
Proof.
  intros Hn. induction source as [|x source IH]; intros acc this r this' rest Hi E.
  - simpl in E. inversion E; subst. unfold pulled. simpl. split; lia.
  - simpl in E. unfold Take_step in E at 1.
    destruct (Z.leb_spec n 0); [lia|].
    destruct (xf_step xf (Take_xf this) acc x) as [next x'].
    destruct (Z.ltb_spec (Take_i this) (n - 1)) as [Hlt|Hge].
    + destruct (isReduced next) eqn:Hnext.
      * inversion E; subst. unfold pulled. simpl length.
        split; [lia | auto].
      * pose proof (reduceWithFunction_rest_length _ _ _ _ E) as Hlen.
        apply IH in E; [|simpl; lia]. simpl Take_i in E.
        destruct E as [Hp Hr]. unfold pulled in *. simpl length.
        split; [lia | intros; apply Hr; lia].
    + rewrite isReduced_ensureReduced in E. inversion E; subst.
      unfold pulled. simpl length. split; [lia | intros; apply isReduced_ensureReduced].
Qed.
End TakeFacts.

(** Into the array builder, [take(n)] with [n >= 1] hands on the first [n]
    elements and leaves the source right after them. *)
Lemma Take_loop_push {T} (n : Z) :
  1 <= n ->
  forall (source : list T) acc i,
    0 <= i < n ->
    let k := Z.to_nat (n - i) in
    reduceWithFunction source (Take_step (pushTransformer T) n) acc
      {| Take_i := i; Take_xf := tt |}
    = (if (k <=? length source)%nat then Reduced (acc ++ firstn k source)
       else Plain (acc ++ firstn k source),
       {| Take_i := i + Z.of_nat (Nat.min k (length source)); Take_xf := tt |},
       skipn k source).
Proof.
  intros Hn. induction source as [|x source IH]; intros acc i Hi k.
  - simpl. destruct (Nat.leb_spec k 0); [lia|].
    rewrite firstn_nil, skipn_nil, app_nil_r, Nat.min_0_r, Z.add_0_r. reflexivity.
  - simpl reduceWithFunction. unfold Take_step at 1.
    destruct (Z.leb_spec n 0); [lia|]. simpl xf_step. simpl Take_i.
    destruct (Z.ltb_spec i (n - 1)) as [Hlt|Hge].
    + simpl isReduced. cbv iota. simpl unreduced.
      rewrite IH by lia.
      assert (Hk : k = S (Z.to_nat (n - (i + 1)))) by (unfold k; lia).
      rewrite Hk. simpl firstn. simpl skipn. simpl length.
      unfold aPush. rewrite <- app_assoc. simpl app.
      rewrite <- Nat.succ_min_distr.
      replace (i + 1 + Z.of_nat (Nat.min (Z.to_nat (n - (i + 1))) (length source)))
        with (i + Z.of_nat (S (Nat.min (Z.to_nat (n - (i + 1))) (length source)))) by lia.
      reflexivity.
    + simpl ensureReduced. simpl isReduced. cbv iota.
      assert (Hk : k = 1%nat) by (unfold k; lia).
      rewrite Hk. simpl. unfold aPush.
      replace (Nat.min 1 (S (length source))) with 1%nat by lia.
      reflexivity.
Qed.

(** [transduce] in terms of projections. *)
Lemma transduce_unfold {St R C T} (xf : CompletingTransformer St R C T) source this :
  transduce xf source this
  = (let i := xf_init xf this in
     let l := reduceWithFunction source (xf_step xf) (fst i) (snd i) in
     let f := xf_result xf (snd (fst l)) (unreduced (fst (fst l))) in
     (fst f, snd f, snd l)).
Proof.
  unfold transduce. destruct (xf_init xf this) as [acc this0]. simpl.
  destruct (reduceWithFunction source (xf_step xf) acc this0) as [[r this1] rest].
  simpl. destruct (xf_result xf this1 (unreduced r)); reflexivity.
Qed.

(** C1 (as amended).  Driving [take(n)], fed by the source and followed by
    any downstream, pulls at most [n] elements when [n >= 1]; the step made
    when [n - 1] elements have gone through is signaled, so the loop ends
    signaled on the [n]th element and never pulls an [(n+1)]th; into the
    array builder exactly the first [n] elements arrive and the source is
    left right after them.  When [n <= 0] the first step is signaled without
    any call into the downstream, but that step needs an element: one
    element is pulled from a non-empty source, none from an empty one. *)
Theorem Take_pulls :
  forall {St R C T} (xf : CompletingTransformer St R C T) (n : Z) (source : list T),
    let chain := take n (Recording xf) in
    let start := xf_init chain (xf_new chain) in
    let loop := reduceWithFunction source (xf_step chain) (fst start) (snd start) in
    let run := transduce chain source (xf_new chain) in
    snd run = snd loop /\
    (1 <= n ->
       Z.of_nat (pulled source (snd run)) <= n /\
       (n <= Z.of_nat (length source) -> isReduced (fst (fst loop)) = true) /\
       (forall this result input,
          Take_i this = n - 1 ->
          isReduced (fst (Take_step (Recording xf) n this result input)) = true) /\
       (let array := take n (pushTransformer T) in
        fst (transduce array source (xf_new array)) =
          (firstn (Z.to_nat n) source,
           {| Take_i := Z.of_nat (Nat.min (Z.to_nat n) (length source));
              Take_xf := tt |}) /\
        snd (transduce array source (xf_new array)) = skipn (Z.to_nat n) source)) /\
    (n <= 0 ->
       pulled source (snd run) = Nat.min 1 (length source) /\
       existsb is_step (calls (Take_xf (snd (fst run)))) = false).
Proof.
  intros St R C T xf n source chain start loop run.
  assert (Hrun : snd run = snd loop).
  { unfold run. rewrite transduce_unfold. reflexivity. }
  split; [exact Hrun|]. split.
  - intros Hn. rewrite Hrun.
    assert (Hstart : Take_i (snd start) = 0).
    { unfold start, chain, take. simpl. unfold Take_init. simpl.
      destruct (xf_init xf (xf_new xf)); reflexivity. }
    destruct loop as [[r this'] rest] eqn:E. unfold loop in E.
    apply (Take_loop_bound (Recording xf) Hn) in E; [|rewrite Hstart; lia].
    rewrite Hstart in E. destruct E as [Hp Hr]. simpl.
    split; [lia|]. split; [intros; apply Hr; lia|]. split.
    + intros this result input Hi. apply Take_step_last; lia.
    + unfold take. rewrite transduce_unfold. simpl.
      rewrite (Take_loop_push Hn) by lia. simpl.
      rewrite Z.sub_0_r.
      destruct (Z.to_nat n <=? length source)%nat; simpl; split; reflexivity.
  - intros Hn. rewrite Hrun. unfold run. rewrite transduce_unfold.
    cbv zeta. unfold loop, start, chain, take.
    cbn [xf_step xf_init xf_result xf_new Take].
    rewrite (Take_loop_nonpositive (Recording xf)) by exact Hn.
    unfold Take_init, Take_result, Take_new. simpl.
    destruct (xf_init xf (xf_new xf)) as [acc x0]. simpl.
    destruct source as [|x rest]; simpl.
    + destruct (xf_result xf x0 acc); simpl. split; reflexivity.
    + destruct (xf_result xf x0 acc); simpl. split; [|reflexivity].
      unfold pulled. simpl. destruct (length rest); lia.
Qed.

Lemma Take_pulls_witness :
  let source := [1; 2; 3; 4; 5] in
  let run := transduce (take 2 (Recording (pushTransformer Z))) source
               (xf_new (take 2 (Recording (pushTransformer Z)))) in
  let idle := transduce (take 0 (Recording (pushTransformer Z))) source
               (xf_new (take 0 (Recording (pushTransformer Z)))) in
  Z.of_nat (pulled source (snd run)) <= 2 /\
  pulled source (snd idle) = 1%nat.
Proof.
  intros source run idle. split.
  - pose proof (Take_pulls (pushTransformer Z) 2 source) as H.
    simpl in H. destruct H as [_ [H _]]. apply H. lia.
  - pose proof (Take_pulls (pushTransformer Z) 0 source) as H.
    simpl in H. destruct H as [_ [_ H]]. apply H. lia.
Defined.

(** C1 as stated fails: [take(0)] over a non-empty source does not pull zero
    elements, the driver pulls one element before the first step can
    signal; and a chain that contains [take(n)] behind another stage pulls
    more than [n]: [filter(even)] then [take(1)] pulls three elements of
    [[1,3,2,4]]. *)
Lemma Take_zero_pulls_one :
  let chain := take 0 (pushTransformer Z) in
  let run := transduce chain [7; 8; 9] (xf_new chain) in
  let behind := filter (fun k => Z.rem k 2 =? 0) (take 1 (pushTransformer Z)) in
  let run' := transduce behind [1; 3; 2; 4] (xf_new behind) in
  snd run = [8; 9] /\
  pulled [7; 8; 9] (snd run) = 1%nat /\
  ~ (Z.of_nat (pulled [7; 8; 9] (snd run)) <= 0) /\
  snd run' = [4] /\
  ~ (Z.of_nat (pulled [1; 3; 2; 4] (snd run')) <= 1).
Proof.
  simpl. split; [reflexivity|]. split; [reflexivity|].
  split; [unfold pulled; simpl; lia|]. split; [reflexivity|].
  unfold pulled. simpl. lia.
Qed.

(* ===================================================================== *)
(** ** [PartitionAll]: groups of a fixed size *)
(* ===================================================================== *)

(** [ceil_div m n] is the least [c] with [m <= n * c]. *)
Lemma ceil_div_spec (m n : Z) :
  1 <= n -> n * (ceil_div m n - 1) < m <= n * ceil_div m n.
Proof.
  intros Hn. unfold ceil_div.
  pose proof (Z.div_mod (m + n - 1) n ltac:(lia)) as Hdm.
  pose proof (Z.mod_pos_bound (m + n - 1) n ltac:(lia)) as Hb.
  nia.
Qed.

Lemma concat_fixed_length {T} (n : Z) (groups : list (list T)) :
  Forall (fun g => Z.of_nat (length g) = n) groups ->
  Z.of_nat (length (concat groups)) = n * Z.of_nat (length groups).
Proof.
  induction 1 as [|g groups Hg _ IH]; simpl; [lia|].
  rewrite length_app. lia.
Qed.

(** The loop of [partitionAll(n)] into the array builder: the groups added
    are full, the buffer stays below [n], and nothing is lost or
    reordered. *)
Lemma PartitionAll_loop_push {T} (n : Z) :
  1 <= n ->
  forall (source : list T) groups buffer,
    Z.of_nat (length buffer) < n ->
    exists added buffer',
      reduceWithFunction source (PartitionAll_step (pushTransformer (list T)) n)
        groups {| PartitionAll_buffer := buffer; PartitionAll_xf := tt |}
      = (Plain (groups ++ added),
         {| PartitionAll_buffer := buffer'; PartitionAll_xf := tt |}, []) /\
      Z.of_nat (length buffer') < n /\
      Forall (fun g => Z.of_nat (length g) = n) added /\
      concat added ++ buffer' = buffer ++ source.
Proof.
  intros Hn. induction source as [|x source IH]; intros groups buffer Hb.
  - exists [], buffer. simpl. rewrite !app_nil_r. auto.
  - simpl reduceWithFunction. unfold PartitionAll_step at 1.
    simpl PartitionAll_buffer.
    destruct (Z.eqb_spec (Z.of_nat (length (buffer ++ [x]))) n) as [Hfull|Hnot].
    + simpl xf_step. simpl isReduced. cbv iota. simpl unreduced.
      destruct (IH (aPush groups (buffer ++ [x])) []) as (added & buffer' & E & Hb' & Hall & Hcat).
      { simpl. lia. }
      exists ((buffer ++ [x]) :: added), buffer'.
      rewrite E. unfold aPush. rewrite <- app_assoc. simpl.
      repeat split; auto.
      rewrite <- !app_assoc. simpl. simpl in Hcat. rewrite Hcat. reflexivity.
    + simpl isReduced. cbv iota. simpl unreduced. simpl PartitionAll_xf.
      rewrite length_app in Hnot. simpl in Hnot.
      destruct (IH groups (buffer ++ [x])) as (added & buffer' & E & Hb' & Hall & Hcat).
      { rewrite length_app. simpl. lia. }
      exists added, buffer'. rewrite E. repeat split; auto.
      rewrite Hcat, <- app_assoc. reflexivity.
Qed.

(** What [toArray] gives for [partitionAll(n)]: the full groups, then the
    leftover when there is one. *)
Lemma PartitionAll_toArray {T} (n : Z) (source : list T) :
  1 <= n ->
  exists full leftover,
    toArrayOf (partitionAll n) source
    = Returns (full ++ match leftover with [] => [] | _ => [leftover] end) /\
    Z.of_nat (length leftover) < n /\
    Forall (fun g => Z.of_nat (length g) = n) full /\
    concat full ++ leftover = source.
Proof.
  intros Hn. unfold partitionAll.
  destruct (Z.eqb_spec n 0); [lia|]. destruct (Z.ltb_spec n 0); [lia|].
  unfold toArrayOf, toArray. rewrite transduce_unfold.
  cbn [xf_step xf_init xf_result xf_new PartitionAll pushTransformer].
  unfold PartitionAll_init, PartitionAll_new.
  cbn [xf_init xf_new pushTransformer PartitionAll_buffer PartitionAll_xf fst snd].
  destruct (PartitionAll_loop_push Hn source [] []) as (full & leftover & E & Hb & Hall & Hcat).
  { simpl. lia. }
  change (PartitionAll_step
            {| xf_new := tt; xf_init := fun this : unit => ([], this);
               xf_result := fun (this : unit) (x : list (list T)) => (x, this);
               xf_step := fun (this : unit) (array : list (list T)) (x : list T) =>
                            (Plain (aPush array x), this) |})
    with (PartitionAll_step (pushTransformer (list T))).
  rewrite E. exists full, leftover. simpl in Hcat. repeat split; auto.
  f_equal. unfold PartitionAll_result. simpl.
  destruct leftover; simpl; [rewrite app_nil_r|]; reflexivity.
Qed.

(** The flush of [PartitionAll]'s finish: with a non-empty buffer the
    downstream sees one more step, carrying the buffer, and then its own
    finish; the buffer is empty afterwards. *)
Lemma PartitionAll_result_flush {St R C T}
    (xf : CompletingTransformer St R C (list T))
    (this : PartitionAllObj T (Recorder (list T) St)) (result : R) :
  PartitionAll_buffer this <> [] ->
  let after := snd (PartitionAll_result (Recording xf) this result) in
  PartitionAll_buffer after = [] /\
  exists done,
    calls (PartitionAll_xf after)
    = calls (PartitionAll_xf this)
      ++ [StepCall (PartitionAll_buffer this) done; ResultCall].
Proof.
  intros Hne. unfold PartitionAll_result.
  destruct (PartitionAll_buffer this) as [|b buffer] eqn:Hb; [congruence|].
  simpl. destruct (xf_step xf (recorded (PartitionAll_xf this)) result (b :: buffer))
    as [r x] eqn:Estep.
  simpl. destruct (xf_result xf x (unreduced r)) as [out x'] eqn:Eres.
  simpl. split; [reflexivity|]. exists (isReduced r).
  rewrite <- app_assoc. reflexivity.
Qed.

(** C2.  For [n >= 1] and an input of [m] elements, [partitionAll(n)] emits
    [ceil(m/n)] groups whose concatenation is the input; every group has
    between 1 and [n] elements, and every group but the last has exactly
    [n]; a non-empty leftover buffer at finish is stepped downstream before
    the downstream finish is called; [[1,2,3,4,5]] with [n = 2] gives
    [[[1,2],[3,4],[5]]]. *)
Theorem PartitionAll_groups :
  forall {T} (n : Z) (source : list T),
    1 <= n ->
    (exists out,
       toArrayOf (partitionAll n) source = Returns out /\
       concat out = source /\
       Z.of_nat (length out) = ceil_div (Z.of_nat (length source)) n /\
       (forall i g,
          nth_error out i = Some g ->
          1 <= Z.of_nat (length g) <= n /\
          ((S i < length out)%nat -> Z.of_nat (length g) = n))) /\
    (forall St R C (xf : CompletingTransformer St R C (list T))
            (this : PartitionAllObj T (Recorder (list T) St)) (result : R),
       PartitionAll_buffer this <> [] ->
       let after := snd (PartitionAll_result (Recording xf) this result) in
       PartitionAll_buffer after = [] /\
       exists done,
         calls (PartitionAll_xf after)
         = calls (PartitionAll_xf this)
           ++ [StepCall (PartitionAll_buffer this) done; ResultCall]) /\
    toArrayOf (partitionAll 2) [1; 2; 3; 4; 5] = Returns [[1; 2]; [3; 4]; [5]].
Proof.
  intros T n source Hn. split; [|split].
  - destruct (PartitionAll_toArray source Hn)
      as (full & leftover & E & Hb & Hall & Hcat).
    pose proof (concat_fixed_length Hall) as Hlen.
    assert (Hm : Z.of_nat (length source)
                 = n * Z.of_nat (length full) + Z.of_nat (length leftover)).
    { rewrite <- Hcat, length_app. lia. }
    eexists. split; [exact E|]. split; [|split].
    + rewrite concat_app, <- Hcat. f_equal.
      destruct leftover; simpl; rewrite ?app_nil_r; reflexivity.
    + rewrite length_app. unfold ceil_div. rewrite Hm.
      destruct leftover as [|b leftover].
      * simpl length.
        apply Z.div_unique with (r := n - 1); lia.
      * simpl length in *.
        apply Z.div_unique with (r := Z.of_nat (length leftover)); lia.
    + intros i g Hi.
      destruct (Nat.lt_ge_cases i (length full)) as [Hlt|Hge].
      * rewrite nth_error_app1 in Hi by exact Hlt.
        apply nth_error_In in Hi. rewrite Forall_forall in Hall.
        apply Hall in Hi. split; [lia | auto].
      * rewrite nth_error_app2 in Hi by exact Hge.
        destruct leftover as [|b leftover].
        { destruct (i - length full)%nat; discriminate. }
        destruct (i - length full)%nat as [|j] eqn:Hj.
        -- simpl in Hi. inversion Hi; subst g. simpl length in *.
           split; [lia|]. rewrite length_app. simpl. lia.
        -- simpl in Hi. destruct j; discriminate.
  - intros St R C xf this result Hne. apply PartitionAll_result_flush. exact Hne.
  - reflexivity.
Qed.

Lemma PartitionAll_groups_witness :
  exists out,
    toArrayOf (partitionAll 3) [10; 20; 30; 40; 50; 60; 70] = Returns out /\
    concat out = [10; 20; 30; 40; 50; 60; 70] /\
    Z.of_nat (length out) = 3.
Proof.
  destruct (@PartitionAll_groups Z 3 [10; 20; 30; 40; 50; 60; 70] ltac:(lia))
    as [[out [E [Hc [Hl _]]]] _].
  exists out. split; [exact E|]. split; [exact Hc|]. exact Hl.
Defined.

(* ===================================================================== *)
(** ** [PartitionBy]: groups of equal keys *)
(* ===================================================================== *)

Section GroupBySpec.
Context {T K : Type} `{StrictEq K}.
Variable f : T -> K.

Lemma groupBy_spec_cons x rest :
  groupBy_spec f (x :: rest) = join_group f [x] (groupBy_spec f rest).
Proof.
  simpl. destruct (groupBy_spec f rest) as [|[|y g] others]; reflexivity.
Qed.

Lemma join_group_head x groups :
  exists g others, join_group f [x] groups = (x :: g) :: others.
Proof.
  unfold join_group. destruct groups as [|[|y g] others]; simpl; eauto.
  destruct (strict_eq (f x) (f y)); simpl; eauto.
Qed.

(** A pending run that grows by an element of the same key. *)
Lemma join_group_same pre b x groups :
  strict_eq (f b) (f x) = true ->
  join_group f ((pre ++ [b]) ++ [x]) groups
  = join_group f (pre ++ [b]) (join_group f [x] groups).
Proof.
  intros Hsame. unfold join_group at 1 3.
  destruct groups as [|[|y g] others]; simpl.
  - rewrite last_last, Hsame. reflexivity.
  - rewrite last_last, Hsame. reflexivity.
  - rewrite !last_last. destruct (strict_eq (f x) (f y)); simpl.
    + rewrite last_last, Hsame, <- !app_assoc. reflexivity.
    + rewrite last_last, Hsame. reflexivity.
Qed.

(** A pending run followed by an element of another key. *)
Lemma join_group_change pre b x groups :
  strict_eq (f b) (f x) = false ->
  (pre ++ [b]) :: join_group f [x] groups
  = join_group f (pre ++ [b]) (join_group f [x] groups).
Proof.
  intros Hchange. destruct (join_group_head x groups) as (g & others & E).
  rewrite E. simpl. rewrite last_last, Hchange. reflexivity.
Qed.

(** The groups of the specification are non-empty, in the order of the
    input, constant in key, and separated by key changes. *)
Lemma groupBy_spec_sound (l : list T) :
  Forall (fun g => g <> []) (groupBy_spec f l) /\
  concat (groupBy_spec f l) = l /\
  Forall (neighbours (fun a b => strict_eq (f a) (f b) = true)) (groupBy_spec f l) /\
  neighbours (key_changes f) (groupBy_spec f l).
Proof.
  induction l as [|x rest IH]; simpl.
  - repeat split; constructor.
  - destruct IH as (Hne & Hcat & Hin & Hout).
    destruct (groupBy_spec f rest) as [|[|y g] others].
    + simpl in Hcat. subst rest.
      split; [constructor; [discriminate | constructor]|].
      split; [reflexivity|].
      split; [constructor; [exact I | constructor] | exact I].
    + pose proof (Forall_inv Hne) as Hbad. congruence.
    + destruct (strict_eq (f x) (f y)) eqn:Hxy.
      * pose proof (Forall_inv_tail Hne) as Hne'.
        pose proof (Forall_inv Hin) as Hy. pose proof (Forall_inv_tail Hin) as Hin'.
        split; [constructor; [discriminate | assumption]|].
        split; [simpl; simpl in Hcat; rewrite Hcat; reflexivity|].
        split; [constructor; [simpl; split; assumption | assumption]|].
        destruct others as [|g2 others']; [exact I|].
        simpl in Hout. simpl. exact Hout.
      * split; [constructor; [discriminate | assumption]|].
        split; [simpl; simpl in Hcat; rewrite Hcat; reflexivity|].
        split; [constructor; [exact I | assumption]|].
        simpl. split; [exact Hxy | exact Hout].
Qed.
End GroupBySpec.

Section PartitionByFacts.
Context {St TResult TCompleteResult TInput K : Type} `{StrictEq K}.
Variable xf : CompletingTransformer St TResult TCompleteResult (list TInput).
Variable f : TInput -> K.

(** No previous key, or a key [===] to the previous one: the input joins
    the buffer and the downstream is not called. *)
Lemma PartitionBy_step_join this (result : PartitionByState TResult TInput K) input :
  PartitionBy_sameGroup (PartitionBy_lastKey result) (f input) = true ->
  PartitionBy_step xf f this result input
  = (Plain {| PartitionBy_value := PartitionBy_value result;
              PartitionBy_buffer := PartitionBy_buffer result ++ [input];
              PartitionBy_lastKey := Known (f input) |}, this).
Proof.
  intros Hsame. unfold PartitionBy_step. rewrite Hsame. reflexivity.
Qed.

(** A key change: the buffer is stepped downstream, then the input starts
    a new buffer, whether or not the downstream answered signaled. *)
Lemma PartitionBy_step_flush this (result : PartitionByState TResult TInput K) input :
  PartitionBy_sameGroup (PartitionBy_lastKey result) (f input) = false ->
  let down := xf_step xf this (PartitionBy_value result) (PartitionBy_buffer result) in
  let answer := PartitionBy_step xf f this result input in
  snd answer = snd down /\
  isReduced (fst answer) = isReduced (fst down) /\
  unreduced (fst answer)
  = {| PartitionBy_value := unreduced (fst down);
       PartitionBy_buffer := [input];
       PartitionBy_lastKey := Known (f input) |}.
Proof.
  intros Hchange. unfold PartitionBy_step. rewrite Hchange.
  destruct (xf_step xf this (PartitionBy_value result) (PartitionBy_buffer result))
    as [r x].
  simpl. destruct r; simpl; auto.
Qed.

(** Finish with a non-empty buffer: one downstream step carrying the
    buffer, then the downstream finish on its unwrapped answer. *)
Lemma PartitionBy_result_flush this (result : PartitionByState TResult TInput K) :
  PartitionBy_buffer result <> [] ->
  let down := xf_step xf this (PartitionBy_value result) (PartitionBy_buffer result) in
  PartitionBy_result xf this result
  = xf_result xf (snd down) (unreduced (fst down)).
Proof.
  intros Hne. unfold PartitionBy_result.
  destruct (PartitionBy_buffer result) as [|b buffer] eqn:Hb; [congruence|].
  simpl. destruct (xf_step xf this (PartitionBy_value result) (b :: buffer)) as [r x].
  reflexivity.
Qed.

(** Finish with an empty buffer delegates at once. *)
Lemma PartitionBy_result_empty this (result : PartitionByState TResult TInput K) :
  PartitionBy_buffer result = [] ->
  PartitionBy_result xf this result = xf_result xf this (PartitionBy_value result).
Proof.
  intros Hb. unfold PartitionBy_result. rewrite Hb. reflexivity.
Qed.
End PartitionByFacts.

(** The loop of [partitionBy(f)] into the array builder, started with a
    pending run [pre ++ [b]]: after finish, the array holds the groups
    emitted so far followed by the groups of the pending run and the rest of
    the source. *)
Lemma PartitionBy_loop_push {T K} `{StrictEq K} (f : T -> K) :
  forall (source : list T) groups pre b,
    exists final,
      reduceWithFunction source (PartitionBy_step (pushTransformer (list T)) f)
        {| PartitionBy_value := groups;
           PartitionBy_buffer := pre ++ [b];
           PartitionBy_lastKey := Known (f b) |} tt
      = (Plain final, tt, []) /\
      fst (PartitionBy_result (pushTransformer (list T)) tt final)
      = groups ++ join_group f (pre ++ [b]) (groupBy_spec f source).
Proof.
  induction source as [|x source IH]; intros groups pre b.
  - eexists. split; [reflexivity|].
    rewrite PartitionBy_result_flush by (simpl; destruct pre; discriminate).
    reflexivity.
  - simpl reduceWithFunction.
    destruct (strict_eq (f b) (f x)) eqn:Hbx.
    + rewrite PartitionBy_step_join by exact Hbx.
      simpl isReduced. cbv iota. simpl unreduced.
      cbn [PartitionBy_value PartitionBy_buffer].
      destruct (IH groups (pre ++ [b]) x) as (final & E & Hfinal).
      exists final. split; [exact E|].
      rewrite Hfinal, (groupBy_spec_cons f x source), join_group_same by exact Hbx.
      reflexivity.
    + pose proof (PartitionBy_step_flush (pushTransformer (list T)) f tt
                    {| PartitionBy_value := groups;
                       PartitionBy_buffer := pre ++ [b];
                       PartitionBy_lastKey := Known (f b) |} x Hbx) as Hflush.
      cbv zeta in Hflush.
      destruct (PartitionBy_step (pushTransformer (list T)) f tt _ x) as [r u].
      simpl in Hflush. destruct Hflush as (Hu & Hr & Hval). rewrite Hr.
      rewrite Hval. destruct u.
      destruct (IH (aPush groups (pre ++ [b])) [] x) as (final & E & Hfinal).
      exists final. split; [exact E|].
      rewrite Hfinal, (groupBy_spec_cons f x source). unfold aPush.
      rewrite <- app_assoc. simpl app at 2.
      rewrite (join_group_change f pre) by exact Hbx. reflexivity.
Qed.

(** [toArray] of [partitionBy(f)] is the grouping of the specification. *)
Lemma PartitionBy_toArray {T K} `{StrictEq K} (f : T -> K) (source : list T) :
  toArray (partitionBy f) source = groupBy_spec f source.
Proof.
  unfold toArray, partitionBy. rewrite transduce_unfold.
  cbn [xf_step xf_init xf_result xf_new PartitionBy].
  destruct source as [|x source]; [reflexivity|].
  simpl reduceWithFunction.
  unfold PartitionBy_init. cbn [xf_init xf_new pushTransformer fst snd].
  unfold PartitionBy_push, PartitionBy_set_buffer.
  cbn [PartitionBy_value PartitionBy_buffer PartitionBy_lastKey].
  destruct (PartitionBy_loop_push f source [] [] x) as (final & E & Hfinal).
  rewrite E. cbn [fst snd unreduced].
  rewrite Hfinal. rewrite groupBy_spec_cons. reflexivity.
Qed.

(** C4.  [partitionBy(f)] groups consecutive elements whose keys are [===]:
    into the array builder it gives the grouping of the specification, whose
    groups are non-empty, concatenate to the input, are constant in key and
    are separated by key changes.  At each step, over any downstream: when
    there is no previous key or the key is [===] to the previous one the
    input joins the buffer and the downstream is not called; on a key change
    the buffer is stepped downstream first and the input starts a new
    buffer.  The first element never flushes.  A non-empty buffer at finish
    is stepped downstream before the downstream finish.  The test case
    holds. *)
Theorem PartitionBy_groups :
  forall {T K} `{StrictEq K} (f : T -> K) (source : list T),
    let out := toArray (partitionBy f) source in
    (out = groupBy_spec f source /\
     concat out = source /\
     Forall (fun g => g <> []) out /\
     Forall (neighbours (fun a b => strict_eq (f a) (f b) = true)) out /\
     neighbours (key_changes f) out) /\
    (forall St R C (xf : CompletingTransformer St R C (list T))
            (this : Recorder (list T) St) (result : PartitionByState R T K) input,
       let answer := PartitionBy_step (Recording xf) f this result input in
       (PartitionBy_sameGroup (PartitionBy_lastKey result) (f input) = true ->
          snd answer = this /\
          fst answer = Plain {| PartitionBy_value := PartitionBy_value result;
                                PartitionBy_buffer := PartitionBy_buffer result ++ [input];
                                PartitionBy_lastKey := Known (f input) |}) /\
       (PartitionBy_sameGroup (PartitionBy_lastKey result) (f input) = false ->
          PartitionBy_buffer (unreduced (fst answer)) = [input] /\
          PartitionBy_lastKey (unreduced (fst answer)) = Known (f input) /\
          exists done,
            calls (snd answer) = calls this ++ [StepCall (PartitionBy_buffer result) done])) /\
    (forall St R C (xf : CompletingTransformer St R C (list T))
            (this : Recorder (list T) St) input,
       let start := PartitionBy_init (K := K) (Recording xf) this in
       let answer := PartitionBy_step (Recording xf) f (snd start) (fst start) input in
       snd answer = snd start /\
       PartitionBy_buffer (unreduced (fst answer)) = [input]) /\
    (forall St R C (xf : CompletingTransformer St R C (list T))
            (this : Recorder (list T) St) (result : PartitionByState R T K),
       PartitionBy_buffer result <> [] ->
       exists done,
         calls (snd (PartitionBy_result (Recording xf) this result))
         = calls this ++ [StepCall (PartitionBy_buffer result) done; ResultCall]) /\
    toArray (partitionBy String.length) ["a"; "b"; "cc"; "dd"; "e"]%string
    = [["a"; "b"]; ["cc"; "dd"]; ["e"]]%string.
Proof.
  intros T K HK f source out.
  split; [|split; [|split; [|split]]].
  - unfold out. rewrite PartitionBy_toArray.
    destruct (groupBy_spec_sound f source) as (Hne & Hcat & Hin & Hout).
    auto.
  - intros St R C xf this result input answer. split.
    + intros Hsame. unfold answer.
      rewrite PartitionBy_step_join by exact Hsame. split; reflexivity.
    + intros Hchange.
      destruct (PartitionBy_step_flush (Recording xf) f this result input Hchange)
        as (Hthis & _ & Hval).
      fold answer in Hthis, Hval. rewrite Hval, Hthis.
      split; [reflexivity|]. split; [reflexivity|].
      simpl. destruct (xf_step xf (recorded this) (PartitionBy_value result)
                         (PartitionBy_buffer result)) as [r x].
      simpl. eexists. reflexivity.
  - intros St R C xf this input start answer. unfold answer.
    rewrite PartitionBy_step_join.
    + split; [reflexivity|]. unfold start, PartitionBy_init. simpl.
      destruct (xf_init xf (recorded this)); reflexivity.
    + unfold start, PartitionBy_init. simpl.
      destruct (xf_init xf (recorded this)); reflexivity.
  - intros St R C xf this result Hne.
    rewrite PartitionBy_result_flush by exact Hne. simpl.
    destruct (xf_step xf (recorded this) (PartitionBy_value result)
                (PartitionBy_buffer result)) as [r x].
    simpl. destruct (xf_result xf x (unreduced r)) as [c x'].
    simpl. rewrite <- app_assoc. eexists. reflexivity.
  - reflexivity.
Qed.

Lemma PartitionBy_groups_witness :
  let xf := Recording (pushTransformer (list Z)) in
  let this := {| calls := [InitCall]; recorded := tt |} in
  let result := {| PartitionBy_value := [];
                   PartitionBy_buffer := [1; 1];
                   PartitionBy_lastKey := Known 1 |} in
  PartitionBy_buffer (unreduced (fst (PartitionBy_step xf (fun z => z) this result 2)))
  = [2] /\
  snd (PartitionBy_step xf (fun z => z) this result 1) = this /\
  exists done,
    calls (snd (PartitionBy_result xf this result))
    = [InitCall] ++ [StepCall [1; 1] done; ResultCall].
Proof.
  intros xf this result.
  destruct (@PartitionBy_groups Z Z _ (fun z => z) [])
    as (_ & Hstep & _ & Hfinish & _).
  split; [|split].
  - destruct (Hstep unit (list (list Z)) (list (list Z)) (pushTransformer (list Z))
                this result 2) as [_ Hchange].
    destruct (Hchange eq_refl) as (E & _). exact E.
  - destruct (Hstep unit (list (list Z)) (list (list Z)) (pushTransformer (list Z))
                this result 1) as [Hsame _].
    destruct (Hsame eq_refl) as [E _]. exact E.
  - apply (Hfinish unit (list (list Z)) (list (list Z)) (pushTransformer (list Z))
             this result).
    discriminate.
Defined.

(* ===================================================================== *)
(** ** [partitionAll] and [takeNth]: configuration errors *)
(* ===================================================================== *)

(** C5.  [partitionAll(n)] and [takeNth(n)] throw when [n] is zero or
    negative: the factory call itself is the throw, with no downstream
    given and no source in sight, so nothing is driven.  For [n >= 1] the
    factory returns the stage constructor and driving the chain returns. *)
Theorem factories_fail_fast :
  forall (n : Z),
    (n = 0 ->
       (forall St R C T,
          @partitionAll St R C T n = Throw "Size in partitionAll() cannot be 0") /\
       (forall St R C T,
          @takeNth St R C T n = Throw "Step in takeNth() cannot be 0")) /\
    (n < 0 ->
       (forall St R C T,
          @partitionAll St R C T n = Throw "Size in partitionAll() cannot be negative") /\
       (forall St R C T,
          @takeNth St R C T n = Throw "Step in takeNth() cannot be negative")) /\
    (n <= 0 ->
       forall T (source : list T),
         (exists message, toArrayOf (partitionAll n) source = Throw message) /\
         (exists message, toArrayOf (takeNth n) source = Throw message)) /\
    (1 <= n ->
       (forall St R C T,
          @partitionAll St R C T n = Returns (fun xf => PartitionAll xf n)) /\
       (forall St R C T,
          @takeNth St R C T n = Returns (fun xf => TakeNth xf n)) /\
       (forall T (source : list T),
          (exists out, toArrayOf (partitionAll n) source = Returns out) /\
          (exists out, toArrayOf (takeNth n) source = Returns out))).
Proof.
  intros n. split; [|split; [|split]].
  - intros ->. split; reflexivity.
  - intros Hn. unfold partitionAll, takeNth.
    destruct (Z.eqb_spec n 0); [lia|]. destruct (Z.ltb_spec n 0); [|lia].
    split; reflexivity.
  - intros Hn T source. unfold partitionAll, takeNth.
    destruct (Z.eqb_spec n 0); [simpl; eauto|].
    destruct (Z.ltb_spec n 0); [simpl; eauto | lia].
  - intros Hn. unfold partitionAll, takeNth.
    destruct (Z.eqb_spec n 0); [lia|]. destruct (Z.ltb_spec n 0); [lia|].
    split; [reflexivity|]. split; [reflexivity|].
    intros T source. simpl. eauto.
Qed.

Lemma factories_fail_fast_witness :
  (exists message, toArrayOf (partitionAll (-3)) [1; 2] = Throw message) /\
  @takeNth unit (list Z) (list Z) Z 0 = Throw "Step in takeNth() cannot be 0" /\
  (exists out, toArrayOf (takeNth 2) [1; 2; 3] = Returns out).
Proof.
  split; [|split].
  - destruct (factories_fail_fast (-3)) as (_ & _ & H & _).
    destruct (H ltac:(lia) Z [1; 2]) as [Hp _]. exact Hp.
  - destruct (factories_fail_fast 0) as (H & _).
    destruct (H eq_refl) as [_ Ht]. apply Ht.
  - destruct (factories_fail_fast 2) as (_ & _ & _ & H).
    destruct (H ltac:(lia)) as (_ & _ & Hrun).
    destruct (Hrun Z [1; 2; 3]) as [_ Ht]. exact Ht.
Defined.

(* ===================================================================== *)
(** ** [Interpose] *)
(* ===================================================================== *)

(** The loop of [interpose(sep)] into the array builder once the first
    element has gone through. *)
Lemma Interpose_loop_push {T} (sep : T) :
  forall (source : list T) acc,
    reduceWithFunction source (Interpose_step (pushTransformer T) sep) acc
      {| Interpose_isStarted := true; Interpose_xf := tt |}
    = (Plain (acc ++ flat_map (fun y => [sep; y]) source),
       {| Interpose_isStarted := true; Interpose_xf := tt |}, []).
Proof.
  induction source as [|x source IH]; intros acc; simpl.
  - rewrite app_nil_r. reflexivity.
  - rewrite IH. unfold aPush. rewrite <- !app_assoc. reflexivity.
Qed.

Lemma Interpose_toArray {T} (sep : T) (source : list T) :
  toArray (interpose sep) source = interpose_spec sep source.
Proof.
  unfold toArray, interpose. rewrite transduce_unfold.
  destruct source as [|x source]; [reflexivity|].
  simpl. rewrite Interpose_loop_push. reflexivity.
Qed.

(** C6.  [interpose(sep)] passes [sep] downstream before every input except
    the first: into the array builder it gives the interposed list, so
    [[1,2,3]] with separator 0 gives [[1,0,2,0,3]] and an empty or
    one-element input gives no separator.  When the downstream answers the
    separator with a signaled result, the step returns that result and the
    downstream has seen the separator only, not the input.  Otherwise the
    downstream sees the input alone on the first step, and the separator
    followed by the input on every later one. *)
Theorem Interpose_separates :
  forall {T} (sep : T) (source : list T),
    toArray (interpose sep) source = interpose_spec sep source /\
    toArray (interpose sep) [] = [] /\
    (forall x, toArray (interpose sep) [x] = [x]) /\
    toArray (interpose 0) [1; 2; 3] = [1; 0; 2; 0; 3] /\
    (forall St R C (xf : CompletingTransformer St R C T)
            (this : InterposeObj (Recorder T St)) (result : R) (input : T),
       Interpose_isStarted this = true ->
       let withSeparator := xf_step xf (recorded (Interpose_xf this)) result sep in
       isReduced (fst withSeparator) = true ->
       let answer := Interpose_step (Recording xf) sep this result input in
       fst answer = fst withSeparator /\
       calls (Interpose_xf (snd answer))
       = calls (Interpose_xf this) ++ [StepCall sep true]) /\
    (forall St R C (xf : CompletingTransformer St R C T)
            (this : InterposeObj (Recorder T St)) (result : R) (input : T),
       let answer := Interpose_step (Recording xf) sep this result input in
       (Interpose_isStarted this = false ->
          exists done,
            calls (Interpose_xf (snd answer))
            = calls (Interpose_xf this) ++ [StepCall input done]) /\
       (Interpose_isStarted this = true ->
          isReduced (fst (xf_step xf (recorded (Interpose_xf this)) result sep)) = false ->
          exists done,
            calls (Interpose_xf (snd answer))
            = calls (Interpose_xf this) ++ [StepCall sep false; StepCall input done])).
Proof.
  intros T sep source.
  split; [apply Interpose_toArray|].
  split; [reflexivity|]. split; [reflexivity|]. split; [reflexivity|].
  split.
  - intros St R C xf this result input Hstarted withSeparator Hdone answer.
    unfold answer, Interpose_step. rewrite Hstarted. simpl.
    fold withSeparator. destruct withSeparator as [r x]. simpl in *.
    rewrite Hdone. simpl. split; reflexivity.
  - intros St R C xf this result input answer. unfold answer, Interpose_step.
    split.
    + intros Hfresh. rewrite Hfresh. simpl.
      destruct (xf_step xf (recorded (Interpose_xf this)) result input) as [r x].
      simpl. eexists. reflexivity.
    + intros Hstarted Hplain. rewrite Hstarted. simpl.
      destruct (xf_step xf (recorded (Interpose_xf this)) result sep) as [r x].
      simpl in *. rewrite Hplain. simpl.
      destruct (xf_step xf x (unreduced r) input) as [r' x'].
      simpl. rewrite <- app_assoc. eexists. reflexivity.
Qed.

Lemma Interpose_separates_witness :
  let xf := take 1 (pushTransformer Z) in
  let this := {| Interpose_isStarted := true;
                 Interpose_xf := {| calls := []; recorded := xf_new xf |} |} in
  let answer := Interpose_step (Recording xf) 0 this [] 5 in
  fst answer = Reduced [0] /\
  calls (Interpose_xf (snd answer)) = [StepCall 0 true].
Proof.
  intros xf this answer.
  destruct (Interpose_separates 0 [1; 2; 3]) as (_ & _ & _ & _ & H & _).
  apply (H _ _ _ xf this [] 5); reflexivity.
Defined.

(* ===================================================================== *)
(** ** [Dedupe] *)
(* ===================================================================== *)

(** Two values that are [===] compare alike with any third. *)
Lemma strict_eq_congr {T} `{StrictEq T} (x a b : T) :
  strict_eq a b = true -> strict_eq x a = strict_eq x b.
Proof.
  intros Hab.
  destruct (strict_eq x a) eqn:Hxa, (strict_eq x b) eqn:Hxb; try reflexivity.
  - rewrite (strict_eq_trans x a b Hxa Hab) in Hxb. discriminate.
  - rewrite strict_eq_sym in Hab.
    rewrite (strict_eq_trans x b a Hxb Hab) in Hxa. discriminate.
Qed.

(** The loop of [dedupe()] into the array builder.  [last] holds the last
    element that went through, [prev] is the input just before: they are the
    same value or [===]. *)
Lemma Dedupe_loop_push {T} `{StrictEq T} :
  forall (source : list T) acc (last prev : T),
    last = prev \/ strict_eq prev last = true ->
    exists last',
      reduceWithFunction source (Dedupe_step (pushTransformer T))
        {| Dedupe_last := Known last; Dedupe_value := acc |} tt
      = (Plain {| Dedupe_last := Known last';
                  Dedupe_value := acc ++ dedupe_after prev source |}, tt, []).
Proof.
  induction source as [|x source IH]; intros acc last prev Hlast.
  - exists last. simpl. rewrite app_nil_r. reflexivity.
  - assert (Hcmp : strict_eq x last = strict_eq x prev).
    { destruct Hlast as [->|Hlast]; [reflexivity|].
      symmetry. apply strict_eq_congr. exact Hlast. }
    simpl reduceWithFunction. unfold Dedupe_step at 1. simpl Dedupe_differs.
    simpl dedupe_after. rewrite <- Hcmp.
    destruct (strict_eq x last) eqn:Hx; simpl.
    + apply IH. right. exact Hx.
    + destruct (IH (aPush acc x) x x (or_introl eq_refl)) as [last' E].
      exists last'. rewrite E. unfold aPush. rewrite <- app_assoc. reflexivity.
Qed.

Lemma Dedupe_toArray {T} `{StrictEq T} (source : list T) :
  toArray dedupe source = dedupe_spec source.
Proof.
  unfold toArray, dedupe. rewrite transduce_unfold.
  destruct source as [|x source]; [reflexivity|].
  simpl.
  destruct (Dedupe_loop_push source (aPush [] x) (or_introl (eq_refl x))) as [last' E].
  rewrite E. reflexivity.
Qed.

(** C7.  [dedupe()] passes an element downstream if and only if it is not
    [===] to the input immediately before it: into the array builder it
    gives the list of the specification.  At each step, over any downstream:
    an input that is not [===] to the recorded last value is stepped
    downstream and recorded as the new last value; an input that is [===]
    to it is not, and nothing changes.  The comparison with the marker that
    init stores never finds equality, so the first element always passes.
    The two examples hold. *)
Theorem Dedupe_consecutive :
  forall {T} `{StrictEq T} (source : list T),
    toArray dedupe source = dedupe_spec source /\
    (forall St R C (xf : CompletingTransformer St R C T)
            (this : Recorder T St) (result : DedupeState T R) (input : T),
       let answer := Dedupe_step (Recording xf) this result input in
       (Dedupe_differs input (Dedupe_last result) = true ->
          Dedupe_last (unreduced (fst answer)) = Known input /\
          exists done, calls (snd answer) = calls this ++ [StepCall input done]) /\
       (Dedupe_differs input (Dedupe_last result) = false ->
          answer = (Plain result, this))) /\
    (forall input : T, Dedupe_differs input INITIAL = true) /\
    (forall St R C (xf : CompletingTransformer St R C T) (this : Recorder T St)
            (input : T),
       let start := Dedupe_init (TInput := T) (Recording xf) this in
       let answer := Dedupe_step (Recording xf) (snd start) (fst start) input in
       exists done, calls (snd answer) = calls (snd start) ++ [StepCall input done]) /\
    toArray dedupe [1; 2; 2; 3; 3; 3] = [1; 2; 3] /\
    toArray dedupe [1; 2; 1] = [1; 2; 1].
Proof.
  intros T HT source.
  split; [apply Dedupe_toArray|].
  split; [|split; [reflexivity|split; [|split; reflexivity]]].
  - intros St R C xf this result input answer. unfold answer, Dedupe_step. split.
    + intros Hd. rewrite Hd. simpl.
      destruct (xf_step xf (recorded this) (Dedupe_value result) input) as [r x].
      simpl. rewrite unreduced_updateValue. simpl.
      split; [reflexivity | eexists; reflexivity].
    + intros Hd. rewrite Hd. reflexivity.
  - intros St R C xf this input start answer.
    unfold answer, start, Dedupe_init, Dedupe_step. simpl.
    destruct (xf_init xf (recorded this)) as [acc x0]. simpl.
    destruct (xf_step xf x0 acc input) as [r x]. simpl.
    eexists. reflexivity.
Qed.

Lemma Dedupe_consecutive_witness :
  let xf := Recording (pushTransformer Z) in
  let this := {| calls := []; recorded := tt |} in
  let result := {| Dedupe_last := Known 2; Dedupe_value := [1; 2] |} in
  Dedupe_step xf this result 2 = (Plain result, this) /\
  Dedupe_last (unreduced (fst (Dedupe_step xf this result 3))) = Known 3.
Proof.
  intros xf this result.
  destruct (@Dedupe_consecutive Z _ []) as (_ & Hstep & _).
  split.
  - destruct (Hstep unit (list Z) (list Z) (pushTransformer Z) this result 2)
      as [_ Hsame].
    apply Hsame. reflexivity.
  - destruct (Hstep unit (list Z) (list Z) (pushTransformer Z) this result 3)
      as [Hdiff _].
    destruct (Hdiff eq_refl) as [E _]. exact E.
Defined.

(* ===================================================================== *)
(** ** [TakeWhile] and [DropWhile] *)
(* ===================================================================== *)

(** [first_failing] is the first index at which the predicate fails. *)
Lemma first_failing_spec {T} (pred : T -> bool) (l : list T) :
  (first_failing pred l <= length l)%nat /\
  (forall i x, (i < first_failing pred l)%nat -> nth_error l i = Some x -> pred x = true) /\
  (forall x, nth_error l (first_failing pred l) = Some x -> pred x = false).
Proof.
  induction l as [|y l (Hlen & Hbefore & Hat)]; simpl.
  - split; [lia|]. split; [intros i x Hi; lia|]. intros x Hx. discriminate.
  - destruct (pred y) eqn:Hy.
    + split; [lia|]. split.
      * intros [|i] x Hi Hx; simpl in Hx.
        -- inversion Hx; subst. exact Hy.
        -- apply (Hbefore i); [lia | exact Hx].
      * intros x Hx. simpl in Hx. apply Hat. exact Hx.
    + split; [lia|]. split; [intros i x Hi; lia|].
      intros x Hx. simpl in Hx. inversion Hx; subst. exact Hy.
Qed.

(** The loop of [takeWhile(pred)] into the array builder. *)
Lemma TakeWhile_loop_push {T} (pred : T -> bool) :
  forall (source : list T) acc,
    unreduced (fst (fst (reduceWithFunction source
                           (TakeWhile_step (pushTransformer T) pred) acc tt)))
    = acc ++ firstn (first_failing pred source) source.
Proof.
  induction source as [|x source IH]; intros acc; simpl.
  - rewrite app_nil_r. reflexivity.
  - unfold TakeWhile_step at 1. destruct (pred x); simpl.
    + rewrite IH. unfold aPush. rewrite <- app_assoc. reflexivity.
    + rewrite app_nil_r. reflexivity.
Qed.

(** The loop of [dropWhile(pred)] into the array builder, once dropping is
    over: everything goes through. *)
Lemma DropWhile_loop_done {T} (pred : T -> bool) :
  forall (source : list T) acc,
    reduceWithFunction source (DropWhile_step (pushTransformer T) pred)
      {| DropWhile_value := acc; DropWhile_isDoneDropping := true |} tt
    = (Plain {| DropWhile_value := acc ++ source; DropWhile_isDoneDropping := true |},
       tt, []).
Proof.
  induction source as [|x source IH]; intros acc; simpl.
  - rewrite app_nil_r. reflexivity.
  - rewrite IH. unfold aPush. rewrite <- app_assoc. reflexivity.
Qed.

(** The same loop while still dropping. *)
Lemma DropWhile_loop_push {T} (pred : T -> bool) :
  forall (source : list T) acc,
    DropWhile_value
      (unreduced (fst (fst (reduceWithFunction source
                              (DropWhile_step (pushTransformer T) pred)
                              {| DropWhile_value := acc;
                                 DropWhile_isDoneDropping := false |} tt))))
    = acc ++ skipn (first_failing pred source) source.
Proof.
  induction source as [|x source IH]; intros acc; simpl.
  - rewrite app_nil_r. reflexivity.
  - unfold DropWhile_step at 1. simpl. destruct (pred x); simpl.
    + apply IH.
    + rewrite DropWhile_loop_done. simpl. unfold aPush.
      rewrite <- app_assoc. reflexivity.
Qed.

(** C8.  With [k] the first index at which [pred] fails (the length of the
    input when it never fails), [takeWhile(pred)] gives the elements before
    index [k] and [dropWhile(pred)] gives the elements from index [k] on, so
    the first output followed by the second is the input.  The element on
    which [takeWhile] stops is not stepped downstream; the element on which
    [dropWhile] stops dropping is. *)
Theorem TakeWhile_DropWhile_partition :
  forall {T} (pred : T -> bool) (source : list T),
    let k := first_failing pred source in
    toArray (takeWhile pred) source ++ toArray (dropWhile pred) source = source /\
    toArray (takeWhile pred) source = firstn k source /\
    toArray (dropWhile pred) source = skipn k source /\
    (k <= length source)%nat /\
    (forall i x, (i < k)%nat -> nth_error source i = Some x -> pred x = true) /\
    (forall x, nth_error source k = Some x -> pred x = false) /\
    (forall St R C (xf : CompletingTransformer St R C T) (this : Recorder T St)
            (result : R) (input : T),
       pred input = false ->
       TakeWhile_step (Recording xf) pred this result input = (Reduced result, this)) /\
    (forall St R C (xf : CompletingTransformer St R C T) (this : Recorder T St)
            (result : DropWhileState R) (input : T),
       DropWhile_isDoneDropping result = false ->
       let answer := DropWhile_step (Recording xf) pred this result input in
       (pred input = true -> answer = (Plain result, this)) /\
       (pred input = false ->
          DropWhile_isDoneDropping (unreduced (fst answer)) = true /\
          exists done, calls (snd answer) = calls this ++ [StepCall input done])).
Proof.
  intros T pred source k.
  assert (Htake : toArray (takeWhile pred) source = firstn k source).
  { unfold toArray, takeWhile. rewrite transduce_unfold. simpl.
    apply (TakeWhile_loop_push pred source []). }
  assert (Hdrop : toArray (dropWhile pred) source = skipn k source).
  { unfold toArray, dropWhile. rewrite transduce_unfold. simpl.
    apply (DropWhile_loop_push pred source []). }
  destruct (first_failing_spec pred source) as (Hlen & Hbefore & Hat).
  split; [rewrite Htake, Hdrop; apply firstn_skipn|].
  split; [exact Htake|]. split; [exact Hdrop|]. split; [exact Hlen|].
  split; [exact Hbefore|]. split; [exact Hat|]. split.
  - intros St R C xf this result input Hp. unfold TakeWhile_step.
    rewrite Hp. reflexivity.
  - intros St R C xf this result input Hnot answer.
    unfold answer, DropWhile_step. rewrite Hnot. split.
    + intros Hp. rewrite Hp. reflexivity.
    + intros Hp. rewrite Hp. simpl.
      destruct (xf_step xf (recorded this) (DropWhile_value result) input) as [r x].
      simpl. rewrite unreduced_updateValue. simpl.
      split; [reflexivity | eexists; reflexivity].
Qed.

Lemma TakeWhile_DropWhile_partition_witness :
  (fun n => n <? 3) 3 = false /\ (fun n => n <? 3) 2 = true.
Proof.
  destruct (TakeWhile_DropWhile_partition (fun n => n <? 3) [1; 2; 3; 1; 5])
    as (_ & _ & _ & _ & Hbefore & Hat & _).
  split.
  - apply (Hat 3). reflexivity.
  - apply (Hbefore 1%nat 2); [simpl; lia | reflexivity].
Defined.

(* ===================================================================== *)
(** ** Fields of the instance and the accumulator *)
(* ===================================================================== *)

Section DropFacts.
Context {St TResult TCompleteResult TInput : Type}.
Variable xf : CompletingTransformer St TResult TCompleteResult TInput.
Variable n : Z.

Lemma Drop_init_frame (this : DropObj St) :
  fst (Drop_init xf this) = fst (xf_init xf (Drop_xf this)) /\
  Drop_i (snd (Drop_init xf this)) = Drop_i this.
Proof.
  unfold Drop_init. destruct (xf_init xf (Drop_xf this)); split; reflexivity.
Qed.

Lemma Drop_result_frame (this : DropObj St) result :
  Drop_i (snd (Drop_result xf this result)) = Drop_i this.
Proof.
  unfold Drop_result. destruct (xf_result xf (Drop_xf this) result); reflexivity.
Qed.

Lemma Drop_step_counts (this : DropObj St) result input :
  Drop_i (snd (Drop_step xf n this result input)) = Drop_i this + 1.
Proof.
  unfold Drop_step. destruct (Drop_i this <? n); [reflexivity|].
  destruct (xf_step xf (Drop_xf this) result input); reflexivity.
Qed.

(** Every step of the loop counts: the counter never goes back, and it
    moves when the source has an element. *)
Lemma Drop_loop_counts :
  forall source acc (this : DropObj St),
    let this' := snd (fst (reduceWithFunction source (Drop_step xf n) acc this)) in
    Drop_i this <= Drop_i this' /\ (source <> [] -> Drop_i this < Drop_i this').
Proof.
  induction source as [|x source IH]; intros acc this; simpl.
  - split; [lia | congruence].
  - pose proof (Drop_step_counts this acc x) as Hstep.
    destruct (Drop_step xf n this acc x) as [next this1]. simpl in Hstep.
    destruct (isReduced next); simpl.
    + split; [lia | intros _; lia].
    + destruct (IH (unreduced next) this1) as [Hle _].
      split; [lia | intros _; lia].
Qed.
End DropFacts.

Section InterposeFacts.
Context {St TResult TCompleteResult TInput : Type}.
Variable xf : CompletingTransformer St TResult TCompleteResult TInput.
Variable separator : TInput.

Lemma Interpose_init_frame (this : InterposeObj St) :
  fst (Interpose_init xf this) = fst (xf_init xf (Interpose_xf this)) /\
  Interpose_isStarted (snd (Interpose_init xf this)) = Interpose_isStarted this.
Proof.
  unfold Interpose_init. destruct (xf_init xf (Interpose_xf this)); split; reflexivity.
Qed.

Lemma Interpose_result_frame (this : InterposeObj St) result :
  Interpose_isStarted (snd (Interpose_result xf this result)) = Interpose_isStarted this.
Proof.
  unfold Interpose_result.
  destruct (xf_result xf (Interpose_xf this) result); reflexivity.
Qed.

Lemma Interpose_step_starts (this : InterposeObj St) result input :
  Interpose_isStarted (snd (Interpose_step xf separator this result input)) = true.
Proof.
  unfold Interpose_step. destruct (Interpose_isStarted this) eqn:Hs.
  - destruct (xf_step xf (Interpose_xf this) result separator) as [w x].
    destruct (isReduced w); [reflexivity|].
    destruct (xf_step xf x (unreduced w) input); reflexivity.
  - destruct (xf_step xf (Interpose_xf this) result input); reflexivity.
Qed.

Lemma Interpose_loop_starts :
  forall source acc (this : InterposeObj St),
    source <> [] \/ Interpose_isStarted this = true ->
    Interpose_isStarted
      (snd (fst (reduceWithFunction source (Interpose_step xf separator) acc this)))
    = true.
Proof.
  induction source as [|x source IH]; intros acc this Hs; simpl.
  - destruct Hs as [Hs|Hs]; [congruence | exact Hs].
  - pose proof (Interpose_step_starts this acc x) as Hstep.
    destruct (Interpose_step xf separator this acc x) as [next this1].
    simpl in Hstep. destruct (isReduced next); simpl; [exact Hstep|].
    apply IH. right. exact Hstep.
Qed.
End InterposeFacts.

Section PartitionAllFacts.
Context {St TResult TCompleteResult TInput : Type}.
Variable xf : CompletingTransformer St TResult TCompleteResult (list TInput).

Lemma PartitionAll_init_frame (this : PartitionAllObj TInput St) :
  fst (PartitionAll_init xf this) = fst (xf_init xf (PartitionAll_xf this)) /\
  PartitionAll_buffer (snd (PartitionAll_init xf this)) = PartitionAll_buffer this.
Proof.
  unfold PartitionAll_init.
  destruct (xf_init xf (PartitionAll_xf this)); split; reflexivity.
Qed.

(** Finish always leaves the buffer empty: it was empty, or it is flushed
    and replaced by a new empty array. *)
Lemma PartitionAll_result_empties (this : PartitionAllObj TInput St) result :
  PartitionAll_buffer (snd (PartitionAll_result xf this result)) = [].
Proof.
  unfold PartitionAll_result.
  destruct (PartitionAll_buffer this) as [|b buffer] eqn:Hb; simpl.
  - destruct (xf_result xf (PartitionAll_xf this) result). simpl. exact Hb.
  - destruct (xf_step xf (PartitionAll_xf this) result (b :: buffer)) as [r x].
    simpl. destruct (xf_result xf x (unreduced r)). reflexivity.
Qed.
End PartitionAllFacts.

(** C9 (as amended).  The counter of [Drop], the [isStarted] flag of
    [Interpose] and the buffer of [PartitionAll] are fields of the
    transformer object, not of the accumulator: init returns the downstream's
    accumulator and leaves them as they are.  Hence a traversal of a
    non-empty source leaves [Drop]'s counter advanced and [Interpose]'s flag
    set, and a second traversal through the same object starts from there:
    [drop(2)] drops nothing the second time, [interpose(0)] starts with a
    separator.  The buffer of [PartitionAll], however, is empty again after
    every finish. *)
Theorem init_keeps_instance_fields :
  forall {St R C T} (xf : CompletingTransformer St R C T)
         (xfs : CompletingTransformer St R C (list T)) (n : Z) (sep : T),
    (forall this : DropObj St,
       fst (Drop_init xf this) = fst (xf_init xf (Drop_xf this)) /\
       Drop_i (snd (Drop_init xf this)) = Drop_i this) /\
    (forall this : InterposeObj St,
       fst (Interpose_init xf this) = fst (xf_init xf (Interpose_xf this)) /\
       Interpose_isStarted (snd (Interpose_init xf this)) = Interpose_isStarted this) /\
    (forall this : PartitionAllObj T St,
       fst (PartitionAll_init xfs this) = fst (xf_init xfs (PartitionAll_xf this)) /\
       PartitionAll_buffer (snd (PartitionAll_init xfs this)) = PartitionAll_buffer this) /\
    (forall (source : list T) (this : DropObj St),
       source <> [] ->
       Drop_i this < Drop_i (snd (fst (transduce (Drop xf n) source this)))) /\
    (forall (source : list T) (this : InterposeObj St),
       source <> [] ->
       Interpose_isStarted (snd (fst (transduce (Interpose xf sep) source this))) = true) /\
    (forall (source : list T) (this : PartitionAllObj T St),
       PartitionAll_buffer (snd (fst (transduce (PartitionAll xfs n) source this))) = []) /\
    toArrayTwice (drop 2) [1; 2; 3] [1; 2; 3] = ([3], [1; 2; 3]) /\
    toArrayTwice (interpose 0) [1; 2; 3] [1; 2; 3] = ([1; 0; 2; 0; 3], [0; 1; 0; 2; 0; 3]).
Proof.
  intros St R C T xf xfs n sep.
  split; [apply Drop_init_frame|].
  split; [apply Interpose_init_frame|].
  split; [apply PartitionAll_init_frame|].
  split; [|split; [|split; [|split; reflexivity]]].
  - intros source this Hne. rewrite transduce_unfold.
    cbn [xf_init xf_step xf_result Drop fst snd].
    rewrite Drop_result_frame.
    destruct (Drop_init_frame xf this) as [_ Hi]. rewrite <- Hi.
    apply Drop_loop_counts. exact Hne.
  - intros source this Hne. rewrite transduce_unfold.
    cbn [xf_init xf_step xf_result Interpose fst snd].
    rewrite Interpose_result_frame.
    apply Interpose_loop_starts. left. exact Hne.
  - intros source this. rewrite transduce_unfold.
    cbn [xf_init xf_step xf_result PartitionAll fst snd].
    apply PartitionAll_result_empties.
Qed.

Lemma init_keeps_instance_fields_witness :
  let chain := Drop (pushTransformer Z) 2 in
  Drop_i (xf_new chain) < Drop_i (snd (fst (transduce chain [1; 2; 3] (xf_new chain)))) /\
  Interpose_isStarted
    (snd (fst (transduce (Interpose (pushTransformer Z) 0) [1; 2; 3]
                 (xf_new (Interpose (pushTransformer Z) 0))))) = true.
Proof.
  intros chain.
  destruct (init_keeps_instance_fields
              (pushTransformer Z)
              (map (fun g : list Z => Z.of_nat (length g)) (pushTransformer Z)) 2 0)
    as (_ & _ & _ & Hdrop & Hinterpose & _).
  split.
  - apply Hdrop. discriminate.
  - apply Hinterpose. discriminate.
Defined.

(** C9 as stated fails for [PartitionAll]: after a completed traversal the
    object is back in the state the constructor gave it, and a second
    traversal goes exactly like the first.  It also fails for a traversal
    of an empty source, which leaves [Drop] and [Interpose] untouched. *)
Lemma PartitionAll_restarts_initial :
  let chain := PartitionAll (pushTransformer (list Z)) 2 in
  snd (fst (transduce chain [1; 2; 3] (xf_new chain))) = xf_new chain /\
  toArrayTwice (fun xf => PartitionAll xf 2) [1; 2; 3] [1; 2; 3]
  = ([[1; 2]; [3]], [[1; 2]; [3]]) /\
  (let idle := Drop (pushTransformer Z) 2 in
   snd (fst (transduce idle [] (xf_new idle))) = xf_new idle) /\
  (let idle := Interpose (pushTransformer Z) 0 in
   snd (fst (transduce idle [] (xf_new idle))) = xf_new idle).
Proof.
  repeat split; reflexivity.
Qed.

(* ===================================================================== *)
(** ** [PartitionBy] after a signaled flush *)
(* ===================================================================== *)

(** C10.  When the downstream answers the flush of a key change with a
    signaled result, the step of [PartitionBy] returns a signaled result
    whose buffer holds the input that caused the flush; the finish that
    follows steps that one-element buffer downstream, once, and then calls
    the downstream finish: the downstream receives one more group after it
    signaled. *)
Theorem PartitionBy_flushes_after_done :
  forall {St R C T K} `{StrictEq K} (xf : CompletingTransformer St R C (list T))
         (f : T -> K) (this : Recorder (list T) St)
         (result : PartitionByState R T K) (input : T),
    PartitionBy_sameGroup (PartitionBy_lastKey result) (f input) = false ->
    isReduced (fst (xf_step xf (recorded this) (PartitionBy_value result)
                      (PartitionBy_buffer result))) = true ->
    let answer := PartitionBy_step (Recording xf) f this result input in
    let finish := PartitionBy_result (Recording xf) (snd answer) (unreduced (fst answer)) in
    isReduced (fst answer) = true /\
    PartitionBy_buffer (unreduced (fst answer)) = [input] /\
    calls (snd answer) = calls this ++ [StepCall (PartitionBy_buffer result) true] /\
    exists done,
      calls (snd finish)
      = calls this ++ [StepCall (PartitionBy_buffer result) true;
                       StepCall [input] done;
                       ResultCall].
Proof.
  intros St R C T K HK xf f this result input Hchange Hdone answer finish.
  destruct (PartitionBy_step_flush (Recording xf) f this result input Hchange)
    as (Hthis & Hred & Hval).
  fold answer in Hthis, Hred, Hval.
  assert (Hcalls : calls (snd answer)
                   = calls this ++ [StepCall (PartitionBy_buffer result) true]).
  { rewrite Hthis. simpl.
    destruct (xf_step xf (recorded this) (PartitionBy_value result)
                (PartitionBy_buffer result)) as [r x].
    simpl in *. rewrite Hdone. reflexivity. }
  split.
  { rewrite Hred. simpl.
    destruct (xf_step xf (recorded this) (PartitionBy_value result)
                (PartitionBy_buffer result)) as [r x].
    simpl in *. exact Hdone. }
  split; [rewrite Hval; reflexivity|]. split; [exact Hcalls|].
  unfold finish. rewrite PartitionBy_result_flush by (rewrite Hval; discriminate).
  rewrite Hval. cbn [PartitionBy_value PartitionBy_buffer].
  simpl.
  destruct (xf_step xf (recorded (snd answer)) _ [input]) as [r x].
  simpl. destruct (xf_result xf x (unreduced r)) as [c x'].
  simpl. rewrite Hcalls, <- !app_assoc. simpl. eexists. reflexivity.
Qed.

Lemma PartitionBy_flushes_after_done_witness :
  let xf := take 1 (pushTransformer (list Z)) in
  let this := {| calls := [InitCall]; recorded := xf_new xf |} in
  let result := {| PartitionBy_value := [];
                   PartitionBy_buffer := [1; 1];
                   PartitionBy_lastKey := Known 1 |} in
  let answer := PartitionBy_step (Recording xf) (fun z => z) this result 2 in
  let finish := PartitionBy_result (Recording xf) (snd answer) (unreduced (fst answer)) in
  isReduced (fst answer) = true /\
  PartitionBy_buffer (unreduced (fst answer)) = [2] /\
  calls (snd answer) = [InitCall] ++ [StepCall [1; 1] true] /\
  exists done,
    calls (snd finish)
    = [InitCall] ++ [StepCall [1; 1] true; StepCall [2] done; ResultCall].
Proof.
  intros xf this result.
  apply (PartitionBy_flushes_after_done xf (fun z => z) this result 2);
    reflexivity.
Defined.

(* ===================================================================== *)
(** ** Propagation of the downstream's signal *)
(* ===================================================================== *)

Lemma existsb_is_done_step {T} (l : list (Call T)) :
  existsb is_step l = false -> existsb is_done l = false.
Proof.
  induction l as [|c l IH]; simpl; [reflexivity|].
  intros Hs. apply orb_false_iff in Hs. destruct Hs as [Hc Hl].
  rewrite (IH Hl). destruct c; simpl in *; try reflexivity. discriminate.
Qed.

Lemma quiet_after_done_app_clean {T} (l m : list (Call T)) :
  existsb is_done l = false ->
  quiet_after_done (l ++ m) = quiet_after_done m.
Proof.
  induction l as [|c l IH]; simpl; [reflexivity|].
  intros Hd. apply orb_false_iff in Hd. destruct Hd as [Hc Hl].
  rewrite Hc, (IH Hl). reflexivity.
Qed.

Lemma quiet_after_done_app_idle {T} (l m : list (Call T)) :
  quiet_after_done l = true ->
  existsb is_step m = false ->
  quiet_after_done (l ++ m) = true.
Proof.
  induction l as [|c l IH]; simpl; intros Hq Hm.
  - induction m as [|c m IHm]; simpl; [reflexivity|].
    simpl in Hm. apply orb_false_iff in Hm. destruct Hm as [Hc Hm].
    rewrite (IHm Hm). destruct c; simpl in *; try reflexivity. discriminate.
  - apply andb_true_iff in Hq. destruct Hq as [Hc Hq].
    rewrite (IH Hq Hm), andb_true_r.
    destruct (is_done c); [|reflexivity].
    rewrite existsb_app, Hm, orb_false_r. exact Hc.
Qed.

Lemma quiet_after_done_no_done {T} (l : list (Call T)) :
  existsb is_done l = false -> quiet_after_done l = true.
Proof.
  intros Hd. rewrite <- (app_nil_r l), quiet_after_done_app_clean by exact Hd.
  reflexivity.
Qed.

Section Propagation.
Context {St R C A B : Type}.
Variable stage : CompletingTransformer St R C A.
Variable log : St -> list (Call B).
Variable settled : St -> Prop.
Hypothesis Hstep : step_propagates stage log settled.
Hypothesis Hfinish : finish_delegates stage log settled.
Hypothesis Hinit : init_delegates stage log.

(** The loop: the log stays quiet after a signaled answer, and a signaled
    answer in it leaves the stage settled. *)
Lemma propagating_loop :
  forall (source : list A) acc this,
    existsb is_done (log this) = false ->
    let this' := snd (fst (reduceWithFunction source (xf_step stage) acc this)) in
    quiet_after_done (log this') = true /\
    (existsb is_done (log this') = true -> settled this').
Proof.
  induction source as [|x source IH]; intros acc this Hclean; simpl.
  - split; [apply quiet_after_done_no_done; exact Hclean|].
    rewrite Hclean. discriminate.
  - destruct (Hstep this acc x) as (new & Hlog & Hsteps & Hquiet & Hdone).
    destruct (xf_step stage this acc x) as [next this1]. simpl in *.
    destruct (existsb is_done new) eqn:Hnew.
    + destruct (Hdone eq_refl) as [Hred Hset]. rewrite Hred. simpl.
      rewrite Hlog, quiet_after_done_app_clean by exact Hclean.
      split; [exact Hquiet | intros _; exact Hset].
    + assert (Hclean1 : existsb is_done (log this1) = false).
      { rewrite Hlog, existsb_app, Hclean, Hnew. reflexivity. }
      destruct (isReduced next); simpl.
      * split; [apply quiet_after_done_no_done; exact Hclean1|].
        rewrite Hclean1. discriminate.
      * apply IH. exact Hclean1.
Qed.

(** Init, loop and finish together. *)
Lemma propagating_traversal : traversal_quiet stage log.
Proof.
  intros source this Hclean. rewrite transduce_unfold. cbv zeta. cbn [fst snd].
  destruct (Hinit this) as (new0 & Hlog0 & Hidle0).
  assert (Hclean0 : existsb is_done (log (snd (xf_init stage this))) = false).
  { rewrite Hlog0, existsb_app, Hclean. simpl. apply existsb_is_done_step. exact Hidle0. }
  destruct (propagating_loop source (fst (xf_init stage this)) _ Hclean0)
    as [Hquiet Hset].
  cbv zeta in Hquiet, Hset.
  set (loop := reduceWithFunction source (xf_step stage) (fst (xf_init stage this))
                 (snd (xf_init stage this))) in *.
  destruct (Hfinish (snd (fst loop)) (unreduced (fst (fst loop))))
    as (new & Hlog & Hqnew & Hidle).
  rewrite Hlog.
  destruct (existsb is_done (log (snd (fst loop)))) eqn:Hd.
  - apply quiet_after_done_app_idle; [exact Hquiet|]. apply Hidle. apply Hset. reflexivity.
  - rewrite quiet_after_done_app_clean by exact Hd. exact Hqnew.
Qed.
End Propagation.

(** *** The stages, one by one, over a recorded downstream *)

Ltac no_call :=
  exists []; rewrite app_nil_r;
  split; [reflexivity | split; [reflexivity | split; [reflexivity | discriminate]]].

Ltac one_call :=
  eexists [StepCall _ _]; simpl;
  split; [reflexivity | split; [reflexivity | split; [|]]];
  [ match goal with |- ((if ?b then _ else _) && _)%bool = true => destruct b; reflexivity end
  | rewrite ?orb_false_r; rewrite ?isReduced_updateValue;
    intros Hdone_; split; [exact Hdone_ | exact I] ].

Section StagesPropagate.
Context {St R C T : Type}.
Variable xf : CompletingTransformer St R C T.

Lemma Filter_propagates pred :
  step_propagates (Filter (Recording xf) pred) (@calls T St) always /\
  finish_delegates (Filter (Recording xf) pred) (@calls T St) always /\
  init_delegates (Filter (Recording xf) pred) (@calls T St).
Proof.
  split; [|split].
  - intros this acc x. simpl. unfold Filter_step. destruct (pred x).
    + simpl. destruct (xf_step xf (recorded this) acc x) as [r s]. one_call.
    + no_call.
  - intros this acc. simpl. destruct (xf_result xf (recorded this) acc).
    exists [ResultCall]. simpl. auto.
  - intros this. simpl. destruct (xf_init xf (recorded this)).
    exists [InitCall]. simpl. auto.
Qed.

Lemma MapTransformer_propagates {U} (f : U -> T) :
  step_propagates (MapTransformer (Recording xf) f) (@calls T St) always /\
  finish_delegates (MapTransformer (Recording xf) f) (@calls T St) always /\
  init_delegates (MapTransformer (Recording xf) f) (@calls T St).
Proof.
  split; [|split].
  - intros this acc x. simpl. unfold MapTransformer_step. simpl.
    destruct (xf_step xf (recorded this) acc (f x)) as [r s]. one_call.
  - intros this acc. simpl. destruct (xf_result xf (recorded this) acc).
    exists [ResultCall]. simpl. auto.
  - intros this. simpl. destruct (xf_init xf (recorded this)).
    exists [InitCall]. simpl. auto.
Qed.

Lemma TakeWhile_propagates pred :
  step_propagates (TakeWhile (Recording xf) pred) (@calls T St) always /\
  finish_delegates (TakeWhile (Recording xf) pred) (@calls T St) always /\
  init_delegates (TakeWhile (Recording xf) pred) (@calls T St).
Proof.
  split; [|split].
  - intros this acc x. simpl. unfold TakeWhile_step. destruct (pred x).
    + simpl. destruct (xf_step xf (recorded this) acc x) as [r s]. one_call.
    + no_call.
  - intros this acc. simpl. destruct (xf_result xf (recorded this) acc).
    exists [ResultCall]. simpl. auto.
  - intros this. simpl. destruct (xf_init xf (recorded this)).
    exists [InitCall]. simpl. auto.
Qed.

Lemma Dedupe_propagates `{StrictEq T} :
  step_propagates (Dedupe (Recording xf)) (@calls T St) always /\
  finish_delegates (Dedupe (Recording xf)) (@calls T St) always /\
  init_delegates (Dedupe (Recording xf)) (@calls T St).
Proof.
  split; [|split].
  - intros this acc x. simpl. unfold Dedupe_step.
    destruct (Dedupe_differs x (Dedupe_last acc)).
    + simpl. destruct (xf_step xf (recorded this) (Dedupe_value acc) x) as [r s].
      one_call.
    + no_call.
  - intros this acc. simpl. unfold Dedupe_result. simpl.
    destruct (xf_result xf (recorded this) (Dedupe_value acc)).
    exists [ResultCall]. simpl. auto.
  - intros this. simpl. unfold Dedupe_init. simpl.
    destruct (xf_init xf (recorded this)).
    exists [InitCall]. simpl. auto.
Qed.

Lemma DropWhile_propagates pred :
  step_propagates (DropWhile (Recording xf) pred) (@calls T St) always /\
  finish_delegates (DropWhile (Recording xf) pred) (@calls T St) always /\
  init_delegates (DropWhile (Recording xf) pred) (@calls T St).
Proof.
  split; [|split].
  - intros this acc x. simpl. unfold DropWhile_step.
    destruct (DropWhile_isDoneDropping acc); [|destruct (pred x)].
    + simpl. destruct (xf_step xf (recorded this) (DropWhile_value acc) x) as [r s].
      one_call.
    + no_call.
    + simpl. destruct (xf_step xf (recorded this) (DropWhile_value acc) x) as [r s].
      one_call.
  - intros this acc. simpl. unfold DropWhile_result. simpl.
    destruct (xf_result xf (recorded this) (DropWhile_value acc)).
    exists [ResultCall]. simpl. auto.
  - intros this. simpl. unfold DropWhile_init. simpl.
    destruct (xf_init xf (recorded this)).
    exists [InitCall]. simpl. auto.
Qed.

Lemma TakeNth_propagates n :
  step_propagates (TakeNth (Recording xf) n) (@calls T St) always /\
  finish_delegates (TakeNth (Recording xf) n) (@calls T St) always /\
  init_delegates (TakeNth (Recording xf) n) (@calls T St).
Proof.
  split; [|split].
  - intros this acc x. simpl. unfold TakeNth_step.
    destruct (Z.rem (TakeNth_i acc) n =? 0).
    + simpl. destruct (xf_step xf (recorded this) (TakeNth_value acc) x) as [r s].
      one_call.
    + no_call.
  - intros this acc. simpl. unfold TakeNth_result. simpl.
    destruct (xf_result xf (recorded this) (TakeNth_value acc)).
    exists [ResultCall]. simpl. auto.
  - intros this. simpl. unfold TakeNth_init. simpl.
    destruct (xf_init xf (recorded this)).
    exists [InitCall]. simpl. auto.
Qed.
End StagesPropagate.

Section StatefulStagesPropagate.
Context {St R C T : Type}.
Variable xf : CompletingTransformer St R C T.

Lemma Drop_propagates n :
  let log := fun this : DropObj (Recorder T St) => calls (Drop_xf this) in
  step_propagates (Drop (Recording xf) n) log always /\
  finish_delegates (Drop (Recording xf) n) log always /\
  init_delegates (Drop (Recording xf) n) log.
Proof.
  split; [|split].
  - intros this acc x. simpl. unfold Drop_step. destruct (Drop_i this <? n).
    + no_call.
    + simpl. destruct (xf_step xf (recorded (Drop_xf this)) acc x) as [r s]. one_call.
  - intros this acc. simpl. unfold Drop_result. simpl.
    destruct (xf_result xf (recorded (Drop_xf this)) acc).
    exists [ResultCall]. simpl. auto.
  - intros this. simpl. unfold Drop_init. simpl.
    destruct (xf_init xf (recorded (Drop_xf this))).
    exists [InitCall]. simpl. auto.
Qed.

Lemma Take_propagates n :
  let log := fun this : TakeObj (Recorder T St) => calls (Take_xf this) in
  step_propagates (Take (Recording xf) n) log always /\
  finish_delegates (Take (Recording xf) n) log always /\
  init_delegates (Take (Recording xf) n) log.
Proof.
  split; [|split].
  - intros this acc x. simpl. unfold Take_step. destruct (n <=? 0).
    + no_call.
    + simpl. destruct (xf_step xf (recorded (Take_xf this)) acc x) as [r s].
      simpl. eexists [StepCall _ _]. simpl.
      split; [reflexivity|]. split; [reflexivity|]. split.
      * destruct (isReduced r); reflexivity.
      * rewrite orb_false_r. intros Hdone. split; [|exact I].
        destruct (Take_i this <? n - 1); [exact Hdone|].
        apply isReduced_ensureReduced.
  - intros this acc. simpl. unfold Take_result. simpl.
    destruct (xf_result xf (recorded (Take_xf this)) acc).
    exists [ResultCall]. simpl. auto.
  - intros this. simpl. unfold Take_init. simpl.
    destruct (xf_init xf (recorded (Take_xf this))).
    exists [InitCall]. simpl. auto.
Qed.

Lemma Interpose_propagates separator :
  let log := fun this : InterposeObj (Recorder T St) => calls (Interpose_xf this) in
  step_propagates (Interpose (Recording xf) separator) log always /\
  finish_delegates (Interpose (Recording xf) separator) log always /\
  init_delegates (Interpose (Recording xf) separator) log.
Proof.
  split; [|split].
  - intros this acc x. simpl. unfold Interpose_step.
    destruct (Interpose_isStarted this).
    + simpl. destruct (xf_step xf (recorded (Interpose_xf this)) acc separator)
        as [w s]. simpl.
      destruct (isReduced w) eqn:Hw.
      * simpl. exists [StepCall separator true]. simpl.
        split; [reflexivity|]. split; [reflexivity|]. split; [reflexivity|].
        intros _. split; [exact Hw | exact I].
      * simpl. destruct (xf_step xf s (unreduced w) x) as [r s']. simpl.
        exists [StepCall separator false; StepCall x (isReduced r)]. simpl.
        split; [rewrite <- app_assoc; reflexivity|].
        split; [reflexivity|]. split; [destruct (isReduced r); reflexivity|].
        rewrite orb_false_r. intros Hdone. split; [exact Hdone | exact I].
    + simpl. destruct (xf_step xf (recorded (Interpose_xf this)) acc x) as [r s].
      one_call.
  - intros this acc. simpl. unfold Interpose_result. simpl.
    destruct (xf_result xf (recorded (Interpose_xf this)) acc).
    exists [ResultCall]. simpl. auto.
  - intros this. simpl. unfold Interpose_init. simpl.
    destruct (xf_init xf (recorded (Interpose_xf this))).
    exists [InitCall]. simpl. auto.
Qed.

Lemma Recording_step_eq (this : Recorder T St) acc x :
  xf_step (Recording xf) this acc x
  = (fst (xf_step xf (recorded this) acc x),
     {| calls := calls this
                 ++ [StepCall x (isReduced (fst (xf_step xf (recorded this) acc x)))];
        recorded := snd (xf_step xf (recorded this) acc x) |}).
Proof.
  simpl. destruct (xf_step xf (recorded this) acc x); reflexivity.
Qed.

(** The loop over a recorded transformer: one recorded step per element
    pulled, and a signaled answer ends it. *)
Lemma Recording_loop :
  forall (items : list T) acc (this : Recorder T St),
    let loop := reduceWithFunction items (xf_step (Recording xf)) acc this in
    exists new,
      calls (snd (fst loop)) = calls this ++ new /\
      forallb is_step new = true /\
      quiet_after_done new = true /\
      (existsb is_done new = true -> isReduced (fst (fst loop)) = true).
Proof.
  induction items as [|x items IH]; intros acc this.
  - exists []. simpl. rewrite app_nil_r. repeat split; try reflexivity. discriminate.
  - cbn [reduceWithFunction]. rewrite Recording_step_eq.
    destruct (xf_step xf (recorded this) acc x) as [r s]. cbn [fst snd].
    destruct (isReduced r) eqn:Hr.
    + exists [StepCall x true]. simpl. repeat split; try reflexivity.
      intros _. exact Hr.
    + destruct (IH (unreduced r)
                  {| calls := calls this ++ [StepCall x false]; recorded := s |})
        as (new & Hlog & Hsteps & Hquiet & Hdone).
      cbv zeta in Hlog, Hdone. cbn [calls] in Hlog.
      exists (StepCall x false :: new). cbv zeta.
      split; [rewrite Hlog, <- app_assoc; reflexivity|].
      split; [exact Hsteps|]. split; [exact Hquiet | exact Hdone].
Qed.

Lemma FlatMap_propagates {U} (f : U -> list T) :
  step_propagates (FlatMap (Recording xf) f) (@calls T St) always /\
  finish_delegates (FlatMap (Recording xf) f) (@calls T St) always /\
  init_delegates (FlatMap (Recording xf) f) (@calls T St).
Proof.
  split; [|split].
  - intros this acc x. cbn [xf_step FlatMap]. unfold FlatMap_step.
    destruct (Recording_loop (f x) acc this) as (new & Hlog & Hsteps & Hquiet & Hdone).
    exists new. split; [exact Hlog|]. split; [exact Hsteps|].
    split; [exact Hquiet|]. intros Hd. split; [apply Hdone; exact Hd | exact I].
  - intros this acc. simpl. destruct (xf_result xf (recorded this) acc).
    exists [ResultCall]. simpl. auto.
  - intros this. simpl. destruct (xf_init xf (recorded this)).
    exists [InitCall]. simpl. auto.
Qed.
End StatefulStagesPropagate.

Section GroupingStagesPropagate.
Context {St R C T : Type}.
Variable xf : CompletingTransformer St R C (list T).

(** [PartitionAll] is settled when its buffer is empty: a signaled flush
    leaves it so. *)
Lemma PartitionAll_propagates n :
  let log := fun this : PartitionAllObj T (Recorder (list T) St) =>
               calls (PartitionAll_xf this) in
  let settled := fun this : PartitionAllObj T (Recorder (list T) St) =>
                   PartitionAll_buffer this = [] in
  step_propagates (PartitionAll (Recording xf) n) log settled /\
  finish_delegates (PartitionAll (Recording xf) n) log settled /\
  init_delegates (PartitionAll (Recording xf) n) log.
Proof.
  split; [|split].
  - intros this acc x. simpl. unfold PartitionAll_step.
    destruct (Z.of_nat (length (PartitionAll_buffer this ++ [x])) =? n).
    + simpl. destruct (xf_step xf (recorded (PartitionAll_xf this)) acc
                         (PartitionAll_buffer this ++ [x])) as [r s].
      simpl. eexists [StepCall _ _]. simpl.
      split; [reflexivity|]. split; [reflexivity|]. split.
      * destruct (isReduced r); reflexivity.
      * rewrite orb_false_r. intros Hdone. split; [exact Hdone | reflexivity].
    + no_call.
  - intros this acc. simpl. unfold PartitionAll_result.
    destruct (PartitionAll_buffer this) as [|b buffer] eqn:Hb; simpl.
    + destruct (xf_result xf (recorded (PartitionAll_xf this)) acc).
      exists [ResultCall]. simpl. auto.
    + destruct (xf_step xf (recorded (PartitionAll_xf this)) acc (b :: buffer))
        as [r s]. simpl.
      destruct (xf_result xf s (unreduced r)). simpl.
      exists [StepCall (b :: buffer) (isReduced r); ResultCall]. simpl.
      split; [rewrite <- app_assoc; reflexivity|].
      split; [destruct (isReduced r); reflexivity|]. discriminate.
  - intros this. simpl. unfold PartitionAll_init. simpl.
    destruct (xf_init xf (recorded (PartitionAll_xf this))).
    exists [InitCall]. simpl. auto.
Qed.

(** The step of [PartitionBy] propagates as well; its finish is not covered:
    it steps the buffer downstream whatever was answered before. *)
Lemma PartitionBy_step_propagates {K} `{StrictEq K} (f : T -> K) :
  step_propagates (PartitionBy (Recording xf) f) (@calls (list T) St) always.
Proof.
  intros this acc x. simpl. unfold PartitionBy_step.
  destruct (PartitionBy_sameGroup (PartitionBy_lastKey acc) (f x)).
  - no_call.
  - simpl. destruct (xf_step xf (recorded this) (PartitionBy_value acc)
                       (PartitionBy_buffer acc)) as [r s].
    simpl. eexists [StepCall _ _]. simpl.
    split; [reflexivity|]. split; [reflexivity|]. split.
    + destruct (isReduced r); reflexivity.
    + rewrite orb_false_r, !isReduced_on_unreduced, isReduced_updateValue.
      intros Hdone. split; [exact Hdone | exact I].
Qed.
End GroupingStagesPropagate.


(** X1.  Every stage of [transducers.ts], in one step: the calls it makes into
    its downstream are steps, a signaled answer is the last of them, and the
    stage then answers signaled itself. *)
Theorem steps_propagate_signal :
  forall {St R C T U K} `{StrictEq T} `{StrictEq K}
         (xf : CompletingTransformer St R C T)
         (xfs : CompletingTransformer St R C (list T))
         (pred : T -> bool) (f : U -> T) (g : U -> list T) (key : T -> K)
         (n : Z) (separator : T),
    step_propagates (Dedupe (Recording xf)) (@calls T St) always /\
    step_propagates (Drop (Recording xf) n) (fun this => calls (Drop_xf this)) always /\
    step_propagates (DropWhile (Recording xf) pred) (@calls T St) always /\
    step_propagates (Filter (Recording xf) pred) (@calls T St) always /\
    step_propagates (remove pred (Recording xf)) (@calls T St) always /\
    step_propagates (FlatMap (Recording xf) g) (@calls T St) always /\
    step_propagates (Interpose (Recording xf) separator)
      (fun this => calls (Interpose_xf this)) always /\
    step_propagates (MapTransformer (Recording xf) f) (@calls T St) always /\
    step_propagates (PartitionAll (Recording xfs) n)
      (fun this => calls (PartitionAll_xf this))
      (fun this => PartitionAll_buffer this = []) /\
    step_propagates (PartitionBy (Recording xfs) key) (@calls (list T) St) always /\
    step_propagates (Take (Recording xf) n) (fun this => calls (Take_xf this)) always /\
    step_propagates (TakeNth (Recording xf) n) (@calls T St) always /\
    step_propagates (TakeWhile (Recording xf) pred) (@calls T St) always.
Proof.
  intros St R C T U K HT HK xf xfs pred f g key n separator.
  split; [apply Dedupe_propagates|].
  split; [apply (Drop_propagates xf n)|].
  split; [apply DropWhile_propagates|].
  split; [apply Filter_propagates|].
  split; [apply (Filter_propagates xf (fun item => negb (pred item)))|].
  split; [apply FlatMap_propagates|].
  split; [apply (Interpose_propagates xf separator)|].
  split; [apply MapTransformer_propagates|].
  split; [apply (PartitionAll_propagates xfs n)|].
  split; [apply PartitionBy_step_propagates|].
  split; [apply (Take_propagates xf n)|].
  split; [apply TakeNth_propagates | apply TakeWhile_propagates].
Qed.

(** X2.  Every stage of [transducers.ts] but [PartitionBy], over a whole
    traversal (init, the loop, finish): no step reaches the downstream after
    the downstream answered a step with a signaled result. *)
Theorem traversals_quiet_after_done :
  forall {St R C T U} `{StrictEq T}
         (xf : CompletingTransformer St R C T)
         (xfs : CompletingTransformer St R C (list T))
         (pred : T -> bool) (f : U -> T) (g : U -> list T)
         (n : Z) (separator : T),
    traversal_quiet (Dedupe (Recording xf)) (@calls T St) /\
    traversal_quiet (Drop (Recording xf) n) (fun this => calls (Drop_xf this)) /\
    traversal_quiet (DropWhile (Recording xf) pred) (@calls T St) /\
    traversal_quiet (Filter (Recording xf) pred) (@calls T St) /\
    traversal_quiet (remove pred (Recording xf)) (@calls T St) /\
    traversal_quiet (FlatMap (Recording xf) g) (@calls T St) /\
    traversal_quiet (Interpose (Recording xf) separator)
      (fun this => calls (Interpose_xf this)) /\
    traversal_quiet (MapTransformer (Recording xf) f) (@calls T St) /\
    traversal_quiet (PartitionAll (Recording xfs) n)
      (fun this => calls (PartitionAll_xf this)) /\
    traversal_quiet (Take (Recording xf) n) (fun this => calls (Take_xf this)) /\
    traversal_quiet (TakeNth (Recording xf) n) (@calls T St) /\
    traversal_quiet (TakeWhile (Recording xf) pred) (@calls T St).
Proof.
  intros St R C T U HT xf xfs pred f g n separator.
  split; [eapply propagating_traversal; apply Dedupe_propagates|].
  split; [eapply propagating_traversal; apply (Drop_propagates xf n)|].
  split; [eapply propagating_traversal; apply DropWhile_propagates|].
  split; [eapply propagating_traversal; apply Filter_propagates|].
  split; [eapply propagating_traversal;
          apply (Filter_propagates xf (fun item => negb (pred item)))|].
  split; [eapply propagating_traversal; apply FlatMap_propagates|].
  split; [eapply propagating_traversal; apply (Interpose_propagates xf separator)|].
  split; [eapply propagating_traversal; apply MapTransformer_propagates|].
  split; [eapply propagating_traversal; apply (PartitionAll_propagates xfs n)|].
  split; [eapply propagating_traversal; apply (Take_propagates xf n)|].
  split; [eapply propagating_traversal; apply TakeNth_propagates
         | eapply propagating_traversal; apply TakeWhile_propagates].
Qed.

(* ===================================================================== *)
(** ** The remaining rows of the catalog *)
(* ===================================================================== *)

Lemma push_loop {T} :
  forall (items : list T) acc,
    reduceWithFunction items (xf_step (pushTransformer T)) acc tt
    = (Plain (acc ++ items), tt, []).
Proof.
  induction items as [|x items IH]; intros acc; simpl.
  - rewrite app_nil_r. reflexivity.
  - rewrite IH. unfold aPush. rewrite <- app_assoc. reflexivity.
Qed.

Lemma Drop_loop_push {T} (n : Z) :
  forall (source : list T) acc i,
    reduceWithFunction source (Drop_step (pushTransformer T) n) acc
      {| Drop_i := i; Drop_xf := tt |}
    = (Plain (acc ++ skipn (Z.to_nat (n - i)) source),
       {| Drop_i := i + Z.of_nat (length source); Drop_xf := tt |}, []).
Proof.
  induction source as [|x source IH]; intros acc i.
  - simpl. rewrite skipn_nil, app_nil_r, Z.add_0_r. reflexivity.
  - simpl reduceWithFunction. unfold Drop_step at 1. simpl Drop_i. simpl Drop_xf.
    destruct (Z.ltb_spec i n) as [Hlt|Hge].
    + simpl isReduced. cbv iota. simpl unreduced. rewrite IH.
      replace (Z.to_nat (n - i)) with (S (Z.to_nat (n - (i + 1)))) by lia.
      simpl skipn. simpl length. do 3 f_equal. lia.
    + simpl xf_step. unfold aPush. simpl isReduced. cbv iota. simpl unreduced.
      rewrite IH.
      replace (Z.to_nat (n - (i + 1))) with 0%nat by lia.
      replace (Z.to_nat (n - i)) with 0%nat by lia.
      simpl skipn. rewrite <- app_assoc. simpl length.
      do 3 f_equal. lia.
Qed.

Lemma Filter_loop_push {T} (pred : T -> bool) :
  forall (source : list T) acc,
    reduceWithFunction source (Filter_step (pushTransformer T) pred) acc tt
    = (Plain (acc ++ List.filter pred source), tt, []).
Proof.
  induction source as [|x source IH]; intros acc; simpl.
  - rewrite app_nil_r. reflexivity.
  - unfold Filter_step at 1. destruct (pred x); simpl; rewrite IH.
    + unfold aPush. rewrite <- app_assoc. reflexivity.
    + reflexivity.
Qed.

Lemma MapTransformer_loop_push {T U} (f : T -> U) :
  forall (source : list T) acc,
    reduceWithFunction source (MapTransformer_step (pushTransformer U) f) acc tt
    = (Plain (acc ++ List.map f source), tt, []).
Proof.
  induction source as [|x source IH]; intros acc; simpl.
  - rewrite app_nil_r. reflexivity.
  - rewrite IH. unfold aPush. rewrite <- app_assoc. reflexivity.
Qed.

Lemma FlatMap_loop_push {T U} (f : T -> list U) :
  forall (source : list T) acc,
    reduceWithFunction source (FlatMap_step (pushTransformer U) f) acc tt
    = (Plain (acc ++ flat_map f source), tt, []).
Proof.
  induction source as [|x source IH]; intros acc.
  - simpl. rewrite app_nil_r. reflexivity.
  - cbn [reduceWithFunction]. unfold FlatMap_step at 1. rewrite push_loop.
    cbn [fst snd isReduced unreduced]. rewrite IH. simpl flat_map.
    rewrite app_assoc. reflexivity.
Qed.

Lemma TakeNth_loop_push {T} (n : Z) :
  forall (source : list T) acc (i : nat),
    reduceWithFunction source (TakeNth_step (pushTransformer T) n)
      {| TakeNth_value := acc; TakeNth_i := Z.of_nat i |} tt
    = (Plain {| TakeNth_value := acc ++ every_nth n i source;
                TakeNth_i := Z.of_nat (i + length source) |}, tt, []).
Proof.
  induction source as [|x source IH]; intros acc i.
  - simpl. unfold every_nth. simpl. rewrite app_nil_r, Nat.add_0_r. reflexivity.
  - simpl reduceWithFunction. unfold TakeNth_step at 1. simpl TakeNth_i.
    simpl TakeNth_value. unfold every_nth. simpl length. simpl seq. simpl combine.
    simpl List.filter. simpl fst.
    destruct (Z.rem (Z.of_nat i) n =? 0).
    + simpl xf_step. simpl updateValue. simpl isReduced. cbv iota. simpl unreduced.
      replace (Z.of_nat i + 1) with (Z.of_nat (S i)) by lia.
      rewrite IH. unfold every_nth, aPush. simpl List.map.
      rewrite <- app_assoc. simpl app.
      replace (S i + length source)%nat with (i + S (length source))%nat by lia.
      reflexivity.
    + simpl isReduced. cbv iota. simpl unreduced.
      replace (Z.of_nat i + 1) with (Z.of_nat (S i)) by lia.
      rewrite IH. unfold every_nth.
      replace (S i + length source)%nat with (i + S (length source))%nat by lia.
      reflexivity.
Qed.

(** X4.  Driven into the array builder, the one-to-one rows of the catalog
    are the list functions of the same name: [drop(n)] skips the first [n]
    inputs ([n <= 0] passes everything), [filter] keeps the inputs that
    satisfy the predicate and [remove] the others, [map] applies [f],
    [flatMap] concatenates the sub-sequences, and [takeNth(n)] keeps the
    inputs at the positions 0, n, 2n, ... *)
Theorem catalog_rows :
  forall {T U} (source : list T) (n : Z) (pred : T -> bool)
         (f : T -> U) (g : T -> list U),
    toArray (drop n) source = skipn (Z.to_nat n) source /\
    toArray (filter pred) source = List.filter pred source /\
    toArray (remove pred) source = List.filter (fun item => negb (pred item)) source /\
    toArray (map f) source = List.map f source /\
    toArray (flatMap g) source = flat_map g source /\
    toArrayOf (takeNth n) source
    = (if n =? 0 then Throw "Step in takeNth() cannot be 0"
       else if n <? 0 then Throw "Step in takeNth() cannot be negative"
       else Returns (every_nth n 0 source)).
Proof.
  intros T U source n pred f g.
  split; [|split; [|split; [|split; [|split]]]].
  - unfold toArray, drop. rewrite transduce_unfold. simpl.
    unfold Drop_new. simpl. rewrite Drop_loop_push. simpl.
    rewrite Z.sub_0_r. reflexivity.
  - unfold toArray, filter. rewrite transduce_unfold. simpl.
    rewrite Filter_loop_push. reflexivity.
  - unfold toArray, remove, filter. rewrite transduce_unfold. simpl.
    rewrite Filter_loop_push. reflexivity.
  - unfold toArray, map. rewrite transduce_unfold. simpl.
    rewrite MapTransformer_loop_push. reflexivity.
  - unfold toArray, flatMap. rewrite transduce_unfold. simpl.
    rewrite FlatMap_loop_push. reflexivity.
  - unfold takeNth. destruct (n =? 0); [reflexivity|].
    destruct (n <? 0); [reflexivity|].
    unfold toArrayOf, toArray. rewrite transduce_unfold. simpl. f_equal.
    pose proof (TakeNth_loop_push n source [] 0) as E. simpl Z.of_nat in E.
    rewrite E. reflexivity.
Qed.

(** C3 fails on [PartitionBy], whose finish is what the traversal theorem
    above leaves out.  [partitionBy(length)] followed by [take(1)] into the
    array builder, over ["a", "bb", "ccc"]: the flush of ["a"] is answered
    with a signaled result, the step returns signaled and the driver stops
    with "ccc" left in the source, yet finish steps ["bb"] downstream, after
    the signaled call, and the array holds two groups. *)
Lemma PartitionBy_steps_downstream_after_done :
  let chain := partitionBy String.length
                 (Recording (take 1 (pushTransformer (list string)))) in
  let run := transduce chain ["a"; "bb"; "ccc"]%string (xf_new chain) in
  fst (fst run) = [["a"]; ["bb"]]%string /\
  snd run = ["ccc"]%string /\
  calls (snd (fst run))
  = [InitCall; StepCall ["a"]%string true; StepCall ["bb"]%string true; ResultCall] /\
  quiet_after_done (calls (snd (fst run))) = false /\
  toArray (fun xf => partitionBy String.length (take 1 xf)) ["a"; "bb"; "ccc"]%string
  = [["a"]; ["bb"]]%string.
Proof.
  repeat split; reflexivity.
Qed.

(* ===================================================================== *)
(** ** A stage over any downstream is its list function *)
(* ===================================================================== *)

(** The loop over two lists in a row: the second is reached only when the
    first did not end signaled. *)
Lemma reduceWithFunction_app {St R T} (f : St -> R -> T -> MaybeReduced R * St) :
  forall (l1 l2 : list T) acc this,
    fst (reduceWithFunction (l1 ++ l2) f acc this)
    = (let first := fst (reduceWithFunction l1 f acc this) in
       if isReduced (fst first) then first
       else fst (reduceWithFunction l2 f (unreduced (fst first)) (snd first))).
Proof.
  induction l1 as [|x l1 IH]; intros l2 acc this.
  - reflexivity.
  - simpl. destruct (f this acc x) as [next this1].
    destruct (isReduced next) eqn:Hnext.
    + simpl. rewrite Hnext. reflexivity.
    + apply IH.
Qed.

(** [outcome] from the loop, for a stage whose init and finish are those of
    its downstream. *)
Lemma outcome_unfold {St R C T} (xf : CompletingTransformer St R C T) source this :
  outcome xf source this
  = (let i := xf_init xf this in
     let l := fst (reduceWithFunction source (xf_step xf) (fst i) (snd i)) in
     xf_result xf (snd l) (unreduced (fst l))).
Proof.
  unfold outcome. rewrite transduce_unfold. cbv zeta. cbn [fst].
  destruct (xf_result xf _ _); reflexivity.
Qed.

Section StatelessTransparent.
Context {St R C T U : Type}.
Variable xf : CompletingTransformer St R C T.

Lemma Filter_loop pred :
  forall (source : list T) acc this,
    fst (reduceWithFunction source (Filter_step xf pred) acc this)
    = fst (reduceWithFunction (List.filter pred source) (xf_step xf) acc this).
Proof.
  induction source as [|x source IH]; intros acc this; [reflexivity|].
  simpl. unfold Filter_step at 1. destruct (pred x); simpl.
  - destruct (xf_step xf this acc x) as [next this1].
    destruct (isReduced next); [reflexivity | apply IH].
  - apply IH.
Qed.

Lemma MapTransformer_loop (f : U -> T) :
  forall (source : list U) acc this,
    fst (reduceWithFunction source (MapTransformer_step xf f) acc this)
    = fst (reduceWithFunction (List.map f source) (xf_step xf) acc this).
Proof.
  induction source as [|x source IH]; intros acc this; [reflexivity|].
  simpl. unfold MapTransformer_step at 1.
  destruct (xf_step xf this acc (f x)) as [next this1].
  destruct (isReduced next); [reflexivity | apply IH].
Qed.

Lemma FlatMap_loop (g : U -> list T) :
  forall (source : list U) acc this,
    fst (reduceWithFunction source (FlatMap_step xf g) acc this)
    = fst (reduceWithFunction (flat_map g source) (xf_step xf) acc this).
Proof.
  induction source as [|x source IH]; intros acc this; [reflexivity|].
  cbn [reduceWithFunction flat_map]. rewrite reduceWithFunction_app.
  unfold FlatMap_step at 1. cbv zeta.
  destruct (fst (reduceWithFunction (g x) (xf_step xf) acc this)) as [next this1].
  cbn [fst snd]. destruct (isReduced next); [reflexivity | apply IH].
Qed.
End StatelessTransparent.

Lemma Filter_outcome {St R C T} (xf : CompletingTransformer St R C T) pred source this :
  outcome (Filter xf pred) source this = outcome xf (List.filter pred source) this.
Proof.
  rewrite !outcome_unfold. cbv zeta. cbn [xf_init xf_step xf_result Filter].
  rewrite Filter_loop. reflexivity.
Qed.

Lemma MapTransformer_outcome {St R C T U} (xf : CompletingTransformer St R C T)
    (f : U -> T) items this :
  outcome (MapTransformer xf f) items this = outcome xf (List.map f items) this.
Proof.
  rewrite !outcome_unfold. cbv zeta. cbn [xf_init xf_step xf_result MapTransformer].
  rewrite MapTransformer_loop. reflexivity.
Qed.

Lemma FlatMap_outcome {St R C T U} (xf : CompletingTransformer St R C T)
    (g : U -> list T) items this :
  outcome (FlatMap xf g) items this = outcome xf (flat_map g items) this.
Proof.
  rewrite !outcome_unfold. cbv zeta. cbn [xf_init xf_step xf_result FlatMap].
  rewrite FlatMap_loop. reflexivity.
Qed.

(** X5.  Over any downstream, signaling or not, and from any fields: driving
    [filter(pred)], [remove(pred)], [map(f)] or [flatMap(g)] gives the result
    and leaves the downstream in the state that driving the downstream alone
    gives over the filtered, mapped or concatenated list. *)
Theorem stateless_stages_transparent :
  forall {St R C T U} (xf : CompletingTransformer St R C T)
         (pred : T -> bool) (f : U -> T) (g : U -> list T)
         (source : list T) (items : list U) (this : St),
    outcome (filter pred xf) source this
    = outcome xf (List.filter pred source) this /\
    outcome (remove pred xf) source this
    = outcome xf (List.filter (fun item => negb (pred item)) source) this /\
    outcome (map f xf) items this = outcome xf (List.map f items) this /\
    outcome (flatMap g xf) items this = outcome xf (flat_map g items) this.
Proof.
  intros St R C T U xf pred f g source items this.
  split; [apply Filter_outcome|].
  split; [apply (Filter_outcome xf (fun item => negb (pred item)))|].
  split; [apply MapTransformer_outcome | apply FlatMap_outcome].
Qed.

Section CuttingTransparent.
Context {St R C T : Type}.
Variable xf : CompletingTransformer St R C T.

Lemma Take_loop (n : Z) :
  forall (source : list T) acc i this,
    i < n \/ n <= 0 ->
    let mine := fst (reduceWithFunction source (Take_step xf n) acc
                       {| Take_i := i; Take_xf := this |}) in
    let plain := fst (reduceWithFunction (firstn (Z.to_nat (n - i)) source)
                        (xf_step xf) acc this) in
    (0 <= i -> unreduced (fst mine) = unreduced (fst plain) /\
               Take_xf (snd mine) = snd plain).
Proof.
  induction source as [|x source IH]; intros acc i this Hi mine plain Hpos.
  - unfold mine, plain. rewrite firstn_nil. split; reflexivity.
  - unfold mine, plain. clear mine plain. cbn [reduceWithFunction].
    unfold Take_step at 1 3. cbn [Take_i Take_xf].
    destruct (Z.leb_spec n 0) as [Hn|Hn].
    + replace (Z.to_nat (n - i)) with 0%nat by lia. split; reflexivity.
    + destruct Hi as [Hi|Hi]; [|lia].
      replace (Z.to_nat (n - i)) with (S (Z.to_nat (n - (i + 1)))) by lia.
      cbn [firstn reduceWithFunction].
      destruct (xf_step xf this acc x) as [next this1].
      destruct (Z.ltb_spec i (n - 1)) as [Hlt|Hge].
      * destruct (isReduced next); [split; reflexivity|].
        apply IH; lia.
      * rewrite isReduced_ensureReduced.
        replace (Z.to_nat (n - (i + 1))) with 0%nat by lia.
        cbn [firstn reduceWithFunction fst snd Take_xf].
        rewrite unreduced_ensureReduced.
        destruct (isReduced next); split; reflexivity.
Qed.

Lemma TakeWhile_loop pred :
  forall (source : list T) acc this,
    let mine := fst (reduceWithFunction source (TakeWhile_step xf pred) acc this) in
    let plain := fst (reduceWithFunction (firstn (first_failing pred source) source)
                        (xf_step xf) acc this) in
    unreduced (fst mine) = unreduced (fst plain) /\ snd mine = snd plain.
Proof.
  induction source as [|x source IH]; intros acc this; [split; reflexivity|].
  cbn [reduceWithFunction first_failing]. unfold TakeWhile_step at 1 3.
  destruct (pred x).
  - cbn [firstn reduceWithFunction].
    destruct (xf_step xf this acc x) as [next this1].
    destruct (isReduced next); [split; reflexivity | apply IH].
  - split; reflexivity.
Qed.

Lemma Drop_loop (n : Z) :
  forall (source : list T) acc i this,
    let mine := fst (reduceWithFunction source (Drop_step xf n) acc
                       {| Drop_i := i; Drop_xf := this |}) in
    let plain := fst (reduceWithFunction (skipn (Z.to_nat (n - i)) source)
                        (xf_step xf) acc this) in
    fst mine = fst plain /\ Drop_xf (snd mine) = snd plain.
Proof.
  induction source as [|x source IH]; intros acc i this.
  - cbv zeta. rewrite skipn_nil. split; reflexivity.
  - cbv zeta. cbn [reduceWithFunction]. unfold Drop_step at 1 3. cbn [Drop_i Drop_xf].
    destruct (Z.ltb_spec i n) as [Hlt|Hge].
    + replace (Z.to_nat (n - i)) with (S (Z.to_nat (n - (i + 1)))) by lia.
      cbn [skipn isReduced unreduced]. apply IH.
    + replace (Z.to_nat (n - i)) with 0%nat by lia.
      cbn [skipn reduceWithFunction].
      destruct (xf_step xf this acc x) as [next this1].
      destruct (isReduced next); [split; reflexivity|].
      specialize (IH (unreduced next) (i + 1) this1). cbv zeta in IH.
      replace (Z.to_nat (n - (i + 1))) with 0%nat in IH by lia. exact IH.
Qed.

(** [DropWhile] once dropping is over. *)
Lemma DropWhile_loop_passing pred :
  forall (source : list T) acc this,
    let mine := fst (reduceWithFunction source (DropWhile_step xf pred)
                       {| DropWhile_value := acc; DropWhile_isDoneDropping := true |}
                       this) in
    let plain := fst (reduceWithFunction source (xf_step xf) acc this) in
    DropWhile_value (unreduced (fst mine)) = unreduced (fst plain) /\
    snd mine = snd plain.
Proof.
  induction source as [|x source IH]; intros acc this; [split; reflexivity|].
  cbv zeta. cbn [reduceWithFunction]. unfold DropWhile_step at 1 3.
  cbn [DropWhile_isDoneDropping value ValueWrapper_DropWhileState DropWhile_value].
  destruct (xf_step xf this acc x) as [next this1].
  rewrite isReduced_updateValue, unreduced_updateValue.
  destruct (isReduced next) eqn:Hnext.
  - cbn [fst snd]. rewrite unreduced_updateValue. split; reflexivity.
  - apply IH.
Qed.

Lemma DropWhile_loop pred :
  forall (source : list T) acc this,
    let mine := fst (reduceWithFunction source (DropWhile_step xf pred)
                       {| DropWhile_value := acc; DropWhile_isDoneDropping := false |}
                       this) in
    let plain := fst (reduceWithFunction (skipn (first_failing pred source) source)
                        (xf_step xf) acc this) in
    DropWhile_value (unreduced (fst mine)) = unreduced (fst plain) /\
    snd mine = snd plain.
Proof.
  induction source as [|x source IH]; intros acc this; [split; reflexivity|].
  cbv zeta. cbn [reduceWithFunction first_failing]. unfold DropWhile_step at 1 3.
  cbn [DropWhile_isDoneDropping value ValueWrapper_DropWhileState DropWhile_value].
  destruct (pred x).
  - cbn [skipn isReduced unreduced]. apply IH.
  - cbn [skipn reduceWithFunction].
    destruct (xf_step xf this acc x) as [next this1].
    rewrite isReduced_updateValue, unreduced_updateValue.
    destruct (isReduced next) eqn:Hnext.
    + cbn [fst snd]. rewrite unreduced_updateValue. split; reflexivity.
    + apply (DropWhile_loop_passing pred source (unreduced next) this1).
Qed.

Lemma every_nth_cons (n : Z) (i : nat) (x : T) (l : list T) :
  every_nth n i (x :: l)
  = if Z.rem (Z.of_nat i) n =? 0 then x :: every_nth n (S i) l
    else every_nth n (S i) l.
Proof.
  unfold every_nth. simpl. destruct (Z.rem (Z.of_nat i) n =? 0); reflexivity.
Qed.

Lemma TakeNth_loop (n : Z) :
  forall (source : list T) acc (i : nat) this,
    let mine := fst (reduceWithFunction source (TakeNth_step xf n)
                       {| TakeNth_value := acc; TakeNth_i := Z.of_nat i |} this) in
    let plain := fst (reduceWithFunction (every_nth n i source) (xf_step xf) acc this) in
    TakeNth_value (unreduced (fst mine)) = unreduced (fst plain) /\
    snd mine = snd plain.
Proof.
  induction source as [|x source IH]; intros acc i this; [split; reflexivity|].
  cbv zeta. rewrite every_nth_cons. cbn [reduceWithFunction].
  unfold TakeNth_step at 1 3.
  cbn [TakeNth_i TakeNth_value value ValueWrapper_TakeNthState].
  replace (Z.of_nat i + 1) with (Z.of_nat (S i)) by lia.
  destruct (Z.rem (Z.of_nat i) n =? 0).
  - cbn [reduceWithFunction].
    destruct (xf_step xf this acc x) as [next this1].
    rewrite isReduced_updateValue, unreduced_updateValue.
    destruct (isReduced next) eqn:Hnext.
    + cbn [fst snd]. rewrite unreduced_updateValue. split; reflexivity.
    + apply (IH (unreduced next) (S i) this1).
  - cbn [isReduced unreduced]. apply (IH acc (S i) this).
Qed.
End CuttingTransparent.

Section CuttingOutcome.
Context {St R C T : Type}.
Variable xf : CompletingTransformer St R C T.

Lemma Take_outcome n source this :
  let mine := outcome (Take xf n) source {| Take_i := 0; Take_xf := this |} in
  (fst mine, Take_xf (snd mine)) = outcome xf (firstn (Z.to_nat n) source) this.
Proof.
  cbv zeta. rewrite !outcome_unfold. cbv zeta.
  cbn [xf_init xf_step xf_result Take]. unfold Take_init. cbn [Take_i Take_xf].
  destruct (xf_init xf this) as [acc this0]. cbn [fst snd].
  assert (Hi : 0 < n \/ n <= 0) by lia.
  destruct (@Take_loop St R C T xf n source acc 0 this0 Hi (Z.le_refl 0))
    as [Hacc Hthis].
  rewrite Z.sub_0_r in Hacc, Hthis. unfold Take_result.
  rewrite Hacc, Hthis.
  destruct (xf_result xf _ _); reflexivity.
Qed.

Lemma TakeWhile_outcome pred source this :
  outcome (TakeWhile xf pred) source this
  = outcome xf (firstn (first_failing pred source) source) this.
Proof.
  rewrite !outcome_unfold. cbv zeta. cbn [xf_init xf_step xf_result TakeWhile].
  destruct (@TakeWhile_loop St R C T xf pred source (fst (xf_init xf this))
              (snd (xf_init xf this))) as [Hacc Hthis].
  rewrite Hacc, Hthis. reflexivity.
Qed.

Lemma Drop_outcome n source this :
  let mine := outcome (Drop xf n) source {| Drop_i := 0; Drop_xf := this |} in
  (fst mine, Drop_xf (snd mine)) = outcome xf (skipn (Z.to_nat n) source) this.
Proof.
  cbv zeta. rewrite !outcome_unfold. cbv zeta.
  cbn [xf_init xf_step xf_result Drop]. unfold Drop_init. cbn [Drop_i Drop_xf].
  destruct (xf_init xf this) as [acc this0]. cbn [fst snd].
  destruct (@Drop_loop St R C T xf n source acc 0 this0) as [Hacc Hthis].
  rewrite Z.sub_0_r in Hacc, Hthis. unfold Drop_result.
  rewrite Hacc, Hthis.
  destruct (xf_result xf _ _); reflexivity.
Qed.

Lemma DropWhile_outcome pred source this :
  outcome (DropWhile xf pred) source this
  = outcome xf (skipn (first_failing pred source) source) this.
Proof.
  rewrite !outcome_unfold. cbv zeta.
  cbn [xf_init xf_step xf_result DropWhile]. unfold DropWhile_init.
  destruct (xf_init xf this) as [acc this0]. cbn [fst snd].
  destruct (@DropWhile_loop St R C T xf pred source acc this0) as [Hacc Hthis].
  unfold DropWhile_result. cbn [value ValueWrapper_DropWhileState].
  rewrite Hacc, Hthis. reflexivity.
Qed.

Lemma TakeNth_outcome n source this :
  outcome (TakeNth xf n) source this = outcome xf (every_nth n 0 source) this.
Proof.
  rewrite !outcome_unfold. cbv zeta.
  cbn [xf_init xf_step xf_result TakeNth]. unfold TakeNth_init.
  destruct (xf_init xf this) as [acc this0]. cbn [fst snd].
  destruct (@TakeNth_loop St R C T xf n source acc 0%nat this0) as [Hacc Hthis].
  unfold TakeNth_result. cbn [value ValueWrapper_TakeNthState].
  cbn [Z.of_nat] in Hacc, Hthis. rewrite Hacc, Hthis. reflexivity.
Qed.
End CuttingOutcome.

(** X6.  Over any downstream, signaling or not: a newly built [take(n)]
    behaves as the downstream driven over the first [n] elements (none when
    [n <= 0]), [takeWhile(pred)] as over the elements before the first
    failure of [pred], a newly built [drop(n)] as over the input without its
    first [n] elements, [dropWhile(pred)] as over the elements from the first
    failure on, and [TakeNth] as over the elements at the positions
    0, n, 2n, ...: same result of finish, same fields of the downstream
    afterwards. *)
Theorem cutting_stages_transparent :
  forall {St R C T} (xf : CompletingTransformer St R C T)
         (n : Z) (pred : T -> bool) (source : list T) (this : St),
    (let mine := outcome (take n xf) source {| Take_i := 0; Take_xf := this |} in
     (fst mine, Take_xf (snd mine))
     = outcome xf (firstn (Z.to_nat n) source) this) /\
    outcome (takeWhile pred xf) source this
    = outcome xf (firstn (first_failing pred source) source) this /\
    (let mine := outcome (drop n xf) source {| Drop_i := 0; Drop_xf := this |} in
     (fst mine, Drop_xf (snd mine))
     = outcome xf (skipn (Z.to_nat n) source) this) /\
    outcome (dropWhile pred xf) source this
    = outcome xf (skipn (first_failing pred source) source) this /\
    outcome (TakeNth xf n) source this = outcome xf (every_nth n 0 source) this.
Proof.
  intros St R C T xf n pred source this.
  split; [apply Take_outcome|].
  split; [apply TakeWhile_outcome|].
  split; [apply Drop_outcome|].
  split; [apply DropWhile_outcome | apply TakeNth_outcome].
Qed.

Section BufferingTransparent.
Context {St R C T : Type}.
Variable xf : CompletingTransformer St R C T.

Lemma Dedupe_loop `{StrictEq T} :
  forall (source : list T) acc (last prev : T) this,
    last = prev \/ strict_eq prev last = true ->
    let mine := fst (reduceWithFunction source (Dedupe_step xf)
                       {| Dedupe_last := Known last; Dedupe_value := acc |} this) in
    let plain := fst (reduceWithFunction (dedupe_after prev source)
                        (xf_step xf) acc this) in
    Dedupe_value (unreduced (fst mine)) = unreduced (fst plain) /\
    snd mine = snd plain.
Proof.
  induction source as [|x source IH]; intros acc last prev this Hlast;
    [split; reflexivity|].
  assert (Hcmp : strict_eq x last = strict_eq x prev).
  { destruct Hlast as [->|Hlast]; [reflexivity|].
    symmetry. apply strict_eq_congr. exact Hlast. }
  cbv zeta. cbn [reduceWithFunction dedupe_after]. unfold Dedupe_step at 1 3.
  cbn [Dedupe_differs Dedupe_last Dedupe_value value ValueWrapper_DedupeState].
  rewrite <- Hcmp. destruct (strict_eq x last) eqn:Hx; cbn [negb].
  - cbn [isReduced unreduced]. apply IH. right. exact Hx.
  - cbn [reduceWithFunction].
    destruct (xf_step xf this acc x) as [next this1].
    rewrite isReduced_updateValue, unreduced_updateValue.
    destruct (isReduced next) eqn:Hnext.
    + cbn [fst snd]. rewrite unreduced_updateValue. split; reflexivity.
    + apply (IH (unreduced next) x x this1). left. reflexivity.
Qed.

Lemma Interpose_loop (separator : T) :
  forall (source : list T) acc this,
    let mine := fst (reduceWithFunction source (Interpose_step xf separator) acc
                       {| Interpose_isStarted := true; Interpose_xf := this |}) in
    let plain := fst (reduceWithFunction
                        (flat_map (fun y => [separator; y]) source)
                        (xf_step xf) acc this) in
    fst mine = fst plain /\ Interpose_xf (snd mine) = snd plain.
Proof.
  induction source as [|x source IH]; intros acc this; [split; reflexivity|].
  cbv zeta. cbn [reduceWithFunction flat_map app]. unfold Interpose_step at 1 3.
  cbn [Interpose_isStarted Interpose_xf].
  destruct (xf_step xf this acc separator) as [w this1].
  destruct (isReduced w) eqn:Hw.
  - rewrite Hw. split; reflexivity.
  - destruct (xf_step xf this1 (unreduced w) x) as [next this2].
    destruct (isReduced next); [split; reflexivity | apply IH].
Qed.
End BufferingTransparent.

Lemma PartitionAll_step_eq {St R C T} (xf : CompletingTransformer St R C (list T))
    (n : Z) buffer this acc x :
  PartitionAll_step xf n
    {| PartitionAll_buffer := buffer; PartitionAll_xf := this |} acc x
  = if Z.of_nat (length (buffer ++ [x])) =? n then
      (fst (xf_step xf this acc (buffer ++ [x])),
       {| PartitionAll_buffer := [];
          PartitionAll_xf := snd (xf_step xf this acc (buffer ++ [x])) |})
    else
      (Plain acc,
       {| PartitionAll_buffer := buffer ++ [x]; PartitionAll_xf := this |}).
Proof.
  unfold PartitionAll_step. cbn [PartitionAll_buffer PartitionAll_xf].
  destruct (Z.of_nat (length (buffer ++ [x])) =? n); [|reflexivity].
  destruct (xf_step xf this acc (buffer ++ [x])); reflexivity.
Qed.

Section PartitionAllTransparent.
Context {St R C T : Type}.
Variable xf : CompletingTransformer St R C (list T).
Variable n : Z.

(** The loop of [PartitionAll] over [xf] and the loop over the array builder
    side by side: the groups that reach the array are the groups that [xf]
    is stepped with, up to the one it answers with a signaled result. *)
Lemma PartitionAll_lockstep :
  forall (source : list T) buffer acc this (array : list (list T)),
    exists groups buffer',
      reduceWithFunction source (PartitionAll_step (pushTransformer (list T)) n)
        array {| PartitionAll_buffer := buffer; PartitionAll_xf := tt |}
      = (Plain (array ++ groups),
         {| PartitionAll_buffer := buffer'; PartitionAll_xf := tt |}, []) /\
      let mine := fst (reduceWithFunction source (PartitionAll_step xf n) acc
                         {| PartitionAll_buffer := buffer; PartitionAll_xf := this |}) in
      let plain := fst (reduceWithFunction groups (xf_step xf) acc this) in
      fst mine = fst plain /\
      PartitionAll_xf (snd mine) = snd plain /\
      PartitionAll_buffer (snd mine) = (if isReduced (fst plain) then [] else buffer').
Proof.
  induction source as [|x source IH]; intros buffer acc this array.
  - exists [], buffer. cbn. rewrite app_nil_r. auto.
  - cbn [reduceWithFunction]. rewrite !PartitionAll_step_eq.
    destruct (Z.of_nat (length (buffer ++ [x])) =? n).
    + cbn [xf_step pushTransformer isReduced unreduced fst snd].
      destruct (xf_step xf this acc (buffer ++ [x])) as [next this1] eqn:Estep.
      destruct (IH [] (unreduced next) this1 (aPush array (buffer ++ [x])))
        as (groups & buffer' & Epush & Hmine).
      exists ((buffer ++ [x]) :: groups), buffer'. split.
      * rewrite Epush. unfold aPush. rewrite <- app_assoc. reflexivity.
      * cbn [reduceWithFunction fst snd]. rewrite Estep.
        destruct (isReduced next) eqn:Hnext.
        -- cbn [fst snd PartitionAll_xf PartitionAll_buffer]. rewrite Hnext. auto.
        -- exact Hmine.
    + cbn [isReduced unreduced].
      destruct (IH (buffer ++ [x]) acc this array) as (groups & buffer' & Epush & Hmine).
      exists groups, buffer'. split; [exact Epush | exact Hmine].
Qed.
End PartitionAllTransparent.

Lemma Dedupe_step_first {St R C T} `{StrictEq T}
    (xf : CompletingTransformer St R C T) this acc x :
  Dedupe_step xf this {| Dedupe_last := INITIAL; Dedupe_value := acc |} x
  = (updateValue {| Dedupe_last := Known x; Dedupe_value := acc |}
       (fst (xf_step xf this acc x)),
     snd (xf_step xf this acc x)).
Proof.
  unfold Dedupe_step. cbn. destruct (xf_step xf this acc x); reflexivity.
Qed.

Lemma Interpose_step_first {St R C T} (xf : CompletingTransformer St R C T)
    separator this acc x :
  Interpose_step xf separator
    {| Interpose_isStarted := false; Interpose_xf := this |} acc x
  = (fst (xf_step xf this acc x),
     {| Interpose_isStarted := true; Interpose_xf := snd (xf_step xf this acc x) |}).
Proof.
  unfold Interpose_step. cbn. destruct (xf_step xf this acc x); reflexivity.
Qed.

Lemma Dedupe_outcome {St R C T} `{StrictEq T}
    (xf : CompletingTransformer St R C T) source this :
  outcome (Dedupe xf) source this = outcome xf (dedupe_spec source) this.
Proof.
  rewrite !outcome_unfold. cbv zeta.
  cbn [xf_init xf_step xf_result Dedupe]. unfold Dedupe_init.
  destruct (xf_init xf this) as [acc this0]. cbn [fst snd].
  unfold Dedupe_result. cbn [value ValueWrapper_DedupeState].
  destruct source as [|x source]; [reflexivity|].
  cbn [reduceWithFunction dedupe_spec]. rewrite !Dedupe_step_first.
  destruct (xf_step xf this0 acc x) as [next this1]. cbn [fst snd].
  rewrite isReduced_updateValue, unreduced_updateValue.
  destruct (isReduced next) eqn:Hnext.
  + cbn [fst snd]. rewrite unreduced_updateValue. reflexivity.
  + destruct (@Dedupe_loop St R C T xf H source (unreduced next) x x this1
                (or_introl eq_refl)) as [Hacc Hthis].
    cbn [set_value ValueWrapper_DedupeState Dedupe_last].
    rewrite Hacc, Hthis. reflexivity.
Qed.

Lemma Interpose_outcome {St R C T} (xf : CompletingTransformer St R C T)
    separator source this :
  let mine := outcome (Interpose xf separator) source
                {| Interpose_isStarted := false; Interpose_xf := this |} in
  (fst mine, Interpose_xf (snd mine))
  = outcome xf (interpose_spec separator source) this.
Proof.
  cbv zeta. rewrite !outcome_unfold. cbv zeta.
  cbn [xf_init xf_step xf_result Interpose]. unfold Interpose_init.
  cbn [Interpose_isStarted Interpose_xf].
  destruct (xf_init xf this) as [acc this0]. cbn [fst snd].
  unfold Interpose_result.
  destruct source as [|x source].
  + cbn. destruct (xf_result xf this0 acc); reflexivity.
  + cbn [reduceWithFunction interpose_spec]. rewrite !Interpose_step_first.
    destruct (xf_step xf this0 acc x) as [next this1]. cbn [fst snd].
    destruct (isReduced next) eqn:Hnext.
    * cbn [fst snd Interpose_xf]. destruct (xf_result xf this1 _); reflexivity.
    * destruct (@Interpose_loop St R C T xf separator source (unreduced next) this1)
        as [Hacc Hthis].
      rewrite Hacc, Hthis. destruct (xf_result xf _ _); reflexivity.
Qed.

Lemma PartitionAll_outcome {St R C T} (xf : CompletingTransformer St R C (list T))
    n (source : list T) this :
  let mine := outcome (PartitionAll xf n) source
                {| PartitionAll_buffer := []; PartitionAll_xf := this |} in
  (fst mine, PartitionAll_xf (snd mine))
  = outcome xf (toArray (fun down => PartitionAll down n) source) this /\
  PartitionAll_buffer (snd mine) = [].
Proof.
  cbv zeta. unfold toArray. rewrite transduce_unfold, !outcome_unfold. cbv zeta.
  cbn [xf_init xf_step xf_result xf_new PartitionAll].
  unfold PartitionAll_init, PartitionAll_new.
  cbn [PartitionAll_buffer PartitionAll_xf]. cbn [xf_init xf_new pushTransformer].
  destruct (xf_init xf this) as [acc this0]. cbn [fst snd].
  destruct (PartitionAll_lockstep xf n source [] acc this0 [])
    as (groups & buffer' & Epush & Hfst & Hxf & Hbuf).
  cbv zeta in Hfst, Hxf, Hbuf.
  change (PartitionAll_step
            {| xf_new := tt; xf_init := fun this1 : unit => ([], this1);
               xf_result := fun (this1 : unit) (x : list (list T)) => (x, this1);
               xf_step := fun (this1 : unit) (array : list (list T)) (x : list T) =>
                            (Plain (aPush array x), this1) |})
    with (PartitionAll_step (pushTransformer (list T))).
  rewrite Epush. cbn [fst snd unreduced app].
  set (mine := fst (reduceWithFunction source (PartitionAll_step xf n) acc
                      {| PartitionAll_buffer := []; PartitionAll_xf := this0 |})) in *.
  set (plain := fst (reduceWithFunction groups (xf_step xf) acc this0)) in *.
  assert (Hfinish :
    let mine' := PartitionAll_result xf (snd mine) (unreduced (fst mine)) in
    (fst mine', PartitionAll_xf (snd mine'))
    = (let all := fst (reduceWithFunction
                         (groups ++ match buffer' with [] => [] | _ => [buffer'] end)
                         (xf_step xf) acc this0) in
       xf_result xf (snd all) (unreduced (fst all))) /\
    PartitionAll_buffer (snd mine') = []).
  { cbv zeta. rewrite reduceWithFunction_app. fold plain. cbv zeta.
    split; [|apply PartitionAll_result_empties].
    unfold PartitionAll_result. rewrite Hbuf.
    destruct (isReduced (fst plain)) eqn:Hplain.
    - cbn. rewrite Hxf, Hfst.
      destruct (xf_result xf (snd plain) (unreduced (fst plain))); reflexivity.
    - destruct buffer' as [|b buffer'].
      + cbn. rewrite Hxf, Hfst.
        destruct (xf_result xf (snd plain) (unreduced (fst plain))); reflexivity.
      + cbn [length Z.of_nat Z.ltb Z.compare reduceWithFunction].
        rewrite Hxf, Hfst.
        destruct (xf_step xf (snd plain) (unreduced (fst plain)) (b :: buffer'))
          as [r s].
        cbn [fst snd PartitionAll_xf PartitionAll_buffer].
        destruct (isReduced r) eqn:Hr; cbn [fst snd unreduced];
          destruct (xf_result xf s (unreduced r)); reflexivity. }
  cbv zeta in Hfinish. destruct Hfinish as [Hout Hempty].
  split; [|exact Hempty].
  assert (Harray :
    fst (PartitionAll_result (pushTransformer (list T))
           {| PartitionAll_buffer := buffer'; PartitionAll_xf := tt |} groups)
    = groups ++ match buffer' with [] => [] | _ => [buffer'] end).
  { destruct buffer'; cbn; [rewrite app_nil_r|]; reflexivity. }
  rewrite Harray, Hout. reflexivity.
Qed.

(** X7.  Over any downstream, signaling or not: [dedupe()] behaves as the
    downstream driven over the input without the elements that are [===] to
    their predecessor, a newly built [interpose(sep)] as over the interposed
    list, and a newly built [PartitionAll] as over the list of groups that
    [toArray] returns for it: same result of finish, same fields of the
    downstream afterwards.  [PartitionAll] ends with an empty buffer. *)
Theorem buffering_stages_transparent :
  forall {St R C T} `{StrictEq T} (xf : CompletingTransformer St R C T)
         (xfs : CompletingTransformer St R C (list T))
         (n : Z) (separator : T) (source : list T) (this : St),
    outcome (dedupe xf) source this = outcome xf (dedupe_spec source) this /\
    (let mine := outcome (interpose separator xf) source
                   {| Interpose_isStarted := false; Interpose_xf := this |} in
     (fst mine, Interpose_xf (snd mine))
     = outcome xf (interpose_spec separator source) this) /\
    (let mine := outcome (PartitionAll xfs n) source
                   {| PartitionAll_buffer := []; PartitionAll_xf := this |} in
     (fst mine, PartitionAll_xf (snd mine))
     = outcome xfs (toArray (fun down => PartitionAll down n) source) this /\
     PartitionAll_buffer (snd mine) = []).
Proof.
  intros St R C T HT xf xfs n separator source this.
  split; [apply Dedupe_outcome|].
  split; [apply Interpose_outcome | apply PartitionAll_outcome].
Qed.

Section PartitionByTransparent.
Context {St R C T K : Type} `{StrictEq K}.
Variable xf : CompletingTransformer St R C (list T).
Variable f : T -> K.
Hypothesis Hplain : never_done xf.

Lemma PartitionBy_step_flush_plain this (result : PartitionByState R T K) input :
  PartitionBy_sameGroup (PartitionBy_lastKey result) (f input) = false ->
  PartitionBy_step xf f this result input
  = (Plain {| PartitionBy_value :=
                unreduced (fst (xf_step xf this (PartitionBy_value result)
                                  (PartitionBy_buffer result)));
              PartitionBy_buffer := [input];
              PartitionBy_lastKey := Known (f input) |},
     snd (xf_step xf this (PartitionBy_value result) (PartitionBy_buffer result))).
Proof.
  intros Hchange.
  destruct (PartitionBy_step_flush xf f this result input Hchange)
    as (Hthis & Hred & Hval).
  rewrite Hplain in Hred.
  destruct (PartitionBy_step xf f this result input) as [answer this'].
  cbn [fst snd] in *. subst this'. destruct answer; cbn in *; congruence.
Qed.

(** Over a downstream that never signals, the loop of [PartitionBy] started
    with a pending run and then finish: the downstream sees the pending run
    joined to the groups of the rest. *)
Lemma PartitionBy_loop :
  forall (source : list T) value pre b this,
    let mine := fst (reduceWithFunction source (PartitionBy_step xf f)
                       {| PartitionBy_value := value;
                          PartitionBy_buffer := pre ++ [b];
                          PartitionBy_lastKey := Known (f b) |} this) in
    let plain := fst (reduceWithFunction
                        (join_group f (pre ++ [b]) (groupBy_spec f source))
                        (xf_step xf) value this) in
    PartitionBy_result xf (snd mine) (unreduced (fst mine))
    = xf_result xf (snd plain) (unreduced (fst plain)).
Proof.
  induction source as [|x source IH]; intros value pre b this.
  - cbv zeta. cbn [reduceWithFunction groupBy_spec join_group fst snd unreduced].
    rewrite PartitionBy_result_flush by (cbn; destruct pre; discriminate).
    cbn [PartitionBy_value PartitionBy_buffer].
    pose proof (Hplain this value (pre ++ [b])) as Hnot.
    destruct (xf_step xf this value (pre ++ [b])) as [next this1].
    cbn [fst] in Hnot. rewrite Hnot. reflexivity.
  - cbv zeta. cbn [reduceWithFunction]. rewrite (groupBy_spec_cons f x source).
    destruct (strict_eq (f b) (f x)) eqn:Hbx.
    + rewrite !PartitionBy_step_join by exact Hbx.
      cbn [isReduced unreduced PartitionBy_value PartitionBy_buffer].
      rewrite <- join_group_same by exact Hbx.
      apply (IH value (pre ++ [b]) x this).
    + rewrite !PartitionBy_step_flush_plain by exact Hbx.
      cbn [isReduced unreduced PartitionBy_value PartitionBy_buffer].
      rewrite <- (join_group_change f pre) by exact Hbx.
      cbn [reduceWithFunction].
      pose proof (Hplain this value (pre ++ [b])) as Hnot.
      destruct (xf_step xf this value (pre ++ [b])) as [next this1].
      cbn [fst snd] in *. rewrite Hnot.
      apply (IH (unreduced next) [] x this1).
Qed.
End PartitionByTransparent.

Lemma PartitionBy_outcome {St R C T K} `{StrictEq K}
    (xf : CompletingTransformer St R C (list T)) (f : T -> K) source this :
  never_done xf ->
  outcome (PartitionBy xf f) source this = outcome xf (groupBy_spec f source) this.
Proof.
  intros Hplain. rewrite !outcome_unfold. cbv zeta.
  cbn [xf_init xf_step xf_result PartitionBy]. unfold PartitionBy_init.
  destruct (xf_init xf this) as [value this0]. cbn [fst snd].
  destruct source as [|x source]; [reflexivity|].
  cbn [reduceWithFunction]. rewrite !PartitionBy_step_join by reflexivity.
  cbn [isReduced unreduced PartitionBy_value PartitionBy_buffer app].
  rewrite groupBy_spec_cons.
  apply (@PartitionBy_loop St R C T K H xf f Hplain source value [] x this0).
Qed.

(** X8.  Over a downstream whose step never answers signaled, [partitionBy(f)]
    behaves as the downstream driven over the groups of consecutive elements
    with [===] keys: same result of finish, same fields of the downstream
    afterwards. *)
Theorem PartitionBy_transparent :
  forall {St R C T K} `{StrictEq K} (xf : CompletingTransformer St R C (list T))
         (f : T -> K) (source : list T) (this : St),
    never_done xf ->
    outcome (partitionBy f xf) source this = outcome xf (groupBy_spec f source) this.
Proof.
  intros St R C T K HK xf f source this Hplain.
  apply PartitionBy_outcome. exact Hplain.
Qed.

Lemma pushTransformer_never_done {T} : never_done (pushTransformer T).
Proof. intros this result input. reflexivity. Qed.

Lemma PartitionBy_transparent_witness :
  outcome (partitionBy (fun z : Z => z) (pushTransformer (list Z))) [1; 1; 2] tt
  = outcome (pushTransformer (list Z)) (groupBy_spec (fun z : Z => z) [1; 1; 2]) tt.
Proof.
  apply PartitionBy_transparent.
  intros this result input. reflexivity.
Defined.

(* ===================================================================== *)
(** ** Stages that never end a traversal themselves *)
(* ===================================================================== *)

(** A loop whose steps never answer signaled pulls the whole source. *)
Lemma never_done_loop {St R C T} (xf : CompletingTransformer St R C T) :
  never_done xf ->
  forall (source : list T) acc this,
    isReduced (fst (fst (reduceWithFunction source (xf_step xf) acc this))) = false /\
    snd (reduceWithFunction source (xf_step xf) acc this) = [].
Proof.
  intros Hplain. induction source as [|x source IH]; intros acc this.
  - split; reflexivity.
  - cbn [reduceWithFunction]. pose proof (Hplain this acc x) as Hnot.
    destruct (xf_step xf this acc x) as [next this1]. cbn [fst] in Hnot.
    rewrite Hnot. apply IH.
Qed.

Section Sustaining.
Context {St R C T : Type}.
Variable xf : CompletingTransformer St R C T.
Hypothesis Hplain : never_done xf.

Lemma Filter_never_done pred : never_done (Filter xf pred).
Proof.
  intros this acc x. cbn. unfold Filter_step.
  destruct (pred x); [apply Hplain | reflexivity].
Qed.

Lemma MapTransformer_never_done {U} (f : U -> T) : never_done (MapTransformer xf f).
Proof. intros this acc x. apply Hplain. Qed.

Lemma FlatMap_never_done {U} (g : U -> list T) : never_done (FlatMap xf g).
Proof.
  intros this acc x. cbn [xf_step FlatMap]. unfold FlatMap_step.
  apply (never_done_loop Hplain).
Qed.

Lemma Drop_never_done n : never_done (Drop xf n).
Proof.
  intros this acc x. cbn. unfold Drop_step. destruct (Drop_i this <? n); [reflexivity|].
  pose proof (Hplain (Drop_xf this) acc x) as Hnot.
  destruct (xf_step xf (Drop_xf this) acc x). exact Hnot.
Qed.

Lemma DropWhile_never_done pred : never_done (DropWhile xf pred).
Proof.
  intros this acc x. cbn. unfold DropWhile_step.
  destruct (DropWhile_isDoneDropping acc); [|destruct (pred x); [reflexivity|]];
    cbn [value ValueWrapper_DropWhileState DropWhile_value];
    pose proof (Hplain this (DropWhile_value acc) x) as Hnot;
    destruct (xf_step xf this (DropWhile_value acc) x);
    cbn [fst] in *; rewrite isReduced_updateValue; exact Hnot.
Qed.

Lemma Dedupe_never_done `{StrictEq T} : never_done (Dedupe xf).
Proof.
  intros this acc x. cbn. unfold Dedupe_step.
  destruct (Dedupe_differs x (Dedupe_last acc)); [|reflexivity].
  cbn [value ValueWrapper_DedupeState Dedupe_value].
  pose proof (Hplain this (Dedupe_value acc) x) as Hnot.
  destruct (xf_step xf this (Dedupe_value acc) x).
  cbn [fst] in *. rewrite isReduced_updateValue. exact Hnot.
Qed.

Lemma Interpose_never_done separator : never_done (Interpose xf separator).
Proof.
  intros this acc x. cbn. unfold Interpose_step.
  destruct (Interpose_isStarted this).
  - pose proof (Hplain (Interpose_xf this) acc separator) as Hsep.
    destruct (xf_step xf (Interpose_xf this) acc separator) as [w this1].
    cbn [fst] in Hsep. rewrite Hsep.
    pose proof (Hplain this1 (unreduced w) x) as Hnot.
    destruct (xf_step xf this1 (unreduced w) x). exact Hnot.
  - pose proof (Hplain (Interpose_xf this) acc x) as Hnot.
    destruct (xf_step xf (Interpose_xf this) acc x). exact Hnot.
Qed.

Lemma TakeNth_never_done n : never_done (TakeNth xf n).
Proof.
  intros this acc x. cbn. unfold TakeNth_step.
  destruct (Z.rem (TakeNth_i acc) n =? 0); [|reflexivity].
  cbn [value ValueWrapper_TakeNthState TakeNth_value].
  pose proof (Hplain this (TakeNth_value acc) x) as Hnot.
  destruct (xf_step xf this (TakeNth_value acc) x).
  cbn [fst] in *. rewrite isReduced_updateValue. exact Hnot.
Qed.
End Sustaining.

Section SustainingGroups.
Context {St R C T : Type}.
Variable xf : CompletingTransformer St R C (list T).
Hypothesis Hplain : never_done xf.

Lemma PartitionAll_never_done n : never_done (PartitionAll xf n).
Proof.
  intros this acc x. cbn. unfold PartitionAll_step.
  destruct (Z.of_nat (length (PartitionAll_buffer this ++ [x])) =? n); [|reflexivity].
  pose proof (Hplain (PartitionAll_xf this) acc (PartitionAll_buffer this ++ [x]))
    as Hnot.
  destruct (xf_step xf (PartitionAll_xf this) acc (PartitionAll_buffer this ++ [x])).
  exact Hnot.
Qed.

Lemma PartitionBy_never_done {K} `{StrictEq K} (f : T -> K) :
  never_done (PartitionBy xf f).
Proof.
  intros this acc x. cbn. unfold PartitionBy_step.
  destruct (PartitionBy_sameGroup (PartitionBy_lastKey acc) (f x)); [reflexivity|].
  pose proof (Hplain this (PartitionBy_value acc) (PartitionBy_buffer acc)) as Hnot.
  destruct (xf_step xf this (PartitionBy_value acc) (PartitionBy_buffer acc)).
  cbn [fst] in *.
  rewrite !isReduced_on_unreduced, isReduced_updateValue. exact Hnot.
Qed.
End SustainingGroups.

(** X9.  Only [take] and [takeWhile] end a traversal of their own accord.
    Over a downstream whose step never answers signaled, the step of
    [filter], [remove], [map], [flatMap], [drop], [dropWhile], [dedupe],
    [interpose], [PartitionAll], [partitionBy] and [TakeNth] never answers
    signaled either, so these stages can be stacked in any number and order;
    and driving a chain whose step never answers signaled pulls the source to
    its end. *)
Theorem sustaining_stages :
  forall {St R C T U K} `{StrictEq T} `{StrictEq K}
         (xf : CompletingTransformer St R C T)
         (xfs : CompletingTransformer St R C (list T))
         (pred : T -> bool) (f : U -> T) (g : U -> list T) (key : T -> K)
         (n : Z) (separator : T),
    never_done xf ->
    never_done xfs ->
    (never_done (filter pred xf) /\
     never_done (remove pred xf) /\
     never_done (map f xf) /\
     never_done (flatMap g xf) /\
     never_done (drop n xf) /\
     never_done (dropWhile pred xf) /\
     never_done (dedupe xf) /\
     never_done (interpose separator xf) /\
     never_done (PartitionAll xfs n) /\
     never_done (partitionBy key xfs) /\
     never_done (TakeNth xf n)) /\
    (forall (source : list T) (this : St), snd (transduce xf source this) = []).
Proof.
  intros St R C T U K HT HK xf xfs pred f g key n separator Hxf Hxfs.
  split.
  - split; [apply Filter_never_done; exact Hxf|].
    split; [apply (Filter_never_done Hxf)|].
    split; [apply MapTransformer_never_done; exact Hxf|].
    split; [apply FlatMap_never_done; exact Hxf|].
    split; [apply Drop_never_done; exact Hxf|].
    split; [apply DropWhile_never_done; exact Hxf|].
    split; [apply Dedupe_never_done; exact Hxf|].
    split; [apply Interpose_never_done; exact Hxf|].
    split; [apply PartitionAll_never_done; exact Hxfs|].
    split; [apply PartitionBy_never_done; exact Hxfs|].
    apply TakeNth_never_done; exact Hxf.
  - intros source this. rewrite transduce_unfold. cbv zeta. cbn [snd].
    apply (never_done_loop Hxf).
Qed.

Lemma sustaining_stages_witness :
  never_done (dedupe (pushTransformer Z)) /\
  snd (transduce (pushTransformer Z) [1; 2; 3] tt) = [].
Proof.
  destruct (@sustaining_stages unit (list Z) (list Z) Z Z Z _ _
              (pushTransformer Z)
              (map (fun g : list Z => Z.of_nat (length g)) (pushTransformer Z))
              (fun z => z <? 0) (fun z => z) (fun z => [z]) (fun z => z) 2 0)
    as [Hstages Hpulls].
  - intros this result input. reflexivity.
  - intros this result input. reflexivity.
  - split; [apply Hstages | apply Hpulls].
Defined.

(* ===================================================================== *)
(** ** Init and finish reach the downstream exactly once *)
(* ===================================================================== *)

Section Bracketing.
Context {St R C A B : Type}.
Variable stage : CompletingTransformer St R C A.
Variable log : St -> list (Call B).
Variable settled : St -> Prop.
Hypothesis Hstep : step_propagates stage log settled.
Hypothesis Hinit : init_once stage log.
Hypothesis Hfinish : finish_once stage log.

Lemma bracketing_loop :
  forall (source : list A) acc this,
    exists steps,
      log (snd (fst (reduceWithFunction source (xf_step stage) acc this)))
      = log this ++ steps /\
      forallb is_step steps = true.
Proof.
  induction source as [|x source IH]; intros acc this.
  - exists []. cbn. rewrite app_nil_r. auto.
  - cbn [reduceWithFunction].
    destruct (Hstep this acc x) as (new & Hlog & Hsteps & _).
    destruct (xf_step stage this acc x) as [next this1]. cbn [fst snd] in *.
    destruct (isReduced next).
    + exists new. auto.
    + destruct (IH (unreduced next) this1) as (steps & Hlog' & Hsteps').
      exists (new ++ steps). rewrite Hlog', Hlog, app_assoc, forallb_app, Hsteps, Hsteps'.
      auto.
Qed.

Lemma bracketing_traversal : traversal_bracketed stage log.
Proof.
  intros source this Hempty. rewrite transduce_unfold. cbv zeta. cbn [fst snd].
  destruct (bracketing_loop source (fst (xf_init stage this)) (snd (xf_init stage this)))
    as (steps & Hlog & Hsteps).
  set (loop := reduceWithFunction source (xf_step stage) (fst (xf_init stage this))
                 (snd (xf_init stage this))) in *.
  destruct (Hfinish (snd (fst loop)) (unreduced (fst (fst loop))))
    as (last_steps & Hlog' & Hsteps').
  exists (steps ++ last_steps).
  rewrite Hlog', Hlog, Hinit, Hempty, forallb_app, Hsteps, Hsteps'.
  cbn [app]. rewrite <- !app_assoc. auto.
Qed.
End Bracketing.

Ltac once_call :=
  match goal with
  | |- init_once _ _ =>
      let this := fresh "this" in
      intros this; cbn;
      repeat match goal with
             | |- context [xf_init ?xf ?s] => destruct (xf_init xf s)
             end;
      reflexivity
  | |- finish_once _ _ =>
      let this := fresh "this" in
      let acc := fresh "acc" in
      intros this acc; exists []; cbn;
      repeat match goal with
             | |- context [xf_result ?xf ?s ?a] => destruct (xf_result xf s a)
             end;
      split; reflexivity
  end.

Section StagesBracket.
Context {St R C T : Type}.
Variable xf : CompletingTransformer St R C T.

Lemma Filter_brackets pred :
  init_once (Filter (Recording xf) pred) (@calls T St) /\
  finish_once (Filter (Recording xf) pred) (@calls T St).
Proof. split; once_call. Qed.

Lemma MapTransformer_brackets {U} (f : U -> T) :
  init_once (MapTransformer (Recording xf) f) (@calls T St) /\
  finish_once (MapTransformer (Recording xf) f) (@calls T St).
Proof. split; once_call. Qed.

Lemma FlatMap_brackets {U} (g : U -> list T) :
  init_once (FlatMap (Recording xf) g) (@calls T St) /\
  finish_once (FlatMap (Recording xf) g) (@calls T St).
Proof. split; once_call. Qed.

Lemma TakeWhile_brackets pred :
  init_once (TakeWhile (Recording xf) pred) (@calls T St) /\
  finish_once (TakeWhile (Recording xf) pred) (@calls T St).
Proof. split; once_call. Qed.

Lemma Dedupe_brackets `{StrictEq T} :
  init_once (Dedupe (Recording xf)) (@calls T St) /\
  finish_once (Dedupe (Recording xf)) (@calls T St).
Proof. split; unfold Dedupe; cbn; unfold Dedupe_init, Dedupe_result; once_call. Qed.

Lemma DropWhile_brackets pred :
  init_once (DropWhile (Recording xf) pred) (@calls T St) /\
  finish_once (DropWhile (Recording xf) pred) (@calls T St).
Proof.
  split; unfold DropWhile; cbn; unfold DropWhile_init, DropWhile_result; once_call.
Qed.

Lemma TakeNth_brackets n :
  init_once (TakeNth (Recording xf) n) (@calls T St) /\
  finish_once (TakeNth (Recording xf) n) (@calls T St).
Proof.
  split; unfold TakeNth; cbn; unfold TakeNth_init, TakeNth_result; once_call.
Qed.

Lemma Drop_brackets n :
  init_once (Drop (Recording xf) n) (fun this => calls (Drop_xf this)) /\
  finish_once (Drop (Recording xf) n) (fun this => calls (Drop_xf this)).
Proof. split; unfold Drop; cbn; unfold Drop_init, Drop_result; once_call. Qed.

Lemma Take_brackets n :
  init_once (Take (Recording xf) n) (fun this => calls (Take_xf this)) /\
  finish_once (Take (Recording xf) n) (fun this => calls (Take_xf this)).
Proof. split; unfold Take; cbn; unfold Take_init, Take_result; once_call. Qed.

Lemma Interpose_brackets separator :
  init_once (Interpose (Recording xf) separator)
    (fun this => calls (Interpose_xf this)) /\
  finish_once (Interpose (Recording xf) separator)
    (fun this => calls (Interpose_xf this)).
Proof.
  split; unfold Interpose; cbn; unfold Interpose_init, Interpose_result; once_call.
Qed.
End StagesBracket.

Section GroupingStagesBracket.
Context {St R C T : Type}.
Variable xf : CompletingTransformer St R C (list T).

Lemma PartitionAll_brackets n :
  init_once (PartitionAll (Recording xf) n)
    (fun this => calls (PartitionAll_xf this)) /\
  finish_once (PartitionAll (Recording xf) n)
    (fun this => calls (PartitionAll_xf this)).
Proof.
  split.
  - unfold PartitionAll; cbn; unfold PartitionAll_init; once_call.
  - intros this acc. cbn. unfold PartitionAll_result.
    destruct (PartitionAll_buffer this) as [|b buffer]; cbn.
    + destruct (xf_result xf (recorded (PartitionAll_xf this)) acc).
      exists []. split; reflexivity.
    + destruct (xf_step xf (recorded (PartitionAll_xf this)) acc (b :: buffer))
        as [r s]. cbn.
      destruct (xf_result xf s (unreduced r)). cbn.
      exists [StepCall (b :: buffer) (isReduced r)].
      rewrite <- app_assoc. split; reflexivity.
Qed.

Lemma PartitionBy_brackets {K} `{StrictEq K} (f : T -> K) :
  init_once (PartitionBy (Recording xf) f) (@calls (list T) St) /\
  finish_once (PartitionBy (Recording xf) f) (@calls (list T) St).
Proof.
  split.
  - unfold PartitionBy; cbn; unfold PartitionBy_init; once_call.
  - intros this acc. cbn. unfold PartitionBy_result.
    destruct (PartitionBy_buffer acc) as [|b buffer]; cbn.
    + destruct (xf_result xf (recorded this) (PartitionBy_value acc)).
      exists []. split; reflexivity.
    + destruct (xf_step xf (recorded this) (PartitionBy_value acc) (b :: buffer))
        as [r s]. cbn.
      destruct (xf_result xf s (unreduced r)). cbn.
      exists [StepCall (b :: buffer) (isReduced r)].
      rewrite <- app_assoc. split; reflexivity.
Qed.
End GroupingStagesBracket.

(** X10.  Every stage of [transducers.ts], driven from init to finish over
    any source and any downstream: the downstream's init is called exactly
    once and first, its finish exactly once and last, and between the two it
    is stepped only. *)
Theorem traversals_bracketed :
  forall {St R C T U K} `{StrictEq T} `{StrictEq K}
         (xf : CompletingTransformer St R C T)
         (xfs : CompletingTransformer St R C (list T))
         (pred : T -> bool) (f : U -> T) (g : U -> list T) (key : T -> K)
         (n : Z) (separator : T),
    traversal_bracketed (Dedupe (Recording xf)) (@calls T St) /\
    traversal_bracketed (Drop (Recording xf) n) (fun this => calls (Drop_xf this)) /\
    traversal_bracketed (DropWhile (Recording xf) pred) (@calls T St) /\
    traversal_bracketed (Filter (Recording xf) pred) (@calls T St) /\
    traversal_bracketed (remove pred (Recording xf)) (@calls T St) /\
    traversal_bracketed (FlatMap (Recording xf) g) (@calls T St) /\
    traversal_bracketed (Interpose (Recording xf) separator)
      (fun this => calls (Interpose_xf this)) /\
    traversal_bracketed (MapTransformer (Recording xf) f) (@calls T St) /\
    traversal_bracketed (PartitionAll (Recording xfs) n)
      (fun this => calls (PartitionAll_xf this)) /\
    traversal_bracketed (PartitionBy (Recording xfs) key) (@calls (list T) St) /\
    traversal_bracketed (Take (Recording xf) n) (fun this => calls (Take_xf this)) /\
    traversal_bracketed (TakeNth (Recording xf) n) (@calls T St) /\
    traversal_bracketed (TakeWhile (Recording xf) pred) (@calls T St).
Proof.
  intros St R C T U K HT HK xf xfs pred f g key n separator.
  split; [eapply bracketing_traversal;
          [apply Dedupe_propagates | apply Dedupe_brackets | apply Dedupe_brackets]|].
  split; [eapply bracketing_traversal;
          [apply (Drop_propagates xf n) | apply Drop_brackets | apply Drop_brackets]|].
  split; [eapply bracketing_traversal;
          [apply DropWhile_propagates | apply DropWhile_brackets
           | apply DropWhile_brackets]|].
  split; [eapply bracketing_traversal;
          [apply Filter_propagates | apply Filter_brackets | apply Filter_brackets]|].
  split; [eapply bracketing_traversal;
          [apply (Filter_propagates xf (fun item => negb (pred item)))
           | apply Filter_brackets | apply Filter_brackets]|].
  split; [eapply bracketing_traversal;
          [apply FlatMap_propagates | apply FlatMap_brackets | apply FlatMap_brackets]|].
  split; [eapply bracketing_traversal;
          [apply (Interpose_propagates xf separator) | apply Interpose_brackets
           | apply Interpose_brackets]|].
  split; [eapply bracketing_traversal;
          [apply MapTransformer_propagates | apply MapTransformer_brackets
           | apply MapTransformer_brackets]|].
  split; [eapply bracketing_traversal;
          [apply (PartitionAll_propagates xfs n) | apply PartitionAll_brackets
           | apply PartitionAll_brackets]|].
  split; [eapply bracketing_traversal;
          [apply PartitionBy_step_propagates | apply PartitionBy_brackets
           | apply PartitionBy_brackets]|].
  split; [eapply bracketing_traversal;
          [apply (Take_propagates xf n) | apply Take_brackets | apply Take_brackets]|].
  split; [eapply bracketing_traversal;
          [apply TakeNth_propagates | apply TakeNth_brackets | apply TakeNth_brackets]
         | eapply bracketing_traversal;
          [apply TakeWhile_propagates | apply TakeWhile_brackets
           | apply TakeWhile_brackets]].
Qed.

(* ===================================================================== *)
(** ** Chains of several stages *)
(* ===================================================================== *)

Lemma pushTransformer_outcome {T} (l : list T) (this : unit) :
  outcome (pushTransformer T) l this = (l, tt).
Proof.
  rewrite outcome_unfold. cbv zeta. cbn [xf_init xf_step xf_result pushTransformer].
  cbn [fst snd]. destruct this.
  change (fun (this : unit) (array : list T) (x : T) => (Plain (aPush array x), this))
    with (xf_step (pushTransformer T)).
  rewrite push_loop. reflexivity.
Qed.

Lemma toArray_outcome {St R T U}
    (stage : CompletingTransformer unit (list U) (list U) U ->
             CompletingTransformer St R (list U) T) (source : list T) :
  toArray stage source
  = fst (outcome (stage (pushTransformer U)) source
           (xf_new (stage (pushTransformer U)))).
Proof. reflexivity. Qed.

Section DedupeTwice.
Context {T : Type} `{StrictEq T}.

(** In a list without two neighbours that are [===] and whose head is not
    [===] to [prev], nothing is removed. *)
Lemma dedupe_after_fixed :
  forall (l : list T) prev,
    match l with [] => True | x :: _ => strict_eq x prev = false end ->
    neighbours (fun a b => strict_eq b a = false) l ->
    dedupe_after prev l = l.
Proof.
  induction l as [|x l IH]; intros prev Hhead Hl; [reflexivity|].
  cbn [dedupe_after]. rewrite Hhead. f_equal.
  apply IH; destruct l as [|y l]; cbn in *; tauto.
Qed.

(** What [dedupe_after] keeps has no two neighbours that are [===], and starts
    with an element that is not [===] to the last one kept before. *)
Lemma dedupe_after_clean :
  forall (l : list T) prev last,
    last = prev \/ strict_eq prev last = true ->
    match dedupe_after prev l with
    | [] => True
    | x :: _ => strict_eq x last = false
    end /\
    neighbours (fun a b => strict_eq b a = false) (dedupe_after prev l).
Proof.
  induction l as [|x l IH]; intros prev last Hlast; [split; exact I|].
  assert (Hcmp : strict_eq x last = strict_eq x prev).
  { destruct Hlast as [->|Hlast]; [reflexivity|].
    symmetry. apply strict_eq_congr. exact Hlast. }
  cbn [dedupe_after]. destruct (strict_eq x prev) eqn:Hx.
  - apply IH. right. exact Hcmp.
  - destruct (IH x x (or_introl eq_refl)) as [Hhead Hrest].
    split; [exact Hcmp|].
    destruct (dedupe_after x l) as [|y kept]; [exact I|].
    cbn. split; [exact Hhead | exact Hrest].
Qed.

Lemma dedupe_spec_idempotent (l : list T) :
  dedupe_spec (dedupe_spec l) = dedupe_spec l.
Proof.
  destruct l as [|x l]; [reflexivity|]. cbn [dedupe_spec]. f_equal.
  destruct (dedupe_after_clean l (or_introl (eq_refl x))) as [Hhead Hrest].
  apply dedupe_after_fixed; assumption.
Qed.
End DedupeTwice.

(** X11.  Chains of several stages into the array builder.  The order of
    stages shows: [map(f)] then [filter(p)] filters the images, [filter(q)]
    then [map(f)] maps what was kept.  [take(n)] then [take(m)] takes the
    smaller number; what [take(n)] yields followed by what [drop(n)] yields
    is the input.  Grouping and flattening again gives the input back, for
    [PartitionAll] with [n >= 1] and for [partitionBy].  [dedupe()] twice is
    [dedupe()] once. *)
Theorem stages_compose :
  forall {T U K} `{StrictEq T} `{StrictEq K}
         (source : list T) (items : list U) (f : U -> T)
         (p : T -> bool) (q : U -> bool) (key : T -> K) (n m : Z),
    toArray (fun xf => map f (filter p xf)) items = List.filter p (List.map f items) /\
    toArray (fun xf => filter q (map f xf)) items = List.map f (List.filter q items) /\
    toArray (fun xf => take n (take m xf)) source
    = firstn (Nat.min (Z.to_nat m) (Z.to_nat n)) source /\
    toArray (take n) source ++ toArray (drop n) source = source /\
    (1 <= n ->
     toArray (fun xf => PartitionAll (flatMap (fun group => group) xf) n) source
     = source) /\
    toArray (fun xf => partitionBy key (flatMap (fun group => group) xf)) source
    = source /\
    toArray (fun xf => dedupe (dedupe xf)) source = toArray dedupe source.
Proof.
  intros T U K HT HK source items f p q key n m.
  split; [|split; [|split; [|split; [|split; [|split]]]]].
  - rewrite toArray_outcome. unfold map, filter.
    rewrite MapTransformer_outcome, Filter_outcome, pushTransformer_outcome.
    reflexivity.
  - rewrite toArray_outcome. unfold map, filter.
    rewrite Filter_outcome, MapTransformer_outcome, pushTransformer_outcome.
    reflexivity.
  - rewrite toArray_outcome. unfold take.
    pose proof (Take_outcome (Take (pushTransformer T) m) n source
                  {| Take_i := 0; Take_xf := tt |}) as Houter.
    cbv zeta in Houter. apply (f_equal fst) in Houter. cbn [fst] in Houter.
    pose proof (Take_outcome (pushTransformer T) m (firstn (Z.to_nat n) source) tt)
      as Hinner.
    cbv zeta in Hinner. apply (f_equal fst) in Hinner. cbn [fst] in Hinner.
    rewrite pushTransformer_outcome in Hinner. cbn [fst] in Hinner.
    change (xf_new (Take (Take (pushTransformer T) m) n))
      with {| Take_i := 0; Take_xf := {| Take_i := 0; Take_xf := tt |} |}.
    rewrite Houter, Hinner. apply firstn_firstn.
  - rewrite !toArray_outcome. unfold take, drop.
    pose proof (Take_outcome (pushTransformer T) n source tt) as Htake.
    pose proof (Drop_outcome (pushTransformer T) n source tt) as Hdrop.
    cbv zeta in Htake, Hdrop.
    apply (f_equal fst) in Htake. apply (f_equal fst) in Hdrop.
    rewrite pushTransformer_outcome in Htake, Hdrop. cbn [fst] in Htake, Hdrop.
    change (xf_new (Take (pushTransformer T) n))
      with {| Take_i := 0; Take_xf := tt |}.
    change (xf_new (Drop (pushTransformer T) n))
      with {| Drop_i := 0; Drop_xf := tt |}.
    rewrite Htake, Hdrop. apply firstn_skipn.
  - intros Hn. rewrite toArray_outcome. unfold flatMap.
    destruct (PartitionAll_outcome (FlatMap (pushTransformer T)
                                      (fun group : list T => group)) n source tt)
      as [Hout _].
    cbv zeta in Hout. apply (f_equal fst) in Hout. cbn [fst] in Hout.
    rewrite FlatMap_outcome, pushTransformer_outcome in Hout. cbn [fst] in Hout.
    change (xf_new (PartitionAll (FlatMap (pushTransformer T)
                                    (fun group : list T => group)) n))
      with {| PartitionAll_buffer := @nil T; PartitionAll_xf := tt |}.
    rewrite Hout.
    destruct (PartitionAll_toArray source Hn) as (full & leftover & E & _ & _ & Hcat).
    unfold toArrayOf, partitionAll in E.
    destruct (Z.eqb_spec n 0); [lia|]. destruct (Z.ltb_spec n 0); [lia|].
    injection E as E. rewrite E, flat_map_concat_map, List.map_id, concat_app, <- Hcat.
    f_equal. destruct leftover; cbn; rewrite ?app_nil_r; reflexivity.
  - rewrite toArray_outcome. unfold partitionBy, flatMap.
    assert (Hplain : never_done (FlatMap (pushTransformer T)
                                   (fun group : list T => group))).
    { apply FlatMap_never_done, pushTransformer_never_done. }
    rewrite (@PartitionBy_outcome _ _ _ _ _ _ _ key source _ Hplain).
    rewrite FlatMap_outcome, pushTransformer_outcome. cbn [fst].
    rewrite flat_map_concat_map, List.map_id.
    apply (groupBy_spec_sound key source).
  - rewrite Dedupe_toArray, toArray_outcome. unfold dedupe.
    rewrite !Dedupe_outcome, pushTransformer_outcome. cbn [fst].
    apply dedupe_spec_idempotent.
Qed.

Lemma stages_compose_witness :
  toArray (fun xf => PartitionAll (flatMap (fun group => group) xf) 2) [1; 2; 3; 4; 5]
  = [1; 2; 3; 4; 5].
Proof.
  destruct (@stages_compose Z Z Z _ _ [1; 2; 3; 4; 5] [] (fun z => z)
              (fun _ => true) (fun _ => true) (fun z => z) 2 2)
    as (_ & _ & _ & _ & Hround & _).
  apply Hround. lia.
Defined.

(* ===================================================================== *)
(** ** What early termination costs *)
(* ===================================================================== *)

Lemma TakeWhile_loop_rest {St R C T} (xf : CompletingTransformer St R C T) pred :
  forall (source : list T) acc this,
    exists j, (j <= S (first_failing pred source))%nat /\
              snd (reduceWithFunction source (TakeWhile_step xf pred) acc this)
              = skipn j source.
Proof.
  induction source as [|x source IH]; intros acc this.
  - exists 0%nat. split; [lia | reflexivity].
  - cbn [reduceWithFunction first_failing]. unfold TakeWhile_step at 1.
    destruct (pred x).
    + destruct (xf_step xf this acc x) as [next this1].
      destruct (isReduced next).
      * exists 1%nat. split; [lia | reflexivity].
      * destruct (IH (unreduced next) this1) as (j & Hj & E).
        exists (S j). split; [lia | exact E].
    + exists 1%nat. split; [lia | reflexivity].
Qed.

Lemma TakeWhile_loop_rest_push {T} (pred : T -> bool) :
  forall (source : list T) acc,
    snd (reduceWithFunction source (TakeWhile_step (pushTransformer T) pred) acc tt)
    = skipn (S (first_failing pred source)) source.
Proof.
  induction source as [|x source IH]; intros acc; [reflexivity|].
  cbn [reduceWithFunction first_failing]. unfold TakeWhile_step at 1.
  destruct (pred x); [|reflexivity].
  cbn [xf_step pushTransformer isReduced unreduced]. rewrite IH. reflexivity.
Qed.

(** X12.  [takeWhile(pred)] consumes the element on which [pred] fails: that
    element is pulled from the source to find out, and is neither stepped
    downstream nor left in the source.  Into the array builder the source is
    left right after the first failing element; over any downstream no more
    than that is pulled. *)
Theorem TakeWhile_consumes_failure :
  forall {St R C T} (xf : CompletingTransformer St R C T)
         (pred : T -> bool) (source : list T) (this : St),
    let k := first_failing pred source in
    (exists j, (j <= S k)%nat /\
               snd (transduce (takeWhile pred xf) source this) = skipn j source) /\
    snd (transduce (takeWhile pred (pushTransformer T)) source tt)
    = skipn (S k) source /\
    toArray (takeWhile pred) source = firstn k source.
Proof.
  intros St R C T xf pred source this k. split; [|split].
  - unfold takeWhile. rewrite transduce_unfold. cbv zeta. cbn [snd].
    apply TakeWhile_loop_rest.
  - unfold takeWhile. rewrite transduce_unfold. cbv zeta. cbn [snd].
    apply TakeWhile_loop_rest_push.
  - rewrite toArray_outcome. unfold takeWhile.
    rewrite TakeWhile_outcome, pushTransformer_outcome. reflexivity.
Qed.

(** The loop of [Take] into the array builder once its counter has reached
    [n - 1]: one element goes through, signaled. *)
Lemma Take_loop_push_spent {T} (n i : Z) :
  1 <= n -> n - 1 <= i ->
  forall (source : list T) acc,
    reduceWithFunction source (Take_step (pushTransformer T) n) acc
      {| Take_i := i; Take_xf := tt |}
    = match source with
      | [] => (Plain acc, {| Take_i := i; Take_xf := tt |}, [])
      | x :: rest => (Reduced (acc ++ [x]), {| Take_i := i + 1; Take_xf := tt |}, rest)
      end.
Proof.
  intros Hn Hi source acc. destruct source as [|x rest]; [reflexivity|].
  cbn [reduceWithFunction]. unfold Take_step. cbn [Take_i Take_xf].
  destruct (Z.leb_spec n 0); [lia|].
  cbn [xf_step pushTransformer].
  destruct (Z.ltb_spec i (n - 1)); [lia|]. reflexivity.
Qed.

(** X13.  The counter of [Take] is a field of the object and init does not
    reset it.  A [take(n)] object with [n >= 1] yields the first [n] elements
    of its first traversal; in a second traversal through the same object it
    yields what was left of its count, and one element when nothing was
    left. *)
Theorem Take_second_traversal :
  forall {T} (n : Z) (first second : list T),
    1 <= n ->
    toArrayTwice (take n) first second
    = (firstn (Z.to_nat n) first,
       firstn (Z.to_nat (Z.max 1 (n - Z.of_nat (length first)))) second).
Proof.
  intros T n first second Hn. unfold toArrayTwice, take.
  rewrite !transduce_unfold. cbv zeta.
  cbn [xf_new xf_init xf_step xf_result Take]. unfold Take_new, Take_init, Take_result.
  cbn [xf_new xf_init xf_result pushTransformer Take_i Take_xf fst snd].
  rewrite (Take_loop_push Hn first [] (i := 0)) by lia.
  rewrite Z.sub_0_r, Z.add_0_l. cbn [fst snd Take_i Take_xf app].
  assert (Hfirst : unreduced (if (Z.to_nat n <=? length first)%nat
                              then Reduced (firstn (Z.to_nat n) first)
                              else Plain (firstn (Z.to_nat n) first))
                   = firstn (Z.to_nat n) first).
  { destruct (Z.to_nat n <=? length first)%nat; reflexivity. }
  rewrite Hfirst. f_equal.
  destruct (Z_lt_le_dec (Z.of_nat (length first)) n) as [Hshort|Hlong].
  - replace (Nat.min (Z.to_nat n) (length first)) with (length first) by lia.
    rewrite (Take_loop_push Hn second [] (i := Z.of_nat (length first))) by lia.
    cbn [fst snd app].
    replace (Z.max 1 (n - Z.of_nat (length first)))
      with (n - Z.of_nat (length first)) by lia.
    clear Hfirst.
    destruct (Z.to_nat (n - Z.of_nat (length first)) <=? length second)%nat;
      reflexivity.
  - replace (Nat.min (Z.to_nat n) (length first)) with (Z.to_nat n) by lia.
    rewrite (@Take_loop_push_spent T n (Z.of_nat (Z.to_nat n))) by lia.
    replace (Z.max 1 (n - Z.of_nat (length first))) with 1 by lia.
    destruct second as [|x rest]; reflexivity.
Qed.

Lemma Take_second_traversal_witness :
  toArrayTwice (take 2) [1; 2; 3] [4; 5; 6] = ([1; 2], [4]) /\
  toArrayTwice (take 3) [1] [4; 5; 6] = ([1], [4; 5]).
Proof.
  split.
  - apply (@Take_second_traversal Z 2 [1; 2; 3] [4; 5; 6]). lia.
  - apply (@Take_second_traversal Z 3 [1] [4; 5; 6]). lia.
Defined.

Lemma dedupe_after_length {T} `{StrictEq T} (l : list T) :
  forall prev, (length (dedupe_after prev l) <= length l)%nat.
Proof.
  induction l as [|x l IH]; intros prev; cbn [dedupe_after length]; [lia|].
  destruct (strict_eq x prev); cbn [length]; specialize (IH x); lia.
Qed.

(** X14.  What [dedupe()] yields into the array builder never holds two
    neighbours that are [===]; it starts with the first input and is no
    longer than the input. *)
Theorem Dedupe_no_repeats :
  forall {T} `{StrictEq T} (source : list T),
    neighbours (fun a b => strict_eq b a = false) (toArray dedupe source) /\
    hd_error (toArray dedupe source) = hd_error source /\
    (length (toArray dedupe source) <= length source)%nat.
Proof.
  intros T HT source. rewrite Dedupe_toArray.
  destruct source as [|x source]; [repeat split; cbn; lia|].
  cbn [dedupe_spec hd_error length].
  destruct (dedupe_after_clean source (or_introl (eq_refl x))) as [Hhead Hrest].
  split; [|split; [reflexivity|]].
  - destruct (dedupe_after x source) as [|y kept]; [exact I|].
    cbn. split; [exact Hhead | exact Hrest].
  - pose proof (dedupe_after_length source x). lia.
Qed.
